(** * x86-64 encoder and IR lifetime analysis: a shallow embedding

  The development follows [encoder.c] (the in-memory assembler) and the
  intermediate-representation analyser that accompanies it.  C integers are
  integers of [Z] with their conversions written out, arrays are lists
  accessed by index, and every access outside an array is an explicit
  failure ([None]) because the C program has no defined behaviour there. *)

From Stdlib Require Import ZArith Lia List Bool.
From stdpp Require Import base tactics option list numbers.

Local Open Scope Z_scope.

(** ** Machine integers *)

Module CInt.

Definition to_unsigned (w x : Z) : Z := x mod 2 ^ w.

Definition to_signed (w x : Z) : Z := (x + 2 ^ (w - 1)) mod 2 ^ w - 2 ^ (w - 1).

Definition INT_MIN : Z := - 2 ^ 31.
Definition INT_MAX : Z := 2 ^ 31 - 1.

(** Conversion to [int] and [int32_t]. *)
Definition to_int (x : Z) : Z := to_signed 32 x.

(** Conversion to [intptr_t]. *)
Definition to_intptr (x : Z) : Z := to_signed 64 x.

(** Conversion to [size_t] and [uint64_t]. *)
Definition to_size_t (x : Z) : Z := to_unsigned 64 x.

(** The byte stored when a value is assigned to a [char] of the buffer. *)
Definition to_byte (x : Z) : Z := to_unsigned 8 x.

(** Signed [int] addition; overflow has no defined result. *)
Definition int_add (x y : Z) : option Z :=
  let r := x + y in
  if (INT_MIN <=? r) && (r <=? INT_MAX) then Some r else None.

(** Little-endian image of an integer on [n] bytes. *)
Fixpoint le_bytes (n : nat) (x : Z) : list Z :=
  match n with
  | O => []
  | S k => x mod 256 :: le_bytes k (x / 256)
  end.

(** The unsigned integer a little-endian byte sequence denotes. *)
Fixpoint le_value (bs : list Z) : Z :=
  match bs with
  | [] => 0
  | b :: rest => b + 256 * le_value rest
  end.

(** [*(T * )(buf + off) = v] for a [T] whose image is [bs]. *)
Definition store (buf : list Z) (off : Z) (bs : list Z) : option (list Z) :=
  if (0 <=? off) && (off + Z.of_nat (length bs) <=? Z.of_nat (length buf)) then
    Some (take (Z.to_nat off) buf ++ bs ++ drop (Z.to_nat off + length bs) buf)
  else None.

(** The [n] bytes found at [buf + off]. *)
Definition load (buf : list Z) (off : Z) (n : nat) : option (list Z) :=
  if (0 <=? off) && (off + Z.of_nat n <=? Z.of_nat (length buf)) then
    Some (take n (drop (Z.to_nat off) buf))
  else None.

(** [*(int32_t * )(buf + off)]. *)
Definition load_int32 (buf : list Z) (off : Z) : option Z :=
  bs ← load buf off 4; Some (to_signed 32 (le_value bs)).

End CInt.

Import CInt.

(** ** The encoder *)

Module X86.

(** *** Opcode constants *)

Definition X86_CALL_REL32 : Z := 0xE8.
Definition X86_JMP_REL32 : Z := 0xE9.
Definition X86_0F : Z := 0x0F.
Definition X86_0F_JMP_COND_REL32 (x : Z) : Z := 0x80 + x.
Definition X86_RET : Z := 0xC3.
Definition X86_NOP : Z := 0x90.
Definition X86_OPERAND_SIZE_OVERRIDE : Z := 0x66.
Definition X86_CMP_MODRM : Z := 0x39.
Definition X86_FF_MODRM : Z := 0xFF.
Definition X86_FF_MODRM_CALL : Z := 0x2.
Definition X86_FF_MODRM_JMP : Z := 0x4.
Definition X86_MOV_REG_IMM_LONG (x : Z) : Z := 0xB8 + x.
Definition X86_MOV_REG_IMM_LOW (x : Z) : Z := 0xB0 + x.
Definition X86_PUSH_REG (x : Z) : Z := 0x50 + x.
Definition X86_POP_REG (x : Z) : Z := 0x58 + x.

Definition X86_REX : Z := 0x40.
Definition X86_REX_B : Z := 0x1.
Definition X86_REX_X : Z := 0x2.
Definition X86_REX_R : Z := 0x4.
Definition X86_REX_W : Z := 0x8.

(** A C condition is true when it differs from zero. *)
Definition truthy (x : Z) : bool := negb (x =? 0).

Definition X86_REX_FIELD (b x r w : Z) : Z :=
  Z.lor (Z.lor (Z.lor (Z.lor X86_REX
    (if truthy b then X86_REX_B else 0))
    (if truthy x then X86_REX_X else 0))
    (if truthy r then X86_REX_R else 0))
    (if truthy w then X86_REX_W else 0).

(** [struct x86_modrm]: three bit-fields [rm], [reg] and [mod] packed in
    one byte, the first declared field in the low-order bits (x86-64
    System V layout). *)
Record x86_modrm := { rm : Z; reg : Z; mod_ : Z }.

Definition x86_modrm_byte (m : x86_modrm) : Z :=
  Z.lor (Z.lor (Z.land (rm m) 0x07) (Z.shiftl (Z.land (reg m) 0x07) 3))
        (Z.shiftl (Z.land (mod_ m) 0x03) 6).

Record x86_relocation := { offset : Z; label : Z; relative : Z }.

(** [buffer] holds the [buffer_size] bytes written so far and [labels] the
    [labels_size] offsets of the labels created so far.  [labels_spare] is
    the rest of the block behind [labels], the entries from [labels_size]
    up to [labels_capacity]: [x86_encoder_move_label] stores into the block
    without comparing its index with [labels_size], so these entries are
    part of the state.  An entry that nothing wrote since [realloc] handed
    it out holds no determinate value ([None]).  The capacities of the
    buffer and of the relocation table only drive [realloc] and carry no
    content. *)
Record x86_encoder := {
  buffer : list Z;
  labels : list Z;
  labels_spare : list (option Z);
  relocations : list x86_relocation
}.

Definition buffer_size (enc : x86_encoder) : Z := Z.of_nat (length (buffer enc)).
Definition labels_size (enc : x86_encoder) : Z := Z.of_nat (length (labels enc)).
Definition relocations_size (enc : x86_encoder) : Z :=
  Z.of_nat (length (relocations enc)).

(** The block behind [labels], entry by entry, and the number of entries
    it has room for, which is [labels_capacity]. *)
Definition labels_block (enc : x86_encoder) : list (option Z) :=
  (Some <$> labels enc) ++ labels_spare enc.

Definition labels_room (enc : x86_encoder) : Z :=
  labels_size enc + Z.of_nat (length (labels_spare enc)).

(** The entries [realloc] adds to a block: nothing wrote them yet. *)
Definition fresh_entries (n : nat) : list (option Z) := replicate n None.

Arguments fresh_entries : simpl never.

(** The state after [memset(&enc, 0, sizeof enc)]. *)
Definition x86_encoder_zero : x86_encoder :=
  {| buffer := []; labels := []; labels_spare := []; relocations := [] |}.

(** Bytes written through [ENC_X(enc, 0 ..)] followed by [ENC_ADVANCE]. *)
Definition ENC_ADVANCE (enc : x86_encoder) (written : list Z) : x86_encoder :=
  {| buffer := buffer enc ++ written;
     labels := labels enc;
     labels_spare := labels_spare enc;
     relocations := relocations enc |}.

(** [enc->labels[label] = enc->buffer_size]: a store into the block with no
    test on the index.  It is defined for every index below
    [labels_capacity], whether a label of that id exists (first case) or not
    yet (second case), and has no defined behaviour beyond the block. *)
Definition x86_encoder_move_label (enc : x86_encoder) (lbl : Z)
  : option x86_encoder :=
  if (0 <=? lbl) && (lbl <? labels_size enc) then
    Some {| buffer := buffer enc;
            labels := <[Z.to_nat lbl := buffer_size enc]> (labels enc);
            labels_spare := labels_spare enc;
            relocations := relocations enc |}
  else if (labels_size enc <=? lbl) && (lbl <? labels_room enc) then
    Some {| buffer := buffer enc;
            labels := labels enc;
            labels_spare :=
              <[Z.to_nat (lbl - labels_size enc) := Some (buffer_size enc)]>
                (labels_spare enc);
            relocations := relocations enc |}
  else None.

(** When the block is full, [labels_capacity += 1024] and [realloc] add
    1024 entries to it; the new label then takes the entry at index
    [labels_size], the first spare one. *)
Definition x86_encoder_add_label (enc : x86_encoder) : x86_encoder * Z :=
  let nlabel := labels_size enc in
  let spare :=
    if labels_size enc >=? labels_room enc
    then labels_spare enc ++ fresh_entries 1024
    else labels_spare enc in
  ({| buffer := buffer enc;
      labels := labels enc ++ [buffer_size enc];
      labels_spare := tail spare;
      relocations := relocations enc |}, nlabel).

Definition x86_encoder_add_relocation (enc : x86_encoder) (lbl rel : Z)
  : x86_encoder :=
  {| buffer := buffer enc;
     labels := labels enc;
     labels_spare := labels_spare enc;
     relocations := relocations enc ++
       [{| offset := buffer_size enc; label := lbl; relative := rel |}] |}.

(** The loop of [x86_encoder_apply_relocations_in_memory] over the
    relocations not yet visited. *)
Fixpoint apply_relocations_loop (enc : x86_encoder) (base : Z)
    (relocs : list x86_relocation) (t_buffer : list Z) : option (Z * list Z) :=
  match relocs with
  | [] => Some (0, t_buffer)
  | reloc :: rest =>
      let lbl := to_size_t (label reloc) in
      if lbl >=? labels_size enc then Some (1, t_buffer)
      else
        l ← labels enc !! Z.to_nat lbl;
        let to := to_intptr l in
        t' ← (if truthy (relative reloc) then
                let from := to_intptr (to_size_t (offset reloc + 4)) in
                let rel := to_int (to_intptr (to - from)) in
                store t_buffer (offset reloc) (le_bytes 4 rel)
              else
                store t_buffer (offset reloc)
                      (le_bytes 8 (to_size_t (base + to))));
        apply_relocations_loop enc base rest t'
  end.

Definition x86_encoder_apply_relocations_in_memory (enc : x86_encoder)
    (t_buffer : list Z) (base : Z) : option (Z * list Z) :=
  apply_relocations_loop enc base (relocations enc) t_buffer.

Definition x86_encoder_apply_relocations (enc : x86_encoder) (base : Z)
  : option (Z * x86_encoder) :=
  '(res, buf) ← x86_encoder_apply_relocations_in_memory enc (buffer enc) base;
  Some (res, {| buffer := buf; labels := labels enc;
                labels_spare := labels_spare enc;
                relocations := relocations enc |}).

(** [target] is the address of the destination, whose first [buffer_size]
    bytes are the copy made by [memcpy]. *)
Definition x86_encoder_link_to_memory (enc : x86_encoder) (target : Z)
  : option (Z * list Z) :=
  x86_encoder_apply_relocations_in_memory enc (buffer enc) (to_size_t target).

(** *** Emitters *)

Definition _x86_encoder_prepare_modrm_rex (opcode rm_ reg_ wide : Z) : list Z :=
  [ to_byte (X86_REX_FIELD (Z.land rm_ 0x08) 0 (Z.land reg_ 0x08) wide);
    to_byte opcode;
    x86_modrm_byte {| rm := Z.land rm_ 0x07; reg := Z.land reg_ 0x07;
                      mod_ := 0x03 |} ].

Definition x86_encoder_write_modrm_rex (enc : x86_encoder)
    (opcode rm_ reg_ wide : Z) : x86_encoder :=
  ENC_ADVANCE enc (_x86_encoder_prepare_modrm_rex opcode rm_ reg_ wide).

Definition x86_encoder_write_jmp (enc : x86_encoder) (call lbl : Z)
  : x86_encoder :=
  let opcode := if truthy call then X86_CALL_REL32 else X86_JMP_REL32 in
  let enc1 := ENC_ADVANCE enc [to_byte opcode] in
  let enc2 := x86_encoder_add_relocation enc1 (to_int lbl) 1 in
  ENC_ADVANCE enc2 (le_bytes 4 0).

Definition x86_encoder_write_jmp_cond (enc : x86_encoder) (cond lbl : Z)
  : x86_encoder :=
  let enc1 := ENC_ADVANCE enc [to_byte X86_0F;
                               to_byte (X86_0F_JMP_COND_REL32 cond)] in
  let enc2 := x86_encoder_add_relocation enc1 (to_int lbl) 1 in
  ENC_ADVANCE enc2 (le_bytes 4 0).

Definition x86_encoder_write_jmp_reg (enc : x86_encoder) (call reg_ : Z)
  : x86_encoder :=
  x86_encoder_write_modrm_rex enc X86_FF_MODRM reg_
    (if truthy call then X86_FF_MODRM_CALL else X86_FF_MODRM_JMP) 1.

Definition x86_encoder_write_cmp_reg (enc : x86_encoder) (reg_1 reg_2 : Z)
  : x86_encoder :=
  x86_encoder_write_modrm_rex enc X86_CMP_MODRM reg_1 reg_2 1.

Definition x86_encoder_write_modrm (enc : x86_encoder) (opcode reg_1 reg_2 : Z)
  : x86_encoder :=
  x86_encoder_write_modrm_rex enc opcode reg_1 reg_2 1.

Definition x86_encoder_write_modrm_32 (enc : x86_encoder)
    (opcode reg_1 reg_2 : Z) : x86_encoder :=
  x86_encoder_write_modrm_rex enc opcode reg_1 reg_2 0.

Definition x86_encoder_write_modrm_16 (enc : x86_encoder)
    (opcode reg_1 reg_2 : Z) : x86_encoder :=
  let enc1 := ENC_ADVANCE enc [to_byte X86_OPERAND_SIZE_OVERRIDE] in
  ENC_ADVANCE enc1 (_x86_encoder_prepare_modrm_rex opcode reg_1 reg_2 0).

Definition x86_encoder_write_modrm_8 (enc : x86_encoder)
    (opcode reg_1 reg_2 : Z) : x86_encoder :=
  x86_encoder_write_modrm_rex enc (opcode - 1) reg_1 reg_2 0.

Definition x86_encoder_write_mov_imm_64 (enc : x86_encoder) (reg_ value : Z)
  : x86_encoder :=
  ENC_ADVANCE enc
    ([ to_byte (X86_REX_FIELD (Z.land reg_ 0x08) 0 0 1);
       to_byte (X86_MOV_REG_IMM_LONG (Z.land reg_ 0x07)) ]
     ++ le_bytes 8 (to_unsigned 64 value)).

Definition x86_encoder_write_mov_imm_32 (enc : x86_encoder) (reg_ value : Z)
  : x86_encoder :=
  ENC_ADVANCE enc
    ([ to_byte (X86_REX_FIELD (Z.land reg_ 0x08) 0 0 0);
       to_byte (X86_MOV_REG_IMM_LONG (Z.land reg_ 0x07)) ]
     ++ le_bytes 4 (to_unsigned 32 value)).

Definition x86_encoder_write_mov_imm_16 (enc : x86_encoder) (reg_ value : Z)
  : x86_encoder :=
  ENC_ADVANCE enc
    ([ to_byte X86_OPERAND_SIZE_OVERRIDE;
       to_byte (X86_REX_FIELD (Z.land reg_ 0x08) 0 0 0);
       to_byte (X86_MOV_REG_IMM_LONG (Z.land reg_ 0x07)) ]
     ++ le_bytes 2 (to_unsigned 16 value)).

Definition x86_encoder_write_mov_imm_8 (enc : x86_encoder) (reg_ value : Z)
  : x86_encoder :=
  ENC_ADVANCE enc
    ([ to_byte (X86_REX_FIELD (Z.land reg_ 0x08) 0 0 0);
       to_byte (X86_MOV_REG_IMM_LOW (Z.land reg_ 0x07)) ]
     ++ le_bytes 1 (to_unsigned 8 value)).

Definition x86_encoder_write_push (enc : x86_encoder) (reg_ : Z) : x86_encoder :=
  ENC_ADVANCE enc [ to_byte (X86_REX_FIELD (Z.land reg_ 0x08) 0 0 0);
                    to_byte (X86_PUSH_REG (Z.land reg_ 0x07)) ].

Definition x86_encoder_write_pop (enc : x86_encoder) (reg_ : Z) : x86_encoder :=
  ENC_ADVANCE enc [ to_byte (X86_REX_FIELD (Z.land reg_ 0x08) 0 0 0);
                    to_byte (X86_POP_REG (Z.land reg_ 0x07)) ].

Definition x86_encoder_write_ret (enc : x86_encoder) : x86_encoder :=
  ENC_ADVANCE enc [to_byte X86_RET].

Definition x86_encoder_write_nop (enc : x86_encoder) : x86_encoder :=
  ENC_ADVANCE enc [to_byte X86_NOP].

(** *** The byte layouts of the instruction format

    [rex_byte] is the prefix 0100_WRXB and [modrm_byte] the byte
    mod(2) | reg(3) | rm(3), both written from the format itself. *)

Definition bit (b : bool) : Z := if b then 1 else 0.

Definition rex_byte (w r x b : bool) : Z :=
  0x40 + 8 * bit w + 4 * bit r + 2 * bit x + bit b.

Definition modrm_byte (mod3 reg3 rm3 : Z) : Z := 64 * mod3 + 8 * reg3 + rm3.

(** [appends enc enc' bs]: [enc'] is [enc] with the bytes [bs] added at the
    end of the buffer and nothing else changed. *)
Definition appends (enc enc' : x86_encoder) (bs : list Z) : Prop :=
  buffer enc' = buffer enc ++ bs
  /\ labels enc' = labels enc
  /\ relocations enc' = relocations enc
  /\ labels_spare enc' = labels_spare enc.

(** [appends_jump enc enc' opcode lbl]: [enc'] is [enc] with the opcode
    bytes and four zero bytes added, and one relative relocation recorded
    for [lbl] at the position of the zero bytes. *)
Definition appends_jump (enc enc' : x86_encoder) (opcode : list Z) (lbl : Z)
  : Prop :=
  let patch_offset := buffer_size enc + Z.of_nat (length opcode) in
  buffer enc' = buffer enc ++ opcode ++ [0; 0; 0; 0]
  /\ labels enc' = labels enc
  /\ relocations enc' = relocations enc ++
       [{| offset := patch_offset; label := lbl; relative := 1 |}]
  /\ load (buffer enc') patch_offset 4 = Some [0; 0; 0; 0]
  /\ labels_spare enc' = labels_spare enc.

(** *** Call sequences

    A client drives the encoder through a sequence of calls; [run] threads
    the encoder through them and collects the ids [x86_encoder_add_label]
    returned, in call order. *)

Inductive emit_call :=
| EmitModrmRex (opcode rm_ reg_ wide : Z)
| EmitJmp (call lbl : Z)
| EmitJmpCond (cond lbl : Z)
| EmitJmpReg (call reg_ : Z)
| EmitCmpReg (reg_1 reg_2 : Z)
| EmitModrm (opcode reg_1 reg_2 : Z)
| EmitModrm32 (opcode reg_1 reg_2 : Z)
| EmitModrm16 (opcode reg_1 reg_2 : Z)
| EmitModrm8 (opcode reg_1 reg_2 : Z)
| EmitMovImm64 (reg_ value : Z)
| EmitMovImm32 (reg_ value : Z)
| EmitMovImm16 (reg_ value : Z)
| EmitMovImm8 (reg_ value : Z)
| EmitPush (reg_ : Z)
| EmitPop (reg_ : Z)
| EmitRet
| EmitNop.

Inductive encoder_call :=
| CallAddLabel
| CallMoveLabel (lbl : Z)
| CallEmit (e : emit_call).

Definition emit (enc : x86_encoder) (e : emit_call) : x86_encoder :=
  match e with
  | EmitModrmRex o r1 r2 w => x86_encoder_write_modrm_rex enc o r1 r2 w
  | EmitJmp c l => x86_encoder_write_jmp enc c l
  | EmitJmpCond c l => x86_encoder_write_jmp_cond enc c l
  | EmitJmpReg c r => x86_encoder_write_jmp_reg enc c r
  | EmitCmpReg r1 r2 => x86_encoder_write_cmp_reg enc r1 r2
  | EmitModrm o r1 r2 => x86_encoder_write_modrm enc o r1 r2
  | EmitModrm32 o r1 r2 => x86_encoder_write_modrm_32 enc o r1 r2
  | EmitModrm16 o r1 r2 => x86_encoder_write_modrm_16 enc o r1 r2
  | EmitModrm8 o r1 r2 => x86_encoder_write_modrm_8 enc o r1 r2
  | EmitMovImm64 r v => x86_encoder_write_mov_imm_64 enc r v
  | EmitMovImm32 r v => x86_encoder_write_mov_imm_32 enc r v
  | EmitMovImm16 r v => x86_encoder_write_mov_imm_16 enc r v
  | EmitMovImm8 r v => x86_encoder_write_mov_imm_8 enc r v
  | EmitPush r => x86_encoder_write_push enc r
  | EmitPop r => x86_encoder_write_pop enc r
  | EmitRet => x86_encoder_write_ret enc
  | EmitNop => x86_encoder_write_nop enc
  end.

(** One call: the next encoder and the label id returned, if any. *)
Definition step (enc : x86_encoder) (c : encoder_call)
  : option (x86_encoder * list Z) :=
  match c with
  | CallAddLabel => let '(enc', id) := x86_encoder_add_label enc in Some (enc', [id])
  | CallMoveLabel l => enc' ← x86_encoder_move_label enc l; Some (enc', [])
  | CallEmit e => Some (emit enc e, [])
  end.

Fixpoint run (cs : list encoder_call) (enc : x86_encoder)
  : option (x86_encoder * list Z) :=
  match cs with
  | [] => Some (enc, [])
  | c :: rest =>
      '(enc1, ids1) ← step enc c;
      '(enc2, ids2) ← run rest enc1;
      Some (enc2, ids1 ++ ids2)
  end.

(** For a jump emitter call: the number of opcode bytes that precede the
    four placeholder bytes, and the label the jump goes to. *)
Definition jump_placeholder (e : emit_call) : option (Z * Z) :=
  match e with
  | EmitJmp _ l => Some (1, l)
  | EmitJmpCond _ l => Some (2, l)
  | _ => None
  end.

(** A relocation names an unknown label when the link step, which reads the
    recorded [int] as a [size_t], finds it at or beyond the label count. *)
Definition unknown_label (enc : x86_encoder) (r : x86_relocation) : Prop :=
  labels_size enc <= to_size_t (label r).

(** Layout of a relocation table: relative relocations whose four-byte
    fields lie one after the other between [lo] and [hi]. *)
Fixpoint reloc_chain (lo : Z) (rs : list x86_relocation) (hi : Z) : Prop :=
  match rs with
  | [] => lo <= hi
  | r :: rest =>
      lo <= offset r /\ relative r = 1 /\ reloc_chain (offset r + 4) rest hi
  end.

(** *** Buffer management

    The three capacities of [struct x86_encoder], kept beside the contents:
    they change only in [x86_encoder_check_buffer], [x86_encoder_add_label]
    and [x86_encoder_add_relocation].  Sizes and capacities are far below
    2^64, so the [size_t] sums are written without wrap-around.  The label
    capacity kept here is the room of the label block of the encoder
    ([labels_capacity_room]). *)

Record x86_capacities := {
  buffer_capacity : Z;
  labels_capacity : Z;
  relocations_capacity : Z
}.


Definition x86_encoder_check_buffer (enc : x86_encoder) (caps : x86_capacities)
    (required : Z) : x86_capacities :=
  if buffer_size enc + required >? buffer_capacity caps then
    {| buffer_capacity := buffer_capacity caps + required + 1024;
       labels_capacity := labels_capacity caps;
       relocations_capacity := relocations_capacity caps |}
  else caps.

(** The capacity test at the head of [x86_encoder_add_label]. *)
Definition add_label_capacity (enc : x86_encoder) (caps : x86_capacities)
  : x86_capacities :=
  if labels_size enc >=? labels_capacity caps then
    {| buffer_capacity := buffer_capacity caps;
       labels_capacity := labels_capacity caps + 1024;
       relocations_capacity := relocations_capacity caps |}
  else caps.

(** The capacity test at the head of [x86_encoder_add_relocation]. *)
Definition add_relocation_capacity (enc : x86_encoder) (caps : x86_capacities)
  : x86_capacities :=
  if relocations_size enc >=? relocations_capacity caps then
    {| buffer_capacity := buffer_capacity caps;
       labels_capacity := labels_capacity caps;
       relocations_capacity := relocations_capacity caps + 1024 |}
  else caps.

(** The number of bytes each emitter asks [x86_encoder_check_buffer] for. *)
Definition reserved (e : emit_call) : Z :=
  match e with
  | EmitModrmRex _ _ _ _ => 3
  | EmitJmp _ _ => 5
  | EmitJmpCond _ _ => 6
  | EmitJmpReg _ _ => 3
  | EmitCmpReg _ _ => 3
  | EmitModrm _ _ _ => 3
  | EmitModrm32 _ _ _ => 3
  | EmitModrm16 _ _ _ => 4
  | EmitModrm8 _ _ _ => 3
  | EmitMovImm64 _ _ => 11
  | EmitMovImm32 _ _ => 6
  | EmitMovImm16 _ _ => 5
  | EmitMovImm8 _ _ => 3
  | EmitPush _ => 2
  | EmitPop _ => 2
  | EmitRet => 1
  | EmitNop => 1
  end.

(** The capacities after one call made on [enc]. *)
Definition step_capacities (enc : x86_encoder) (caps : x86_capacities)
    (c : encoder_call) : x86_capacities :=
  match c with
  | CallAddLabel => add_label_capacity enc caps
  | CallMoveLabel _ => caps
  | CallEmit e =>
      let caps1 := x86_encoder_check_buffer enc caps (reserved e) in
      match jump_placeholder e with
      | Some _ => add_relocation_capacity enc caps1
      | None => caps1
      end
  end.

Fixpoint run_capacities (cs : list encoder_call) (enc : x86_encoder)
    (caps : x86_capacities) : option (x86_encoder * x86_capacities) :=
  match cs with
  | [] => Some (enc, caps)
  | c :: rest =>
      '(enc1, _) ← step enc c;
      run_capacities rest enc1 (step_capacities enc caps c)
  end.

(** *** Sizes of the instructions *)

(** The length of the encoding each emitter produces. *)
Definition emit_length (e : emit_call) : Z :=
  match e with
  | EmitJmp _ _ => 5
  | EmitJmpCond _ _ => 6
  | EmitModrm16 _ _ _ => 4
  | EmitMovImm64 _ _ => 10
  | EmitMovImm32 _ _ => 6
  | EmitMovImm16 _ _ => 5
  | EmitPush _ | EmitPop _ => 2
  | EmitRet | EmitNop => 1
  | _ => 3
  end.

(** The total length of the instructions a call sequence emits. *)
Fixpoint code_size (cs : list encoder_call) : Z :=
  match cs with
  | [] => 0
  | CallEmit e :: rest => emit_length e + code_size rest
  | _ :: rest => code_size rest
  end.

(** The relocations a call sequence records when it starts at buffer
    position [pos]: one per jump, at its placeholder. *)
Fixpoint expected_relocations (cs : list encoder_call) (pos : Z)
  : list x86_relocation :=
  match cs with
  | [] => []
  | CallEmit e :: rest =>
      match jump_placeholder e with
      | Some (skip, l) =>
          {| offset := pos + skip; label := to_int l; relative := 1 |}
          :: expected_relocations rest (pos + emit_length e)
      | None => expected_relocations rest (pos + emit_length e)
      end
  | _ :: rest => expected_relocations rest pos
  end.

(** The number of labels a call sequence creates. *)
Fixpoint labels_created (cs : list encoder_call) : Z :=
  match cs with
  | [] => 0
  | CallAddLabel :: rest => 1 + labels_created rest
  | _ :: rest => labels_created rest
  end.

(** Width of the field a relocation patches. *)
Definition reloc_width (r : x86_relocation) : Z :=
  if truthy (relative r) then 4 else 8.

(** Layout of a relocation table of both kinds: fields that lie one after
    the other between [lo] and [hi]. *)
Fixpoint reloc_layout (lo : Z) (rs : list x86_relocation) (hi : Z) : Prop :=
  match rs with
  | [] => lo <= hi
  | r :: rest => lo <= offset r /\ reloc_layout (offset r + reloc_width r) rest hi
  end.

(** *** Reading an instruction back

    The register-register form read from its three bytes, as the
    instruction format lays them out: REX 0100_WRXB with X clear, the
    opcode, and a ModR/M byte with mod = 3.  The result is the operand
    width bit, the opcode byte and the two 4-bit register numbers. *)
Definition decode_modrm_rex (bs : list Z) : option (bool * Z * Z * Z) :=
  match bs with
  | [rex; opcode; modrm] =>
      if (Z.shiftr rex 4 =? 4) && negb (Z.testbit rex 1)
         && (Z.shiftr modrm 6 =? 3)
      then Some (Z.testbit rex 3, opcode,
                 8 * bit (Z.testbit rex 0) + Z.land modrm 7,
                 8 * bit (Z.testbit rex 2) + Z.land (Z.shiftr modrm 3) 7)
      else None
  | _ => None
  end.

Definition is_byte (b : Z) : Prop := 0 <= b < 256.

End X86.

(** ** The intermediate representation and its analysis *)

Module IR.

Definition OPERAND_INFO_TYPE_IMMEDIATE : Z := 0.
Definition OPERAND_INFO_TYPE_VARIABLE : Z := 1.
Definition OPERAND_INFO_TYPE_ARGUMENT : Z := 2.
Definition OPERAND_INFO_TYPE_CONSTANT : Z := 3.
Definition OPERAND_INFO_TYPE_FUNCTION : Z := 4.
Definition OPERAND_FLAG_ADDRESS : Z := Z.shiftl 1 0.
Definition OPERAND_FLAG_DEREFERENCE : Z := Z.shiftl 1 1.

Definition OPCODE_NOP : Z := 0.
Definition OPCODE_COPY : Z := 1.
Definition OPCODE_ADD : Z := 2.
Definition OPCODE_NOT : Z := 6.
Definition OPCODE_BIT_NEG : Z := 9.
Definition OPCODE_GOTO_BASE : Z := 16.
Definition OPCODE_GOTO_COND (comparison_type : Z) : Z :=
  OPCODE_GOTO_BASE + comparison_type.
Definition OPCODE_COMPARE_BASE : Z := 24.
Definition OPCODE_COMPARE (comparison_type : Z) : Z :=
  OPCODE_COMPARE_BASE + comparison_type.
Definition OPCODE_SET_ARGUMENT : Z := 32.
Definition OPCODE_CALL : Z := 33.
Definition OPCODE_RETURN : Z := 34.

Definition COMPARISON_ALWAYS : Z := 0.
Definition COMPARISON_EQUAL : Z := 1.

(** [ti_type] is the field [type] of [struct TypeInfo]; the name [type] is
    kept for the field of [struct Opcode]. *)
Record TypeInfo := { ti_type : Z; sub_type : Z; struct_size : Z }.

(** [ref_id] is the [int] member of the payload union, the only member the
    analysis reads. *)
Record Operand := {
  ref_id : Z;
  info_type : Z;
  info_flags : Z;
  type_info : TypeInfo
}.

(** [target], [primary_1] and [primary_2] are [operands[OPERAND_TARGET]],
    [operands[OPERAND_PRIMARY_1]] and [operands[OPERAND_PRIMARY_2]]. *)
Record Opcode := {
  type : Z;
  target : Operand;
  primary_1 : Operand;
  primary_2 : Operand
}.

(** [struct Variable] and its field [type_info]. *)
Record Variable_ := { var_type_info : TypeInfo }.

(** [struct Function]; [fn_id] is its field [id], and the two arrays are
    lists whose lengths are [opcodes_size] and [variables_size]. *)
Record Function := {
  fn_id : Z;
  arguments : list TypeInfo;
  return_type : TypeInfo;
  opcodes : list Opcode;
  variables : list Variable_
}.

Definition opcodes_size (fn : Function) : nat := length (opcodes fn).
Definition variables_size (fn : Function) : nat := length (variables fn).

Record OpcodeInfo := { previous_label : Z; jump_from : Z }.

Definition VARIABLE_INFO_PRUNED : Z := Z.shiftl 1 0.
Definition VARIABLE_INFO_UNUSED : Z := Z.shiftl 1 1.
Definition VARIABLE_INFO_ETERNAL : Z := Z.shiftl 1 2.
Definition VARIABLE_INFO_UNINITIALIZED : Z := Z.shiftl 1 4.

Record VariableInfo := {
  lifetime_start : Z;
  lifetime_end : Z;
  flags : Z
}.

(** The two arrays of [struct FunctionAnalysis], [infos] and [variables],
    as they stand when [analyse_function] reaches its last statement. *)
Record FunctionAnalysis := {
  infos : list OpcodeInfo;
  variable_infos : list VariableInfo
}.

(** [arr[i]] for an [int] index: defined inside the array only. *)
Definition at_index {A} (arr : list A) (i : Z) : option A :=
  if 0 <=? i then arr !! Z.to_nat i else None.

(** [(flags & mask)] as a condition. *)
Definition has_flag (fl mask : Z) : bool := negb (Z.land fl mask =? 0).

Definition opcode_is_jump (x : Opcode) : bool :=
  (type x >=? OPCODE_GOTO_BASE) && (type x <? OPCODE_GOTO_BASE + 8).

Definition opcode_is_pure_assignment (x : Opcode) : bool :=
  if type x =? OPCODE_COPY then true
  else if type x =? OPCODE_CALL then true
  else false.

Definition opcode_modifies_target_operand (x : Opcode) : bool :=
  if (type x >=? 1) && (type x <=? 15) then true
  else if (type x >=? OPCODE_COMPARE_BASE) && (type x <? OPCODE_COMPARE_BASE + 8)
  then true
  else if type x =? OPCODE_CALL then true
  else false.

Definition opcode_read_operand_primary_1 (x : Opcode) : bool :=
  if (type x =? OPCODE_COMPARE_BASE) || (type x =? OPCODE_GOTO_BASE) then false
  else if type x =? OPCODE_NOP then false
  else true.

Definition opcode_read_operand_primary_2 (x : Opcode) : bool :=
  if negb (opcode_read_operand_primary_1 x) then false
  else if type x =? OPCODE_RETURN then false
  else if type x =? OPCODE_CALL then false
  else if type x =? OPCODE_SET_ARGUMENT then false
  else if type x =? OPCODE_BIT_NEG then false
  else if type x =? OPCODE_NOT then false
  else if type x =? OPCODE_COPY then false
  else true.

(** The inner [while (pos >= minimum)] of [extend_variable_lifetime]; the
    result is [max_jmp_pos] at loop exit.  [fuel] bounds the number of
    iterations; [scan_labels_defined] shows that one more than the array
    length suffices once the previous-label list is built. *)
Fixpoint scan_labels (fuel : nat) (a_infos : list OpcodeInfo)
    (pos minimum max_jmp_pos : Z) : option Z :=
  match fuel with
  | O => None
  | S fuel' =>
      if pos >=? minimum then
        info ← at_index a_infos pos;
        let max_jmp_pos' :=
          if jump_from info >? max_jmp_pos then jump_from info else max_jmp_pos in
        scan_labels fuel' a_infos (previous_label info) minimum max_jmp_pos'
      else Some max_jmp_pos
  end.

(** The [do ... while (max_jmp_pos >= maximum)] of
    [extend_variable_lifetime]; the result is [maximum] at loop exit.
    [fuel] bounds the number of iterations; [scan_jumps_defined] shows that
    one more than the array length suffices. *)
Fixpoint scan_jumps (fuel : nat) (a_infos : list OpcodeInfo)
    (max_jmp_pos minimum : Z) : option Z :=
  match fuel with
  | O => None
  | S fuel' =>
      maximum ← int_add max_jmp_pos 1;
      max_jmp_pos' ← scan_labels (S (length a_infos)) a_infos
                                 max_jmp_pos minimum max_jmp_pos;
      if max_jmp_pos' >=? maximum then scan_jumps fuel' a_infos max_jmp_pos' maximum
      else Some maximum
  end.

Definition extend_variable_lifetime (a_infos : list OpcodeInfo)
    (var : VariableInfo) (index : Z) (pure_assignment : bool)
  : option VariableInfo :=
  if (lifetime_end var >=? index)
     || has_flag (flags var) VARIABLE_INFO_ETERNAL
     || has_flag (flags var) VARIABLE_INFO_UNINITIALIZED
  then Some var
  else if lifetime_start var =? -1 then
    if pure_assignment then
      e ← int_add index 1;
      Some {| lifetime_start := index;
              lifetime_end := e;
              flags := Z.lor (flags var) VARIABLE_INFO_UNUSED |}
    else
      Some {| lifetime_start := lifetime_start var;
              lifetime_end := lifetime_end var;
              flags := Z.lor (flags var)
                         (Z.lor VARIABLE_INFO_ETERNAL VARIABLE_INFO_UNINITIALIZED) |}
  else
    let flags' :=
      if pure_assignment then Z.lor (flags var) VARIABLE_INFO_UNUSED
      else Z.land (flags var) (to_unsigned 32 (Z.lnot VARIABLE_INFO_UNUSED)) in
    let minimum :=
      if lifetime_end var <? lifetime_start var then lifetime_start var
      else lifetime_end var in
    maximum ← scan_jumps (S (length a_infos)) a_infos index minimum;
    Some {| lifetime_start := lifetime_start var;
            lifetime_end := maximum;
            flags := flags' |}.

Definition operand_is_variable (operand : Operand) : bool :=
  info_type operand =? OPERAND_INFO_TYPE_VARIABLE.

Definition operand_is_variable_address_load (operand : Operand) : bool :=
  operand_is_variable operand
  && negb (Z.lor (info_flags operand) OPERAND_FLAG_ADDRESS =? 0).

(** [extend_variable_lifetime(a, &a->variables[ref], index, pure)]. *)
Definition extend_variable (a_infos : list OpcodeInfo)
    (vars : list VariableInfo) (ref : Z) (index : Z) (pure_assignment : bool)
  : option (list VariableInfo) :=
  var ← at_index vars ref;
  var' ← extend_variable_lifetime a_infos var index pure_assignment;
  Some (<[Z.to_nat ref := var']> vars).

(** [a->variables[ref].flags |= VARIABLE_INFO_ETERNAL]. *)
Definition mark_eternal (vars : list VariableInfo) (ref : Z)
  : option (list VariableInfo) :=
  var ← at_index vars ref;
  Some (<[Z.to_nat ref :=
            {| lifetime_start := lifetime_start var;
               lifetime_end := lifetime_end var;
               flags := Z.lor (flags var) VARIABLE_INFO_ETERNAL |}]> vars).

(** The treatment of one primary operand in the lifetime loop. *)
Definition visit_primary (a_infos : list OpcodeInfo) (vars : list VariableInfo)
    (operand : Operand) (reads : bool) (index : Z) : option (list VariableInfo) :=
  if operand_is_variable_address_load operand then
    mark_eternal vars (ref_id operand)
  else if operand_is_variable operand && reads then
    extend_variable a_infos vars (ref_id operand) index false
  else Some vars.

(** The body of the lifetime loop for the opcode at index [i]. *)
Definition visit_opcode (a_infos : list OpcodeInfo) (i : nat) (op : Opcode)
    (vars : list VariableInfo) : option (list VariableInfo) :=
  let index := to_int (Z.of_nat i) in
  let pure_assign := opcode_is_pure_assignment op in
  vars1 ← (if operand_is_variable (target op)
              && (pure_assign || opcode_modifies_target_operand op)
           then extend_variable a_infos vars (ref_id (target op)) index pure_assign
           else Some vars);
  vars2 ← visit_primary a_infos vars1 (primary_1 op)
             (opcode_read_operand_primary_1 op) index;
  visit_primary a_infos vars2 (primary_2 op)
    (opcode_read_operand_primary_2 op) index.

(** "Generate label data": the iterations [i = k - 1] down to [0]. *)
Fixpoint generate_label_data (ops : list Opcode) (k : nat)
    (a_infos : list OpcodeInfo) : option (list OpcodeInfo) :=
  match k with
  | O => Some a_infos
  | S i =>
      op ← ops !! i;
      a_infos' ←
        (if opcode_is_jump op then
           let lbl := ref_id (target op) in
           info ← at_index a_infos lbl;
           if jump_from info >=? 0 then Some a_infos
           else Some (<[Z.to_nat lbl :=
                          {| previous_label := previous_label info;
                             jump_from := Z.of_nat i |}]> a_infos)
         else Some a_infos);
      generate_label_data ops i a_infos'
  end.

(** "Build previous label list": [count] iterations starting at index [i]. *)
Fixpoint build_previous_labels (count i : nat) (prev : Z)
    (a_infos : list OpcodeInfo) : option (list OpcodeInfo) :=
  match count with
  | O => Some a_infos
  | S count' =>
      info ← a_infos !! i;
      let a_infos' := <[i := {| previous_label := prev;
                                jump_from := jump_from info |}]> a_infos in
      let prev' := if jump_from info >=? 0 then to_int (Z.of_nat i) else prev in
      build_previous_labels count' (S i) prev' a_infos'
  end.

(** "Calculate variable lifetimes": the iterations for the opcodes [ops]
    that start at index [i]. *)
Fixpoint calculate_lifetimes (a_infos : list OpcodeInfo) (ops : list Opcode)
    (i : nat) (vars : list VariableInfo) : option (list VariableInfo) :=
  match ops with
  | [] => Some vars
  | op :: rest =>
      vars' ← visit_opcode a_infos i op vars;
      calculate_lifetimes a_infos rest (S i) vars'
  end.

Definition initial_variable : VariableInfo :=
  {| lifetime_start := -1; lifetime_end := -1; flags := 0 |}.

(** [raw i] is the content [malloc] hands back for [a->infos[i]]: the
    function never initialises that array before reading [jump_from], so the
    content is an input of the model. *)
Definition analyse_function (fn : Function) (raw : nat → OpcodeInfo)
  : option FunctionAnalysis :=
  let a_infos := raw <$> seq 0 (opcodes_size fn) in
  let vars := replicate (variables_size fn) initial_variable in
  let last := to_int (to_size_t (Z.of_nat (opcodes_size fn) - 1)) in
  a_infos1 ← generate_label_data (opcodes fn) (Z.to_nat (last + 1)) a_infos;
  a_infos2 ← build_previous_labels (opcodes_size fn) 0 (-1) a_infos1;
  vars' ← calculate_lifetimes a_infos2 (opcodes fn) 0 vars;
  Some {| infos := a_infos2; variable_infos := vars' |}.

(** *** Vocabulary of the analysis properties *)

Definition in_range (r : Z) (n : nat) : bool := (0 <=? r) && (r <? Z.of_nat n).

(** A well-formed function: the opcode count fits the [int] counters of
    the analysis, jump targets are opcode indices, and operands used as
    variables refer to declared variables. *)
Definition well_formed (fn : Function) : bool :=
  (Z.of_nat (opcodes_size fn) <=? INT_MAX)
  && forallb (fun op =>
       (negb (opcode_is_jump op)
        || in_range (ref_id (target op)) (opcodes_size fn))
       && (negb (operand_is_variable (target op)
                 && (opcode_is_pure_assignment op
                     || opcode_modifies_target_operand op))
           || in_range (ref_id (target op)) (variables_size fn))
       && (negb (operand_is_variable (primary_1 op))
           || in_range (ref_id (primary_1 op)) (variables_size fn))
       && (negb (operand_is_variable (primary_2 op))
           || in_range (ref_id (primary_2 op)) (variables_size fn)))
     (opcodes fn).

(** The opcode at index [i] is a jump to the opcode at index [t]. *)
Definition jumps_to (ops : list Opcode) (i : nat) (t : Z) : Prop :=
  exists op, ops !! i = Some op /\ opcode_is_jump op = true
             /\ ref_id (target op) = t.

(** [j] is the highest index of a jump to [t], or -1 when there is none. *)
Definition latest_jump_to (ops : list Opcode) (t : Z) (j : Z) : Prop :=
  (j = -1 /\ forall i, ~ jumps_to ops i t)
  \/ (0 <= j /\ jumps_to ops (Z.to_nat j) t
      /\ forall i, (Z.to_nat j < i)%nat -> ~ jumps_to ops i t).

(** The lifetime loop extends variable [v] for the target of [op]. *)
Definition target_visit (op : Opcode) (v : nat) : Prop :=
  operand_is_variable (target op) = true
  /\ opcode_is_pure_assignment op || opcode_modifies_target_operand op = true
  /\ ref_id (target op) = Z.of_nat v.

(** [operand] is a primary operand that designates variable [v]. *)
Definition primary_visit (operand : Operand) (v : nat) : Prop :=
  operand_is_variable operand = true /\ ref_id operand = Z.of_nat v.

(** The lifetime loop touches the record of variable [v] at [op]. *)
Definition visits (op : Opcode) (v : nat) : Prop :=
  target_visit op v \/ primary_visit (primary_1 op) v
  \/ primary_visit (primary_2 op) v.

(** The record of [v] is touched at some opcode of index below [k]. *)
Definition visited (ops : list Opcode) (k : nat) (v : nat) : Prop :=
  exists i op, (i < k)%nat /\ ops !! i = Some op /\ visits op v.

Definition is_eternal (var : VariableInfo) : bool :=
  has_flag (flags var) VARIABLE_INFO_ETERNAL.

(** The memory handed to [a->infos] holds no [jump_from] at or beyond [n]. *)
Definition raw_in_range (raw : nat -> OpcodeInfo) (n : nat) : Prop :=
  forall i, (i < n)%nat -> jump_from (raw i) < Z.of_nat n.

(** The previous-label list is well built: each entry points below its own
    index, to -1 or an earlier index, and skips only entries that are not
    jump targets. *)
Definition label_chain (a_infos : list OpcodeInfo) : Prop :=
  forall (j : nat) info, a_infos !! j = Some info ->
    -1 <= previous_label info < Z.of_nat j
    /\ forall (k : nat) info_k,
         previous_label info < Z.of_nat k < Z.of_nat j ->
         a_infos !! k = Some info_k -> jump_from info_k < 0.

(** Every jump target strictly inside the lifetime of [var] has its
    recorded jump source inside the lifetime too. *)
Definition lifetime_closed (a_infos : list OpcodeInfo) (var : VariableInfo)
  : Prop :=
  forall (j : nat) info,
    lifetime_start var < Z.of_nat j < lifetime_end var ->
    a_infos !! j = Some info -> jump_from info < lifetime_end var.

(** The state of a variable record during the lifetime loop, [touched]
    telling whether the loop has touched the record so far: the record is
    eternal, or still untouched and blank, or touched with a lifetime that
    lies inside the function and is closed under jumps. *)
Definition lifetime_inv (a_infos : list OpcodeInfo) (touched : Prop)
    (var : VariableInfo) : Prop :=
  is_eternal var = true
  \/ (has_flag (flags var) VARIABLE_INFO_UNINITIALIZED = false
      /\ ((lifetime_start var = -1 /\ lifetime_end var = -1 /\ ~ touched)
          \/ (0 <= lifetime_start var < lifetime_end var
              /\ lifetime_end var <= Z.of_nat (length a_infos)
              /\ touched
              /\ lifetime_closed a_infos var))).

(** From [vars] to [vars'] the array keeps its length and every record
    that is eternal stays eternal. *)
Definition keeps_eternal (vars vars' : list VariableInfo) : Prop :=
  length vars' = length vars
  /\ forall (v : nat) var, vars !! v = Some var -> is_eternal var = true ->
       exists var', vars' !! v = Some var' /\ is_eternal var' = true.

(** [lifetime_inv] for every record of the array, [touched v] telling
    whether the loop has touched the record of variable [v]. *)
Definition records_inv (a_infos : list OpcodeInfo) (touched : nat -> Prop)
    (vars : list VariableInfo) : Prop :=
  forall (v : nat) var, vars !! v = Some var ->
    lifetime_inv a_infos (touched v) var.

(** What well-formedness says of one opcode, for [n] opcodes and [nvars]
    variables. *)
Definition opcode_in_range (n nvars : nat) (op : Opcode) : Prop :=
  (opcode_is_jump op = true -> 0 <= ref_id (target op) < Z.of_nat n)
  /\ (operand_is_variable (target op)
      && (opcode_is_pure_assignment op || opcode_modifies_target_operand op)
      = true -> 0 <= ref_id (target op) < Z.of_nat nvars)
  /\ (operand_is_variable (primary_1 op) = true ->
      0 <= ref_id (primary_1 op) < Z.of_nat nvars)
  /\ (operand_is_variable (primary_2 op) = true ->
      0 <= ref_id (primary_2 op) < Z.of_nat nvars).

(** *** Scenario functions *)

Definition no_type : TypeInfo := {| ti_type := 0; sub_type := 0; struct_size := 0 |}.

Definition imm (v : Z) : Operand :=
  {| ref_id := v; info_type := OPERAND_INFO_TYPE_IMMEDIATE; info_flags := 0;
     type_info := no_type |}.

Definition var_ (v : Z) : Operand :=
  {| ref_id := v; info_type := OPERAND_INFO_TYPE_VARIABLE; info_flags := 0;
     type_info := no_type |}.

Definition mk_function (ops : list Opcode) (nvars : nat) : Function :=
  {| fn_id := 0; arguments := []; return_type := no_type; opcodes := ops;
     variables := replicate nvars {| var_type_info := no_type |} |}.

(** The six-opcode loop: v0 counts up to 10 in steps of v1. *)
Definition counting_loop : Function :=
  mk_function
    [ {| type := OPCODE_COPY; target := var_ 0; primary_1 := imm 0; primary_2 := imm 0 |};
      {| type := OPCODE_COPY; target := var_ 1; primary_1 := imm 1; primary_2 := imm 0 |};
      {| type := OPCODE_ADD; target := var_ 0; primary_1 := var_ 0; primary_2 := var_ 1 |};
      {| type := OPCODE_GOTO_COND COMPARISON_EQUAL; target := imm 5;
         primary_1 := var_ 0; primary_2 := imm 10 |};
      {| type := OPCODE_GOTO_BASE; target := imm 2; primary_1 := imm 0; primary_2 := imm 0 |};
      {| type := OPCODE_RETURN; target := imm 0; primary_1 := var_ 0; primary_2 := imm 0 |} ]
    2.


(** A backward jump:  0: NOP;  1: GOTO 0. *)
Definition backward_jump : Function :=
  mk_function
    [ {| type := OPCODE_NOP; target := imm 0; primary_1 := imm 0; primary_2 := imm 0 |};
      {| type := OPCODE_GOTO_BASE; target := imm 0; primary_1 := imm 0; primary_2 := imm 0 |} ]
    0.

(** A variable assigned before and inside a loop that jumps backward;
    a second variable is declared and never used:
    0: COPY v0, 0;  1: NOP;  2: COPY v0, 1;  3: GOTO 1. *)
Definition backward_loop : Function :=
  mk_function
    [ {| type := OPCODE_COPY; target := var_ 0; primary_1 := imm 0; primary_2 := imm 0 |};
      {| type := OPCODE_NOP; target := imm 0; primary_1 := imm 0; primary_2 := imm 0 |};
      {| type := OPCODE_COPY; target := var_ 0; primary_1 := imm 1; primary_2 := imm 0 |};
      {| type := OPCODE_GOTO_BASE; target := imm 1; primary_1 := imm 0; primary_2 := imm 0 |} ]
    2.

(** Memory that holds -1 in every [int], and memory that holds zeros. *)
Definition raw_minus_one : nat → OpcodeInfo :=
  λ _, {| previous_label := -1; jump_from := -1 |}.
Definition raw_zero : nat → OpcodeInfo :=
  λ _, {| previous_label := 0; jump_from := 0 |}.

(** *** Vocabulary of the further properties *)

(** The flag words the analysis can produce. *)
Definition reachable_flags (fl : Z) : Prop :=
  fl = 0
  \/ fl = VARIABLE_INFO_UNUSED
  \/ fl = VARIABLE_INFO_ETERNAL
  \/ fl = Z.lor VARIABLE_INFO_UNUSED VARIABLE_INFO_ETERNAL
  \/ fl = Z.lor VARIABLE_INFO_ETERNAL VARIABLE_INFO_UNINITIALIZED
  \/ fl = Z.lor VARIABLE_INFO_UNUSED
            (Z.lor VARIABLE_INFO_ETERNAL VARIABLE_INFO_UNINITIALIZED).

(** The opcode types whose target operand the lifetime loop extends:
    NOP + 1 .. the shifts, the COMPARE band, and CALL. *)
Definition writes_target (ty : Z) : Prop :=
  1 <= ty <= 15
  \/ OPCODE_COMPARE_BASE <= ty < OPCODE_COMPARE_BASE + 8
  \/ ty = OPCODE_CALL.

(** The opcodes touching variable [v] below index [k] all lie within
    [lifetime_start, lifetime_end], bounds included, and the lifetime
    starts at a pure assignment to [v]. *)
Definition covers (ops : list Opcode) (k v : nat) (var : VariableInfo) : Prop :=
  (forall (i : nat) op, (i < k)%nat -> ops !! i = Some op -> visits op v ->
     lifetime_start var <= Z.of_nat i <= lifetime_end var)
  /\ (lifetime_start var = -1
      \/ exists op, 0 <= lifetime_start var < Z.of_nat k
                    /\ ops !! Z.to_nat (lifetime_start var) = Some op
                    /\ target_visit op v
                    /\ opcode_is_pure_assignment op = true).

(** A function with no opcode at all. *)
Definition empty_function (nvars : nat) : Function := mk_function [] nvars.

End IR.

(** ** Dynamic array macros *)

Module DynArray.

Section Macros.

Context {A : Type}.

(** Whether [realloc] grants a request of that many bytes; the macros use
    its result unchecked. *)
Variable alloc_ok : Z -> bool.

(** [sizeof *array]. *)
Variable elem_size : Z.

(** The three lvalues the macros work on.  [array] is the block behind the
    pointer, one entry for each element it has room for; a null pointer has
    none.  An element that [realloc] added and nothing wrote yet has no
    determinate value ([None]).  [size] and [capacity] are [size_t]. *)
Record dynamic_array := {
  array : list (option A);
  size : Z;
  capacity : Z
}.

(** [memset(&arr, 0, sizeof arr)]. *)
Definition dynamic_array_zero : dynamic_array :=
  {| array := []; size := 0; capacity := 0 |}.

(** [realloc(array, n * sizeof *array)]: the product is computed in
    [size_t]; a granted block keeps the old elements up to the smaller of
    the two sizes, a refused request yields the null pointer. *)
Definition realloc (cells : list (option A)) (n : Z) : list (option A) :=
  let bytes := to_size_t (n * elem_size) in
  if alloc_ok bytes then resize (Z.to_nat (bytes / elem_size)) None cells
  else [].

Definition DYNAMIC_ARRAY_RESERVE (d : dynamic_array) (amount : Z)
  : dynamic_array :=
  let amount := to_size_t amount in
  if amount >=? capacity d then
    {| array := realloc (array d) amount; size := size d; capacity := amount |}
  else d.

Definition DYNAMIC_ARRAY_RESIZE (d : dynamic_array) (newsize : Z)
  : dynamic_array :=
  let d' := DYNAMIC_ARRAY_RESERVE d newsize in
  {| array := array d'; size := to_size_t newsize; capacity := capacity d' |}.

(** The store [array[size - 1] = item] is defined inside the block only. *)
Definition DYNAMIC_ARRAY_PUSH (d : dynamic_array) (item : A)
    (capacity_increment : Z) : option dynamic_array :=
  let d1 :=
    if size d >=? capacity d then
      let c := to_size_t (capacity d + capacity_increment) in
      {| array := realloc (array d) c; size := size d; capacity := c |}
    else d in
  let size' := to_size_t (size d1 + 1) in
  let i := to_size_t (size' - 1) in
  if i <? Z.of_nat (length (array d1)) then
    Some {| array := <[Z.to_nat i := Some item]> (array d1);
            size := size';
            capacity := capacity d1 |}
  else None.

Definition DYNAMIC_ARRAY_FREE (d : dynamic_array) : dynamic_array :=
  {| array := []; size := 0; capacity := 0 |}.

(** [DYNAMIC_ARRAY_PUSH] for each item of [items] in turn. *)
Fixpoint push_all (d : dynamic_array) (items : list A) (capacity_increment : Z)
  : option dynamic_array :=
  match items with
  | [] => Some d
  | item :: rest =>
      d' ← DYNAMIC_ARRAY_PUSH d item capacity_increment;
      push_all d' rest capacity_increment
  end.

(** The elements [array[0 .. size - 1]]. *)
Definition elements (d : dynamic_array) : list (option A) :=
  take (Z.to_nat (size d)) (array d).

(** The block has room for [capacity] elements, [size] of them in use, and
    the byte count of the block fits [size_t]. *)
Definition consistent (d : dynamic_array) : Prop :=
  length (array d) = Z.to_nat (capacity d)
  /\ 0 <= size d <= capacity d
  /\ capacity d * elem_size < 2 ^ 64.

End Macros.

Arguments dynamic_array : clear implicits.

End DynArray.

(** * Properties *)

Section IntegerFacts.

Lemma to_int_small x : INT_MIN <= x <= INT_MAX -> to_int x = x.
Proof.
  unfold to_int, to_signed, INT_MIN, INT_MAX. intros H.
  rewrite Z.mod_small; lia.
Qed.

Lemma to_int_range x : INT_MIN <= to_int x <= INT_MAX.
Proof.
  unfold to_int, to_signed, INT_MIN, INT_MAX.
  pose proof (Z.mod_pos_bound (x + 2 ^ (32 - 1)) (2 ^ 32) ltac:(lia)). lia.
Qed.

Lemma to_size_t_small x : 0 <= x < 2 ^ 64 -> to_size_t x = x.
Proof. intros H. unfold to_size_t, to_unsigned. apply Z.mod_small. lia. Qed.

Lemma to_byte_small x : 0 <= x < 256 -> to_byte x = x.
Proof. intros H. unfold to_byte, to_unsigned. apply Z.mod_small. lia. Qed.

Lemma to_int_congr x y k : x = y + k * 2 ^ 32 -> to_int x = to_int y.
Proof.
  intros ->. unfold to_int, to_signed.
  replace (y + k * 2 ^ 32 + 2 ^ (32 - 1)) with (y + 2 ^ (32 - 1) + k * 2 ^ 32) by lia.
  now rewrite Z_mod_plus_full.
Qed.

Lemma to_intptr_shift x : exists k, to_intptr x = x + k * 2 ^ 32.
Proof.
  unfold to_intptr, to_signed.
  exists (- ((x + 2 ^ (64 - 1)) / 2 ^ 64) * 2 ^ 32).
  pose proof (Z.div_mod (x + 2 ^ (64 - 1)) (2 ^ 64) ltac:(lia)). lia.
Qed.

Lemma to_size_t_shift x : exists k, to_size_t x = x + k * 2 ^ 32.
Proof.
  unfold to_size_t, to_unsigned.
  exists (- (x / 2 ^ 64) * 2 ^ 32).
  pose proof (Z.div_mod x (2 ^ 64) ltac:(lia)). lia.
Qed.

(** The displacement the link step computes is the plain difference
    narrowed to 32 bits. *)
Lemma displacement_narrowing l off :
  to_int (to_intptr (to_intptr l - to_intptr (to_size_t (off + 4))))
  = to_int (l - (off + 4)).
Proof.
  destruct (to_intptr_shift (to_intptr l - to_intptr (to_size_t (off + 4)))) as [k1 ->].
  destruct (to_intptr_shift l) as [k2 ->].
  destruct (to_intptr_shift (to_size_t (off + 4))) as [k3 ->].
  destruct (to_size_t_shift (off + 4)) as [k4 ->].
  apply (to_int_congr _ _ (k1 + k2 - k3 - k4)). lia.
Qed.

Lemma le_bytes_length n x : length (le_bytes n x) = n.
Proof. revert x. induction n as [|n IH]; intros x; simpl; [done|]. by rewrite IH. Qed.

Lemma le_value_le_bytes n x : le_value (le_bytes n x) = x mod 256 ^ Z.of_nat n.
Proof.
  revert x. induction n as [|n IH]; intros x.
  - simpl. by rewrite Z.mod_1_r.
  - cbn [le_bytes le_value]. rewrite IH.
    rewrite Nat2Z.inj_succ, Z.pow_succ_r by lia.
    rewrite Z.rem_mul_r by lia. done.
Qed.

Lemma int32_store_load x :
  to_signed 32 (le_value (le_bytes 4 (to_int x))) = to_int x.
Proof.
  rewrite le_value_le_bytes.
  change (256 ^ Z.of_nat 4) with (2 ^ 32).
  transitivity (to_int (to_int x)).
  - apply (to_int_congr _ _ (- (to_int x / 2 ^ 32))).
    pose proof (Z.div_mod (to_int x) (2 ^ 32) ltac:(lia)). lia.
  - apply to_int_small, to_int_range.
Qed.

End IntegerFacts.

Section MemoryFacts.

Lemma store_length buf off bs buf' :
  store buf off bs = Some buf' -> length buf' = length buf.
Proof.
  unfold store. case_match; [|done]. intros [= <-].
  rewrite !length_app, length_take, length_drop. lia.
Qed.

Lemma store_defined buf off bs :
  0 <= off -> off + Z.of_nat (length bs) <= Z.of_nat (length buf) ->
  is_Some (store buf off bs).
Proof.
  intros H1 H2. unfold store.
  destruct (0 <=? off) eqn:E1; [|lia].
  destruct (off + Z.of_nat (length bs) <=? Z.of_nat (length buf)) eqn:E2; [|lia].
  simpl. eauto.
Qed.

Lemma store_inv buf off bs buf' :
  store buf off bs = Some buf' ->
  0 <= off /\ off + Z.of_nat (length bs) <= Z.of_nat (length buf).
Proof. unfold store. case_match; [|done]. intros _. lia. Qed.

Lemma store_lookup_out buf off bs buf' (i : nat) :
  store buf off bs = Some buf' ->
  (Z.of_nat i < off \/ off + Z.of_nat (length bs) <= Z.of_nat i) ->
  buf' !! i = buf !! i.
Proof.
  intros Hs Hi. pose proof (store_inv _ _ _ _ Hs) as [H0 H1].
  unfold store in Hs. case_match; [|done]. injection Hs as <-.
  destruct Hi as [Hi|Hi].
  - rewrite lookup_app_l by (rewrite length_take; lia).
    apply lookup_take_lt. lia.
  - rewrite lookup_app_r by (rewrite length_take; lia).
    rewrite lookup_app_r by (rewrite length_take; lia).
    rewrite lookup_drop, length_take. f_equal. lia.
Qed.

Lemma load_store_same buf off bs buf' :
  store buf off bs = Some buf' -> load buf' off (length bs) = Some bs.
Proof.
  intros Hs. pose proof (store_inv _ _ _ _ Hs) as [H0 H1].
  pose proof (store_length _ _ _ _ Hs) as Hl.
  unfold load. rewrite Hl.
  destruct (0 <=? off) eqn:E1; [|lia].
  destruct (off + Z.of_nat (length bs) <=? Z.of_nat (length buf)) eqn:E2; [|lia].
  simpl. f_equal.
  unfold store in Hs. rewrite E1, E2 in Hs. simpl in Hs. injection Hs as <-.
  rewrite drop_app_length' by (rewrite length_take; lia).
  by rewrite take_app_length.
Qed.

Lemma load_ext buf buf' off n :
  length buf' = length buf ->
  (forall i : nat, off <= Z.of_nat i < off + Z.of_nat n -> buf' !! i = buf !! i) ->
  load buf' off n = load buf off n.
Proof.
  intros Hl Hi. unfold load. rewrite Hl. case_match; [|done].
  f_equal. apply list_eq. intros j.
  destruct (decide (j < n)%nat) as [Hj|Hj].
  - rewrite !lookup_take_lt, !lookup_drop by done. apply Hi. lia.
  - rewrite !lookup_take_ge by lia. done.
Qed.

End MemoryFacts.

Import X86.

Section EmitterBytes.

Lemma land_pow2_testbit x n :
  0 <= n -> Z.land x (2 ^ n) = if Z.testbit x n then 2 ^ n else 0.
Proof.
  intros Hn. apply Z.bits_inj'. intros m Hm.
  rewrite Z.land_spec, Z.pow2_bits_eqb by lia.
  destruct (Z.eqb_spec n m) as [<-|Hne].
  - rewrite andb_true_r. destruct (Z.testbit x n) eqn:E.
    + by rewrite Z.pow2_bits_true by lia.
    + by rewrite Z.bits_0.
  - rewrite andb_false_r. destruct (Z.testbit x n).
    + by rewrite Z.pow2_bits_false by lia.
    + by rewrite Z.bits_0.
Qed.

Lemma land_8_testbit x : Z.land x 0x08 = if Z.testbit x 3 then 8 else 0.
Proof. apply (land_pow2_testbit x 3). lia. Qed.

Lemma truthy_land_8 x : truthy (Z.land x 0x08) = Z.testbit x 3.
Proof. rewrite land_8_testbit. by destruct (Z.testbit x 3). Qed.

Lemma land_7_mod x : Z.land x 0x07 = x mod 8.
Proof. change 7 with (Z.ones 3). by rewrite Z.land_ones by lia. Qed.

Lemma rex_field_byte rm_ reg_ wide :
  to_byte (X86_REX_FIELD (Z.land rm_ 0x08) 0 (Z.land reg_ 0x08) wide)
  = rex_byte (truthy wide) (Z.testbit reg_ 3) false (Z.testbit rm_ 3).
Proof.
  unfold X86_REX_FIELD. rewrite !truthy_land_8.
  by destruct (truthy wide), (Z.testbit reg_ 3), (Z.testbit rm_ 3).
Qed.

Lemma modrm_field_byte rm_ reg_ :
  x86_modrm_byte {| rm := Z.land rm_ 0x07; reg := Z.land reg_ 0x07; mod_ := 0x03 |}
  = modrm_byte 3 (reg_ mod 8) (rm_ mod 8).
Proof.
  unfold x86_modrm_byte, modrm_byte. cbn [rm reg mod_].
  rewrite !land_7_mod, !Z.mod_mod by lia.
  pose proof (Z.mod_pos_bound rm_ 8 ltac:(lia)) as Ha.
  pose proof (Z.mod_pos_bound reg_ 8 ltac:(lia)) as Hb.
  generalize dependent (rm_ mod 8). generalize dependent (reg_ mod 8).
  intros b Hb a Ha.
  assert (Hcases : forall v, 0 <= v < 8 ->
            v = 0 \/ v = 1 \/ v = 2 \/ v = 3 \/ v = 4 \/ v = 5 \/ v = 6 \/ v = 7)
    by (intros; lia).
  destruct (Hcases a Ha) as [->|[->|[->|[->|[->|[->|[->| ->]]]]]]];
  destruct (Hcases b Hb) as [->|[->|[->|[->|[->|[->|[->| ->]]]]]]];
  reflexivity.
Qed.

Lemma prepare_modrm_rex_bytes opcode rm_ reg_ wide :
  _x86_encoder_prepare_modrm_rex opcode rm_ reg_ wide
  = [ rex_byte (truthy wide) (Z.testbit reg_ 3) false (Z.testbit rm_ 3);
      opcode mod 256;
      modrm_byte 3 (reg_ mod 8) (rm_ mod 8) ].
Proof.
  unfold _x86_encoder_prepare_modrm_rex.
  by rewrite rex_field_byte, modrm_field_byte.
Qed.

End EmitterBytes.

(** Boolean comparisons in hypotheses, turned into propositions. *)
Ltac zbool :=
  repeat match goal with
  | H : (_ && _) = true |- _ => apply andb_true_iff in H; destruct H
  | H : (_ || _) = false |- _ => apply orb_false_iff in H; destruct H
  | H : negb _ = true |- _ => apply negb_true_iff in H
  | H : negb _ = false |- _ => apply negb_false_iff in H
  | H : (_ <=? _) = true |- _ => apply Z.leb_le in H
  | H : (_ <=? _) = false |- _ => apply Z.leb_gt in H
  | H : (_ <? _) = true |- _ => apply Z.ltb_lt in H
  | H : (_ <? _) = false |- _ => apply Z.ltb_ge in H
  | H : (_ >=? _) = _ |- _ => rewrite Z.geb_leb in H
  | H : (_ >? _) = _ |- _ => rewrite Z.gtb_ltb in H
  | H : (_ =? _) = true |- _ => apply Z.eqb_eq in H
  | H : (_ =? _) = false |- _ => apply Z.eqb_neq in H
  end.

Section Emitters.

Lemma appends_advance enc bs : appends enc (ENC_ADVANCE enc bs) bs.
Proof. by unfold appends. Qed.

(** C5. Every register-register ModR/M emitter appends: for the 16-bit width
    only, the prefix 0x66; then the REX byte 0100_WRXB with W set exactly for
    the 64-bit width, R the bit 3 of the reg register, X clear and B the bit 3
    of the rm register, even when all four are clear; then the opcode byte,
    one less for the 8-bit width; then the ModR/M byte with mod = 3 and the
    low three bits of the reg and rm registers.  The general emitter, the
    compare emitter and the indirect jump emitter follow the same layout. *)
Theorem modrm_emitters_layout (enc : x86_encoder) (opcode rm_ reg_ : Z) :
  let rex w := rex_byte w (Z.testbit reg_ 3) false (Z.testbit rm_ 3) in
  let modrm := modrm_byte 3 (reg_ mod 8) (rm_ mod 8) in
  appends enc (x86_encoder_write_modrm enc opcode rm_ reg_)
    [rex true; opcode mod 256; modrm]
  /\ appends enc (x86_encoder_write_modrm_32 enc opcode rm_ reg_)
    [rex false; opcode mod 256; modrm]
  /\ appends enc (x86_encoder_write_modrm_16 enc opcode rm_ reg_)
    [0x66; rex false; opcode mod 256; modrm]
  /\ appends enc (x86_encoder_write_modrm_8 enc opcode rm_ reg_)
    [rex false; (opcode - 1) mod 256; modrm]
  /\ (forall wide, appends enc (x86_encoder_write_modrm_rex enc opcode rm_ reg_ wide)
    [rex (negb (wide =? 0)); opcode mod 256; modrm])
  /\ appends enc (x86_encoder_write_cmp_reg enc rm_ reg_)
    [rex true; 0x39; modrm]
  /\ (forall call, appends enc (x86_encoder_write_jmp_reg enc call rm_)
    [rex_byte true false false (Z.testbit rm_ 3); 0xFF;
     modrm_byte 3 (if call =? 0 then 4 else 2) (rm_ mod 8)]).
Proof.
  cbn zeta.
  unfold x86_encoder_write_modrm, x86_encoder_write_modrm_32,
    x86_encoder_write_modrm_16, x86_encoder_write_modrm_8,
    x86_encoder_write_cmp_reg, x86_encoder_write_jmp_reg,
    x86_encoder_write_modrm_rex.
  repeat split; intros;
    rewrite ?prepare_modrm_rex_bytes; cbn [ENC_ADVANCE buffer labels relocations];
    rewrite <- ?app_assoc; try reflexivity.
  unfold truthy. by destruct (call =? 0).
Qed.

Lemma load_app_tail (l z : list Z) :
  load (l ++ z) (Z.of_nat (length l)) (length z) = Some z.
Proof.
  unfold load. rewrite length_app, Nat2Z.inj_add.
  destruct (0 <=? Z.of_nat (length l)) eqn:E1; [|zbool; lia].
  destruct (Z.of_nat (length l) + Z.of_nat (length z)
            <=? Z.of_nat (length l) + Z.of_nat (length z)) eqn:E2; [|zbool; lia].
  simpl. f_equal. rewrite Nat2Z.id, drop_app_length.
  apply take_ge. lia.
Qed.

Lemma load_placeholder (l op z : list Z) :
  load (l ++ op ++ z) (Z.of_nat (length l) + Z.of_nat (length op)) (length z)
  = Some z.
Proof.
  rewrite app_assoc, <- Nat2Z.inj_add, <- length_app. apply load_app_tail.
Qed.

Lemma write_jmp_appends enc call lbl :
  appends_jump enc (x86_encoder_write_jmp enc call lbl)
    [if call =? 0 then 0xE9 else 0xE8] (to_int lbl).
Proof.
  unfold appends_jump, x86_encoder_write_jmp, x86_encoder_add_relocation,
    ENC_ADVANCE, buffer_size.
  cbn [buffer labels relocations].
  change (le_bytes 4 0) with [0; 0; 0; 0].
  assert (Hop : to_byte (if truthy call then X86_CALL_REL32 else X86_JMP_REL32)
                = if call =? 0 then 0xE9 else 0xE8)
    by (unfold truthy; by destruct (call =? 0)).
  rewrite Hop, <- !app_assoc, length_app, Nat2Z.inj_add.
  repeat split. apply (load_placeholder _ [_] [0; 0; 0; 0]).
Qed.

Lemma write_jmp_cond_appends enc cond lbl :
  appends_jump enc (x86_encoder_write_jmp_cond enc cond lbl)
    [0x0F; (0x80 + cond) mod 256] (to_int lbl).
Proof.
  unfold appends_jump, x86_encoder_write_jmp_cond, x86_encoder_add_relocation,
    ENC_ADVANCE, buffer_size.
  cbn [buffer labels relocations].
  change (le_bytes 4 0) with [0; 0; 0; 0].
  rewrite <- !app_assoc, length_app, Nat2Z.inj_add.
  repeat split. apply (load_placeholder _ [_; _] [0; 0; 0; 0]).
Qed.

(** C6. For a label id that an [int] holds and a condition code of the
    instruction set, the jump emitter appends 0xE8 for a call and 0xE9
    otherwise, the conditional jump emitter appends 0x0F and 0x80 + cond;
    each then appends four zero bytes and records one relocation: its offset
    is the position of the four bytes, its label the given id, and it is
    relative. *)
Theorem jump_emitters_layout (enc : x86_encoder) (call cond lbl : Z) :
  0 <= lbl <= INT_MAX ->
  0 <= cond <= 127 ->
  appends_jump enc (x86_encoder_write_jmp enc call lbl)
    [if call =? 0 then 0xE9 else 0xE8] lbl
  /\ appends_jump enc (x86_encoder_write_jmp_cond enc cond lbl)
    [0x0F; 0x80 + cond] lbl.
Proof.
  intros Hl Hc. split.
  - pose proof (write_jmp_appends enc call lbl) as H.
    rewrite to_int_small in H; [done|]. unfold INT_MIN, INT_MAX in *. lia.
  - pose proof (write_jmp_cond_appends enc cond lbl) as H.
    rewrite to_int_small in H by (unfold INT_MIN, INT_MAX in *; lia).
    rewrite Z.mod_small in H by lia. done.
Qed.

Lemma jump_emitters_layout_witness :
  appends_jump x86_encoder_zero (x86_encoder_write_jmp x86_encoder_zero 1 3)
    [0xE8] 3
  /\ appends_jump x86_encoder_zero
       (x86_encoder_write_jmp_cond x86_encoder_zero 14 3) [0x0F; 0x8E] 3.
Proof.
  apply (jump_emitters_layout x86_encoder_zero 1 14 3); unfold INT_MAX; lia.
Defined.

End Emitters.

Section CallSequences.

(** What any emitter does to the three tables: bytes are added at the end
    of the buffer, labels are kept, and at most one relative relocation is
    recorded, for four of the added bytes. *)
Lemma emit_shape enc e :
  exists bs rs,
    buffer (emit enc e) = buffer enc ++ bs
    /\ labels (emit enc e) = labels enc
    /\ relocations (emit enc e) = relocations enc ++ rs
    /\ (rs = [] \/
        exists r, rs = [r] /\ relative r = 1
                  /\ buffer_size enc <= offset r
                  /\ offset r + 4 <= buffer_size enc + Z.of_nat (length bs)).
Proof.
  destruct e as [o r1 r2 w|c l|c l|c r|r1 r2|o r1 r2|o r1 r2|o r1 r2|o r1 r2
                |r v|r v|r v|r v|r|r| |]; cbn [emit].
  2:{ destruct (write_jmp_appends enc c l) as (Hb & Hl & Hr & _).
      eexists _, _. split; [exact Hb|]. split; [exact Hl|]. split; [exact Hr|].
      right. eexists. split; [reflexivity|]. cbn. lia. }
  2:{ destruct (write_jmp_cond_appends enc c l) as (Hb & Hl & Hr & _).
      eexists _, _. split; [exact Hb|]. split; [exact Hl|]. split; [exact Hr|].
      right. eexists. split; [reflexivity|]. cbn. lia. }
  all: unfold x86_encoder_write_jmp_reg, x86_encoder_write_cmp_reg,
         x86_encoder_write_modrm, x86_encoder_write_modrm_32,
         x86_encoder_write_modrm_16, x86_encoder_write_modrm_8,
         x86_encoder_write_modrm_rex, x86_encoder_write_mov_imm_64,
         x86_encoder_write_mov_imm_32, x86_encoder_write_mov_imm_16,
         x86_encoder_write_mov_imm_8, x86_encoder_write_push,
         x86_encoder_write_pop, x86_encoder_write_ret, x86_encoder_write_nop,
         ENC_ADVANCE; cbn [buffer labels relocations];
       rewrite <- ?app_assoc;
       eexists _, [];
       (split; [reflexivity|]); (split; [reflexivity|]);
       (split; [by rewrite app_nil_r | by left]).
Qed.

Lemma move_label_inv enc lbl enc' :
  x86_encoder_move_label enc lbl = Some enc' ->
  0 <= lbl < labels_room enc
  /\ buffer enc' = buffer enc
  /\ labels enc' = <[Z.to_nat lbl := buffer_size enc]> (labels enc)
  /\ relocations enc' = relocations enc
  /\ labels_block enc' = <[Z.to_nat lbl := Some (buffer_size enc)]> (labels_block enc)
  /\ length (labels_spare enc') = length (labels_spare enc)
  /\ (labels_spare enc' = labels_spare enc
      \/ labels_spare enc'
         = <[Z.to_nat (lbl - labels_size enc) := Some (buffer_size enc)]>
             (labels_spare enc)).
Proof.
  unfold x86_encoder_move_label, labels_room, labels_block, labels_size.
  destruct ((0 <=? lbl) && (lbl <? Z.of_nat (length (labels enc)))) eqn:E.
  - intros [= <-]. zbool. cbn [buffer labels labels_spare relocations].
    split; [lia|]. split; [done|]. split; [done|]. split; [done|].
    split; [|split; [done|by left]].
    rewrite insert_app_l by (rewrite length_fmap; lia).
    by rewrite list_fmap_insert.
  - destruct ((Z.of_nat (length (labels enc)) <=? lbl) && _) eqn:E2; [|done].
    intros [= <-]. zbool. cbn [buffer labels labels_spare relocations].
    split; [lia|]. split; [done|].
    split; [by rewrite list_insert_ge by lia|]. split; [done|].
    split; [|split; [by rewrite length_insert|by right]].
    rewrite insert_app_r_alt by (rewrite length_fmap; lia).
    rewrite length_fmap. do 2 f_equal. lia.
Qed.

Lemma emit_spare enc e : labels_spare (emit enc e) = labels_spare enc.
Proof. by destruct e. Qed.

Lemma step_shape enc c enc' ids :
  step enc c = Some (enc', ids) ->
  exists bs rs,
    buffer enc' = buffer enc ++ bs
    /\ relocations enc' = relocations enc ++ rs
    /\ (rs = [] \/
        exists r, rs = [r] /\ relative r = 1
                  /\ buffer_size enc <= offset r
                  /\ offset r + 4 <= buffer_size enc + Z.of_nat (length bs)).
Proof.
  destruct c as [|l|e]; cbn [step].
  - intros [= <- <-]. exists [], []. cbn. rewrite !app_nil_r. auto.
  - destruct (x86_encoder_move_label enc l) as [enc1|] eqn:E; [|done].
    cbn. intros [= <- <-]. apply move_label_inv in E as (_ & -> & _ & -> & _).
    exists [], []. rewrite !app_nil_r. auto.
  - intros [= <- <-]. destruct (emit_shape enc e) as (bs & rs & ? & ? & ? & ?).
    eauto.
Qed.

Lemma run_cons c cs enc enc' ids :
  run (c :: cs) enc = Some (enc', ids) ->
  exists enc1 ids1 ids2,
    step enc c = Some (enc1, ids1) /\ run cs enc1 = Some (enc', ids2)
    /\ ids = ids1 ++ ids2.
Proof.
  cbn [run]. destruct (step enc c) as [[enc1 ids1]|] eqn:E1; [|done]. cbn.
  destruct (run cs enc1) as [[enc2 ids2]|] eqn:E2; [|done]. cbn.
  intros [= <- <-]. by exists enc1, ids1, ids2.
Qed.

Lemma run_app cs1 cs2 enc enc' ids :
  run (cs1 ++ cs2) enc = Some (enc', ids) ->
  exists enc1 ids1 ids2,
    run cs1 enc = Some (enc1, ids1) /\ run cs2 enc1 = Some (enc', ids2)
    /\ ids = ids1 ++ ids2.
Proof.
  revert enc ids. induction cs1 as [|c cs1 IH]; intros enc ids H.
  - exists enc, [], ids. auto.
  - rewrite <- app_comm_cons in H.
    apply run_cons in H as (e1 & i1 & i2 & Hs & Hr & ->).
    apply IH in Hr as (e2 & j1 & j2 & Hr1 & Hr2 & ->).
    exists e2, (i1 ++ j1), j2. cbn [run]. rewrite Hs. cbn. rewrite Hr1. cbn.
    split; [done|]. split; [done|]. by rewrite app_assoc.
Qed.

(** The buffer and the relocation table only grow along a call sequence. *)
Lemma run_grows cs enc enc' ids :
  run cs enc = Some (enc', ids) ->
  exists bs rs, buffer enc' = buffer enc ++ bs
                /\ relocations enc' = relocations enc ++ rs.
Proof.
  revert enc ids. induction cs as [|c cs IH]; intros enc ids H.
  - injection H as <- <-. exists [], []. by rewrite !app_nil_r.
  - apply run_cons in H as (e1 & i1 & i2 & Hs & Hr & ->).
    apply step_shape in Hs as (bs1 & rs1 & Hb1 & Hr1 & _).
    apply IH in Hr as (bs2 & rs2 & Hb2 & Hr2).
    exists (bs1 ++ bs2), (rs1 ++ rs2).
    rewrite Hb2, Hb1, Hr2, Hr1, !app_assoc. done.
Qed.

Lemma step_labels enc c enc' ids :
  step enc c = Some (enc', ids) ->
  Forall (fun off => 0 <= off <= buffer_size enc) (labels enc) ->
  Forall (fun off => 0 <= off <= buffer_size enc') (labels enc')
  /\ ids = Z.of_nat <$> seq (length (labels enc)) (length ids)
  /\ length (labels enc') = (length (labels enc) + length ids)%nat.
Proof.
  intros Hs Hinv.
  destruct (step_shape _ _ _ _ Hs) as (bs & _ & Hb & _).
  assert (Hle : buffer_size enc <= buffer_size enc').
  { unfold buffer_size. rewrite Hb, length_app. lia. }
  assert (Hmono : Forall (fun off => 0 <= off <= buffer_size enc') (labels enc)).
  { eapply Forall_impl; [|exact Hinv]. cbn. intros. lia. }
  destruct c as [|l|e]; cbn [step] in Hs.
  - injection Hs as <- <-. cbn [labels length seq fmap list_fmap].
    rewrite length_app. cbn. split; [|split; [done|lia]].
    apply Forall_app. split; [exact Hmono|].
    constructor; [|constructor]. unfold buffer_size in *. cbn in *. lia.
  - destruct (x86_encoder_move_label enc l) as [enc1|] eqn:E; [|done].
    cbn in Hs. injection Hs as <- <-.
    apply move_label_inv in E as (Hl & Hbuf & Hlab & _).
    rewrite Hlab, length_insert. cbn. split; [|split; [done|lia]].
    apply Forall_insert; [exact Hmono|]. unfold buffer_size in *. lia.
  - injection Hs as <- <-. destruct (emit_shape enc e) as (? & ? & _ & -> & _).
    cbn. split; [done|]. split; [done|lia].
Qed.

Lemma run_labels cs enc enc' ids :
  run cs enc = Some (enc', ids) ->
  Forall (fun off => 0 <= off <= buffer_size enc) (labels enc) ->
  Forall (fun off => 0 <= off <= buffer_size enc') (labels enc')
  /\ ids = Z.of_nat <$> seq (length (labels enc)) (length ids)
  /\ length (labels enc') = (length (labels enc) + length ids)%nat.
Proof.
  revert enc ids. induction cs as [|c cs IH]; intros enc ids H Hinv.
  - injection H as <- <-. cbn. split; [done|]. split; [done|lia].
  - apply run_cons in H as (e1 & i1 & i2 & Hs & Hr & ->).
    destruct (step_labels _ _ _ _ Hs Hinv) as (Hinv1 & Hi1 & Hl1).
    destruct (IH _ _ Hr Hinv1) as (Hinv2 & Hi2 & Hl2).
    split; [done|]. rewrite length_app, seq_app, fmap_app, <- Hi1.
    rewrite <- Hl1, <- Hi2. split; [done|lia].
Qed.

(** The spare entries of the label block hold offsets within the buffer,
    and the block grows by 1024 entries at a time, only when it is full. *)
Lemma step_block enc c enc' ids :
  step enc c = Some (enc', ids) ->
  Forall (fun entry => forall off, entry = Some off ->
                                   0 <= off <= buffer_size enc)
    (labels_spare enc) ->
  labels_room enc mod 1024 = 0
  /\ labels_size enc <= labels_room enc < labels_size enc + 1024 ->
  Forall (fun entry => forall off, entry = Some off ->
                                   0 <= off <= buffer_size enc')
    (labels_spare enc')
  /\ labels_room enc' mod 1024 = 0
  /\ labels_size enc' <= labels_room enc' < labels_size enc' + 1024.
Proof.
  intros Hs Hsp Hroom.
  destruct (step_shape _ _ _ _ Hs) as (bs & _ & Hb & _).
  assert (Hle : buffer_size enc <= buffer_size enc').
  { unfold buffer_size. rewrite Hb, length_app. lia. }
  assert (Hmono : Forall (fun entry => forall off, entry = Some off ->
                                          0 <= off <= buffer_size enc')
                    (labels_spare enc)).
  { eapply Forall_impl; [|exact Hsp]. cbn. intros entry H off Hoff.
    specialize (H off Hoff). lia. }
  destruct c as [|l|e]; cbn [step] in Hs.
  - unfold x86_encoder_add_label in Hs. injection Hs as <- <-.
    unfold labels_room, labels_size in *. cbn [labels labels_spare] in *.
    rewrite length_app. cbn [length].
    destruct (Z.of_nat (length (labels enc))
              >=? Z.of_nat (length (labels enc))
                  + Z.of_nat (length (labels_spare enc))) eqn:E; zbool.
    + assert (Hnil : labels_spare enc = [])
        by (apply length_zero_iff_nil; lia).
      rewrite Hnil in *. cbn [app length] in *.
      change (tail (fresh_entries 1024)) with (fresh_entries 1023).
      unfold fresh_entries. rewrite length_replicate. split.
      * apply Forall_forall. intros entry Hin off ->.
        apply list_elem_of_In, elem_of_replicate in Hin as [[=] _].
      * Z.div_mod_to_equations. lia.
    + destruct (labels_spare enc) as [|entry spare] eqn:Espare;
        [cbn [length] in E; lia|].
      cbn [tail length] in *. split; [by apply Forall_inv_tail in Hmono|].
      Z.div_mod_to_equations. lia.
  - destruct (x86_encoder_move_label enc l) as [enc1|] eqn:E; [|done].
    cbn in Hs. injection Hs as <- <-.
    apply move_label_inv in E as (_ & Hbuf & Hlab & _ & _ & Hlen & Hspare).
    unfold labels_room, labels_size in *. rewrite Hlab, length_insert, Hlen.
    split; [|done].
    destruct Hspare as [->| ->]; [done|].
    apply Forall_insert; [exact Hmono|].
    intros off [= <-]. unfold buffer_size in *. lia.
  - injection Hs as <- <-. unfold labels_room, labels_size in *.
    rewrite emit_spare.
    destruct (emit_shape enc e) as (? & ? & _ & -> & _). by split.
Qed.

Lemma run_block cs enc enc' ids :
  run cs enc = Some (enc', ids) ->
  Forall (fun entry => forall off, entry = Some off ->
                                   0 <= off <= buffer_size enc)
    (labels_spare enc) ->
  labels_room enc mod 1024 = 0
  /\ labels_size enc <= labels_room enc < labels_size enc + 1024 ->
  Forall (fun entry => forall off, entry = Some off ->
                                   0 <= off <= buffer_size enc')
    (labels_spare enc')
  /\ labels_room enc' mod 1024 = 0
  /\ labels_size enc' <= labels_room enc' < labels_size enc' + 1024.
Proof.
  revert enc ids. induction cs as [|c cs IH]; intros enc ids H Hsp Hroom.
  - injection H as <- <-. by split.
  - apply run_cons in H as (e1 & i1 & i2 & Hs & Hr & ->).
    destruct (step_block _ _ _ _ Hs Hsp Hroom) as [Hsp1 Hroom1].
    by eapply IH.
Qed.

(** The label block never shrinks. *)
Lemma step_room enc c enc' ids :
  step enc c = Some (enc', ids) -> labels_room enc <= labels_room enc'.
Proof.
  intros Hs. destruct c as [|l|e]; cbn [step] in Hs.
  - unfold x86_encoder_add_label in Hs. injection Hs as <- <-.
    unfold labels_room, labels_size. cbn [labels labels_spare].
    rewrite length_app. cbn [length].
    destruct (_ >=? _) eqn:E; zbool.
    + rewrite length_tl, length_app. unfold fresh_entries.
      rewrite length_replicate. lia.
    + unfold labels_room, labels_size in E. rewrite length_tl. lia.
  - destruct (x86_encoder_move_label enc l) as [enc1|] eqn:E; [|done].
    cbn in Hs. injection Hs as <- <-.
    apply move_label_inv in E as (_ & _ & Hlab & _ & _ & Hlen & _).
    unfold labels_room, labels_size. rewrite Hlab, length_insert, Hlen. lia.
  - injection Hs as <- <-. unfold labels_room, labels_size.
    rewrite emit_spare.
    destruct (emit_shape enc e) as (? & ? & _ & -> & _). lia.
Qed.

(** A call sequence is defined as soon as its [move_label] calls stay
    inside the block the encoder has when the sequence starts. *)
Lemma run_defined cs : forall enc,
  (forall l, CallMoveLabel l ∈ cs -> 0 <= l < labels_room enc) ->
  is_Some (run cs enc).
Proof.
  induction cs as [|c cs IH]; intros enc Hin; [by eexists|].
  assert (Hs : is_Some (step enc c)).
  { destruct c as [|l|e]; cbn [step]; [by eexists| |by eexists].
    assert (Hl : 0 <= l < labels_room enc) by (apply Hin; by left).
    unfold x86_encoder_move_label.
    destruct ((0 <=? l) && (l <? labels_size enc)) eqn:E1; [by eexists|].
    destruct ((labels_size enc <=? l) && (l <? labels_room enc)) eqn:E2;
      [by eexists|].
    apply andb_false_iff in E1. apply andb_false_iff in E2.
    destruct E1 as [E1|E1], E2 as [E2|E2]; zbool; lia. }
  destruct Hs as [[enc1 ids1] Hs].
  destruct (IH enc1) as [[enc2 ids2] Hr].
  { intros l Hl. pose proof (step_room _ _ _ _ Hs).
    assert (0 <= l < labels_room enc) by (apply Hin; by right). lia. }
  cbn [run]. rewrite Hs. cbn [mbind option_bind]. rewrite Hr. by eexists.
Qed.

End CallSequences.

Section Labels.

(** C7. At any point of a sequence of [add_label], [move_label] and emitter
    calls started on a zeroed encoder: the ids returned so far are 0, 1, 2,
    ... in call order, one per label; every label offset, and every offset
    stored in a spare entry of the label block, lies within the current
    buffer size; the block has room for the next multiple of 1024 entries.
    For whatever is called next: [add_label] returns the next id and records
    the current buffer size as the offset of the new label; [move_label]
    stores the current buffer size into the entry of the block it is given,
    for every index the block has room for, be it a label created so far or
    not, leaves every other entry as it is, and has no defined behaviour
    beyond the block; an emitter leaves the block alone; and the buffer size
    does not decrease, over one call or many.  Every further call sequence
    whose [move_label] calls stay inside the block is defined. *)
Theorem label_discipline (cs : list encoder_call) (enc : x86_encoder)
    (ids : list Z) :
  run cs x86_encoder_zero = Some (enc, ids) ->
  ids = Z.of_nat <$> seq 0 (length (labels enc))
  /\ Forall (fun off => 0 <= off <= buffer_size enc) (labels enc)
  /\ Forall (fun entry => forall off, entry = Some off ->
                                      0 <= off <= buffer_size enc)
       (labels_spare enc)
  /\ (labels_room enc mod 1024 = 0
      /\ labels_size enc <= labels_room enc < labels_size enc + 1024)
  /\ (exists enc', step enc CallAddLabel = Some (enc', [labels_size enc])
        /\ labels enc' = labels enc ++ [buffer_size enc]
        /\ buffer enc' = buffer enc)
  /\ (forall l, 0 <= l < labels_room enc ->
        exists enc', step enc (CallMoveLabel l) = Some (enc', [])
          /\ labels_block enc'
             = <[Z.to_nat l := Some (buffer_size enc)]> (labels_block enc)
          /\ (l < labels_size enc ->
              labels enc' !! Z.to_nat l = Some (buffer_size enc))
          /\ length (labels enc') = length (labels enc)
          /\ buffer enc' = buffer enc)
  /\ (forall l, ~ 0 <= l < labels_room enc ->
        step enc (CallMoveLabel l) = None)
  /\ (forall e, exists enc', step enc (CallEmit e) = Some (enc', [])
        /\ labels enc' = labels enc
        /\ labels_spare enc' = labels_spare enc
        /\ buffer_size enc <= buffer_size enc')
  /\ (forall cs' enc' ids', run cs' enc = Some (enc', ids') ->
        buffer_size enc <= buffer_size enc'
        /\ Forall (fun off => 0 <= off <= buffer_size enc') (labels enc'))
  /\ (forall cs',
        (forall l, CallMoveLabel l ∈ cs' -> 0 <= l < labels_room enc) ->
        is_Some (run cs' enc)).
Proof.
  intros Hrun.
  assert (H0 : Forall (fun off => 0 <= off <= buffer_size x86_encoder_zero)
                 (labels x86_encoder_zero)) by constructor.
  destruct (run_labels _ _ _ _ Hrun H0) as (Hinv & Hids & Hlen).
  cbn [labels x86_encoder_zero length] in Hids, Hlen.
  rewrite Nat.add_0_l in Hlen. rewrite <- Hlen in Hids.
  destruct (run_block _ _ _ _ Hrun) as [Hspare Hroom];
    [constructor|by cbn|].
  split; [done|]. split; [done|]. split; [done|]. split; [done|].
  repeat apply conj.
  - eexists. split; [reflexivity|]. by split.
  - intros l Hl.
    destruct (x86_encoder_move_label enc l) as [enc1|] eqn:E.
    + exists enc1. cbn [step]. rewrite E. split; [done|].
      apply move_label_inv in E as (_ & Hbuf & Hlab & _ & Hblock & _).
      split; [done|]. rewrite Hlab, length_insert.
      split; [|by split].
      intros Hlt. apply list_lookup_insert_eq. unfold labels_size in Hlt. lia.
    + exfalso. revert E. unfold x86_encoder_move_label.
      destruct ((0 <=? l) && (l <? labels_size enc)) eqn:E1; [done|].
      destruct ((labels_size enc <=? l) && (l <? labels_room enc)) eqn:E2;
        [done|].
      apply andb_false_iff in E1. apply andb_false_iff in E2.
      destruct E1 as [E1|E1], E2 as [E2|E2]; zbool; lia.
  - intros l Hl. cbn [step].
    destruct (x86_encoder_move_label enc l) as [enc1|] eqn:E; [|done].
    apply move_label_inv in E as (Hin & _). lia.
  - intros e. eexists. split; [reflexivity|].
    destruct (emit_shape enc e) as (bs & ? & Hb & -> & _).
    split; [done|]. split; [apply emit_spare|].
    unfold buffer_size. rewrite Hb, length_app. lia.
  - intros cs' enc' ids' Hrun'. split.
    + destruct (run_grows _ _ _ _ Hrun') as (bs & rs & Hb & _).
      unfold buffer_size. rewrite Hb, length_app. lia.
    + by destruct (run_labels _ _ _ _ Hrun' Hinv).
  - intros cs'. apply run_defined.
Qed.

Lemma label_discipline_witness :
  let enc := {| buffer := [0x90; 0x90];
                labels := [2; 1];
                labels_spare := <[3%nat := Some 1]> (fresh_entries 1022);
                relocations := [] |} in
  [0; 1] = Z.of_nat <$> seq 0 (length (labels enc))
  /\ Forall (fun off => 0 <= off <= buffer_size enc) (labels enc)
  /\ Forall (fun entry => forall off, entry = Some off ->
                                      0 <= off <= buffer_size enc)
       (labels_spare enc)
  /\ (labels_room enc mod 1024 = 0
      /\ labels_size enc <= labels_room enc < labels_size enc + 1024)
  /\ (exists enc', step enc CallAddLabel = Some (enc', [labels_size enc])
        /\ labels enc' = labels enc ++ [buffer_size enc]
        /\ buffer enc' = buffer enc)
  /\ (forall l, 0 <= l < labels_room enc ->
        exists enc', step enc (CallMoveLabel l) = Some (enc', [])
          /\ labels_block enc'
             = <[Z.to_nat l := Some (buffer_size enc)]> (labels_block enc)
          /\ (l < labels_size enc ->
              labels enc' !! Z.to_nat l = Some (buffer_size enc))
          /\ length (labels enc') = length (labels enc)
          /\ buffer enc' = buffer enc)
  /\ (forall l, ~ 0 <= l < labels_room enc ->
        step enc (CallMoveLabel l) = None)
  /\ (forall e, exists enc', step enc (CallEmit e) = Some (enc', [])
        /\ labels enc' = labels enc
        /\ labels_spare enc' = labels_spare enc
        /\ buffer_size enc <= buffer_size enc')
  /\ (forall cs' enc' ids', run cs' enc = Some (enc', ids') ->
        buffer_size enc <= buffer_size enc'
        /\ Forall (fun off => 0 <= off <= buffer_size enc') (labels enc'))
  /\ (forall cs',
        (forall l, CallMoveLabel l ∈ cs' -> 0 <= l < labels_room enc) ->
        is_Some (run cs' enc)).
Proof.
  apply (label_discipline
           [CallAddLabel; CallEmit EmitNop; CallMoveLabel 5; CallAddLabel;
            CallEmit EmitNop; CallMoveLabel 0]).
  reflexivity.
Defined.

End Labels.

Section Linking.

Lemma reloc_chain_bounds lo rs hi : reloc_chain lo rs hi -> lo <= hi.
Proof.
  revert lo. induction rs as [|r rs IH]; intros lo; cbn; [done|].
  intros (H1 & _ & H2). apply IH in H2. lia.
Qed.

Lemma reloc_chain_weaken lo rs hi hi' :
  reloc_chain lo rs hi -> hi <= hi' -> reloc_chain lo rs hi'.
Proof.
  revert lo. induction rs as [|r rs IH]; intros lo; cbn; [lia|].
  intros (H1 & H2 & H3) Hle. eauto.
Qed.

Lemma reloc_chain_snoc lo rs hi r hi' :
  reloc_chain lo rs hi -> hi <= offset r -> relative r = 1 ->
  offset r + 4 <= hi' -> reloc_chain lo (rs ++ [r]) hi'.
Proof.
  revert lo. induction rs as [|r0 rs IH]; intros lo; cbn.
  - intros. repeat split; lia.
  - intros (H1 & H2 & H3) Hle Hrel Hhi. eauto.
Qed.

Lemma step_chain enc c enc' ids :
  step enc c = Some (enc', ids) ->
  reloc_chain 0 (relocations enc) (buffer_size enc) ->
  reloc_chain 0 (relocations enc') (buffer_size enc').
Proof.
  intros Hs Hc.
  apply step_shape in Hs as (bs & rs & Hb & Hr & Hrs).
  assert (Hsz : buffer_size enc' = buffer_size enc + Z.of_nat (length bs)).
  { unfold buffer_size. rewrite Hb, length_app. lia. }
  rewrite Hr, Hsz. destruct Hrs as [->|(r & -> & Hrel & Hlo & Hhi)].
  - rewrite app_nil_r. eapply reloc_chain_weaken; [exact Hc|lia].
  - eapply reloc_chain_snoc; eauto.
Qed.

Lemma run_chain cs enc enc' ids :
  run cs enc = Some (enc', ids) ->
  reloc_chain 0 (relocations enc) (buffer_size enc) ->
  reloc_chain 0 (relocations enc') (buffer_size enc').
Proof.
  revert enc ids. induction cs as [|c cs IH]; intros enc ids H Hc.
  - by injection H as <- <-.
  - apply run_cons in H as (e1 & i1 & i2 & Hs & Hr & ->).
    eapply IH; [exact Hr|]. eapply step_chain; eauto.
Qed.

(** One iteration of the link loop, for a relative relocation. *)
Lemma apply_loop_cons enc base r rest buf res buf' :
  apply_relocations_loop enc base (r :: rest) buf = Some (res, buf') ->
  relative r = 1 ->
  (unknown_label enc r /\ res = 1 /\ buf' = buf)
  \/ (exists l t,
        ~ unknown_label enc r
        /\ labels enc !! Z.to_nat (to_size_t (label r)) = Some l
        /\ store buf (offset r) (le_bytes 4 (to_int (l - (offset r + 4)))) = Some t
        /\ apply_relocations_loop enc base rest t = Some (res, buf')).
Proof.
  cbn [apply_relocations_loop]. intros H Hrel. unfold unknown_label.
  destruct (to_size_t (label r) >=? labels_size enc) eqn:E.
  - injection H as <- <-. zbool. left. repeat split; lia.
  - zbool. right.
    destruct (labels enc !! Z.to_nat (to_size_t (label r))) as [l|]; [|done].
    cbn in H. rewrite Hrel in H. cbn [truthy Z.eqb negb] in H.
    rewrite displacement_narrowing in H.
    destruct (store buf (offset r) _) as [t|] eqn:Est; [|done].
    cbn in H. exists l, t. repeat split; try done. lia.
Qed.

(** The link loop keeps the length of the target and every byte below the
    first relocation field. *)
Lemma apply_loop_frame enc base rs : forall lo hi buf res buf',
  apply_relocations_loop enc base rs buf = Some (res, buf') ->
  reloc_chain lo rs hi ->
  length buf' = length buf
  /\ forall i : nat, Z.of_nat i < lo -> buf' !! i = buf !! i.
Proof.
  induction rs as [|r rs IH]; intros lo hi buf res buf' H Hc.
  - by injection H as <- <-.
  - destruct Hc as (Hlo & Hrel & Hc).
    apply apply_loop_cons in H; [|done].
    destruct H as [(_ & _ & ->)|(l & t & _ & _ & Hst & H)]; [done|].
    destruct (IH _ _ _ _ _ H Hc) as [Hlen Hfr].
    rewrite Hlen, (store_length _ _ _ _ Hst). split; [done|].
    intros i Hi. rewrite Hfr by lia.
    eapply store_lookup_out; [exact Hst|lia].
Qed.

(** After a successful link every relocation field holds its displacement. *)
Lemma apply_loop_patched enc base rs : forall lo hi buf buf' r,
  apply_relocations_loop enc base rs buf = Some (0, buf') ->
  reloc_chain lo rs hi ->
  r ∈ rs ->
  exists l,
    labels enc !! Z.to_nat (to_size_t (label r)) = Some l
    /\ load_int32 buf' (offset r) = Some (to_int (l - (offset r + 4))).
Proof.
  induction rs as [|r0 rs IH]; intros lo hi buf buf' r H Hc Hin.
  - by apply elem_of_nil in Hin.
  - destruct Hc as (Hlo & Hrel & Hc).
    apply apply_loop_cons in H; [|done].
    destruct H as [(_ & ? & _)|(l & t & _ & Hl & Hst & H)]; [done|].
    apply elem_of_cons in Hin as [->|Hin]; [|by eapply IH].
    exists l. split; [done|].
    destruct (apply_loop_frame _ _ _ _ _ _ _ _ H Hc) as [Hlen Hfr].
    unfold load_int32.
    rewrite (load_ext t buf' (offset r0) 4 Hlen) by (intros; apply Hfr; lia).
    pose proof (load_store_same _ _ _ _ Hst) as Hld.
    rewrite le_bytes_length in Hld. rewrite Hld.
    change (Some (to_signed 32 (le_value (le_bytes 4 (to_int (l - (offset r0 + 4))))))
            = Some (to_int (l - (offset r0 + 4)))).
    by rewrite int32_store_load.
Qed.

(** The link loop runs to its end on a table laid out inside the target. *)
Lemma apply_loop_defined enc base rs : forall lo buf,
  0 <= lo -> reloc_chain lo rs (Z.of_nat (length buf)) ->
  is_Some (apply_relocations_loop enc base rs buf).
Proof.
  induction rs as [|r rs IH]; intros lo buf H0 Hc; [by eexists|].
  destruct Hc as (Hlo & Hrel & Hc). cbn [apply_relocations_loop].
  destruct (to_size_t (label r) >=? labels_size enc) eqn:E; [by eexists|].
  zbool. unfold labels_size in E.
  assert (0 <= to_size_t (label r))
    by (unfold to_size_t, to_unsigned; apply Z.mod_pos_bound; lia).
  destruct (lookup_lt_is_Some_2 (labels enc) (Z.to_nat (to_size_t (label r))))
    as [l Hl]; [lia|].
  rewrite Hl. cbn [mbind option_bind]. rewrite Hrel. cbn [truthy Z.eqb negb].
  pose proof (reloc_chain_bounds _ _ _ Hc) as Hb.
  destruct (store_defined buf (offset r)
              (le_bytes 4 (to_int (to_intptr
                 (to_intptr l - to_intptr (to_size_t (offset r + 4)))))))
    as [t Ht]; [lia|rewrite le_bytes_length; lia|].
  rewrite Ht. cbn [mbind option_bind]. apply (IH (offset r + 4)); [lia|].
  by rewrite (store_length _ _ _ _ Ht).
Qed.

Lemma apply_loop_cases enc base rs : forall buf res buf',
  apply_relocations_loop enc base rs buf = Some (res, buf') ->
  (res = 0 /\ Forall (fun r => ~ unknown_label enc r) rs)
  \/ (res = 1 /\
      exists pre r post,
        rs = pre ++ r :: post
        /\ Forall (fun r => ~ unknown_label enc r) pre
        /\ unknown_label enc r
        /\ apply_relocations_loop enc base pre buf = Some (0, buf')).
Proof.
  induction rs as [|r rs IH]; intros buf res buf' H.
  - injection H as <- <-. left. by split.
  - pose proof H as H'. cbn [apply_relocations_loop] in H.
    destruct (to_size_t (label r) >=? labels_size enc) eqn:E.
    + injection H as <- <-. zbool. right. split; [done|].
      exists [], r, rs. repeat split; [constructor|exact E].
    + zbool.
      destruct (labels enc !! Z.to_nat (to_size_t (label r))) as [l|] eqn:El;
        [|done].
      cbn in H.
      match type of H with (?s ≫= _) = _ => destruct s as [t|] eqn:Est end;
        [|done].
      cbn in H. assert (Hk : ~ unknown_label enc r) by (unfold unknown_label; lia).
      destruct (IH _ _ _ H) as [(-> & Hall)|(-> & pre & r1 & post & -> & Hpre & Hbad & Hrun)].
      * left. split; [done|]. by constructor.
      * right. split; [done|]. exists (r :: pre), r1, post.
        repeat split; [by constructor|done|].
        cbn [apply_relocations_loop].
        destruct (to_size_t (label r) >=? labels_size enc) eqn:E'; [zbool; lia|].
        rewrite El. cbn. rewrite Est. cbn. exact Hrun.
Qed.

Lemma apply_loop_outside enc base rs : forall lo hi buf res buf',
  apply_relocations_loop enc base rs buf = Some (res, buf') ->
  reloc_chain lo rs hi ->
  forall i : nat,
    (forall r, r ∈ rs -> ~ (offset r <= Z.of_nat i < offset r + 4)) ->
    buf' !! i = buf !! i.
Proof.
  induction rs as [|r rs IH]; intros lo hi buf res buf' H Hc i Hout.
  - by injection H as <- <-.
  - destruct Hc as (Hlo & Hrel & Hc).
    destruct (apply_loop_cons _ _ _ _ _ _ _ H Hrel)
      as [(_ & _ & ->)|(l & t & _ & _ & Hst & Hrest)]; [done|].
    rewrite (IH _ _ _ _ _ Hrest Hc i)
      by (intros r' Hr'; apply Hout; by right).
    eapply store_lookup_out; [exact Hst|].
    rewrite le_bytes_length.
    assert (Hr : ~ (offset r <= Z.of_nat i < offset r + 4))
      by (apply Hout; by left).
    lia.
Qed.

Lemma reloc_chain_elem lo rs hi r :
  reloc_chain lo rs hi -> r ∈ rs -> lo <= offset r /\ offset r + 4 <= hi.
Proof.
  revert lo. induction rs as [|r0 rs IH]; intros lo Hc Hin.
  - by apply elem_of_nil in Hin.
  - destruct Hc as (Hlo & _ & Hc).
    pose proof (reloc_chain_bounds _ _ _ Hc).
    apply elem_of_cons in Hin as [->|Hin]; [lia|].
    destruct (IH _ Hc Hin). lia.
Qed.

Lemma reloc_chain_app lo pre rest hi :
  reloc_chain lo (pre ++ rest) hi ->
  exists mid, reloc_chain lo pre mid /\ reloc_chain mid rest hi.
Proof.
  revert lo. induction pre as [|r pre IH]; intros lo Hc.
  - exists lo. split; [cbn; lia|done].
  - destruct Hc as (Hlo & Hrel & Hc).
    destruct (IH _ Hc) as (mid & Hpre & Hrest).
    exists mid. by repeat split.
Qed.

Lemma load_app_l (l z : list Z) off n bs :
  load l off n = Some bs -> load (l ++ z) off n = Some bs.
Proof.
  unfold load.
  destruct ((0 <=? off) && (off + Z.of_nat n <=? Z.of_nat (length l))) eqn:E;
    [|done].
  apply andb_true_iff in E as [E1 E2]. zbool. intros [= <-].
  rewrite length_app.
  destruct ((0 <=? off)
            && (off + Z.of_nat n <=? Z.of_nat (length l + length z))) eqn:E';
    [|apply andb_false_iff in E' as [E'|E']; zbool; lia].
  f_equal. rewrite drop_app_le by lia.
  apply take_app_le. rewrite length_drop. lia.
Qed.

(** The four bytes a relocation is recorded for are zero until the link
    step patches them. *)
Lemma step_placeholders enc c enc' ids :
  step enc c = Some (enc', ids) ->
  (forall r, r ∈ relocations enc ->
             load (buffer enc) (offset r) 4 = Some [0; 0; 0; 0]) ->
  forall r, r ∈ relocations enc' ->
            load (buffer enc') (offset r) 4 = Some [0; 0; 0; 0].
Proof.
  intros Hs Hinv r Hin.
  assert (Hold : forall bs, r ∈ relocations enc ->
            load (buffer enc ++ bs) (offset r) 4 = Some [0; 0; 0; 0])
    by (intros bs Hr; by apply load_app_l, Hinv).
  destruct c as [|l|e]; cbn [step] in Hs.
  - injection Hs as <- <-. cbn [buffer relocations] in *. by apply Hinv.
  - destruct (x86_encoder_move_label enc l) as [enc1|] eqn:E; [|done].
    cbn in Hs. injection Hs as <- <-.
    apply move_label_inv in E as (_ & Hb & _ & Hr & _).
    rewrite Hb. rewrite Hr in Hin. by apply Hinv.
  - injection Hs as <- <-.
    destruct e as [o r1 r2 w|c l|c l|c r0|r1 r2|o r1 r2|o r1 r2|o r1 r2|o r1 r2
                  |r0 v|r0 v|r0 v|r0 v|r0|r0| |].
    2:{ cbn [emit] in *.
        destruct (write_jmp_appends enc c l) as (Hb & _ & Hr & Hz & _).
        rewrite Hr in Hin. apply elem_of_app in Hin as [Hin|Hin].
        - rewrite Hb. by apply Hold.
        - apply list_elem_of_singleton in Hin as ->. exact Hz. }
    2:{ cbn [emit] in *.
        destruct (write_jmp_cond_appends enc c l) as (Hb & _ & Hr & Hz & _).
        rewrite Hr in Hin. apply elem_of_app in Hin as [Hin|Hin].
        - rewrite Hb. by apply Hold.
        - apply list_elem_of_singleton in Hin as ->. exact Hz. }
    all: revert Hin; cbn [emit];
      unfold x86_encoder_write_jmp_reg, x86_encoder_write_cmp_reg,
        x86_encoder_write_modrm, x86_encoder_write_modrm_32,
        x86_encoder_write_modrm_16, x86_encoder_write_modrm_8,
        x86_encoder_write_modrm_rex, x86_encoder_write_mov_imm_64,
        x86_encoder_write_mov_imm_32, x86_encoder_write_mov_imm_16,
        x86_encoder_write_mov_imm_8, x86_encoder_write_push,
        x86_encoder_write_pop, x86_encoder_write_ret, x86_encoder_write_nop,
        ENC_ADVANCE; cbn [buffer relocations];
      intros Hin; rewrite <- ?app_assoc; by apply Hold.
Qed.

Lemma run_placeholders cs enc enc' ids :
  run cs enc = Some (enc', ids) ->
  (forall r, r ∈ relocations enc ->
             load (buffer enc) (offset r) 4 = Some [0; 0; 0; 0]) ->
  forall r, r ∈ relocations enc' ->
            load (buffer enc') (offset r) 4 = Some [0; 0; 0; 0].
Proof.
  revert enc ids. induction cs as [|c cs IH]; intros enc ids H Hinv.
  - by injection H as <- <-.
  - apply run_cons in H as (e1 & i1 & i2 & Hs & Hr & ->).
    eapply IH; [exact Hr|]. by eapply step_placeholders.
Qed.

(** The link loop on a table laid out inside the target, when every
    relocation before [r] names a known label and [r] does not: it returns
    1 with the relocations before [r] patched and no other byte changed. *)
Lemma apply_loop_stops enc base pre r post : forall lo hi buf,
  0 <= lo -> reloc_chain lo (pre ++ r :: post) hi ->
  hi <= Z.of_nat (length buf) ->
  Forall (fun p => ~ unknown_label enc p) pre ->
  unknown_label enc r ->
  exists buf',
    apply_relocations_loop enc base (pre ++ r :: post) buf = Some (1, buf')
    /\ apply_relocations_loop enc base pre buf = Some (0, buf').
Proof.
  induction pre as [|p pre IH]; intros lo hi buf H0 Hc Hhi Hpre Hbad.
  - exists buf. cbn [app apply_relocations_loop]. unfold unknown_label in Hbad.
    destruct (to_size_t (label r) >=? labels_size enc) eqn:E; [done|].
    zbool. lia.
  - rewrite <- app_comm_cons in *. destruct Hc as (Hlo & Hrel & Hc).
    pose proof (Forall_inv Hpre) as Hp. apply Forall_inv_tail in Hpre.
    unfold unknown_label in Hp.
    pose proof (reloc_chain_bounds _ _ _ Hc) as Hb.
    cbn [apply_relocations_loop].
    destruct (to_size_t (label p) >=? labels_size enc) eqn:E; [zbool; lia|].
    zbool. unfold labels_size in E.
    assert (0 <= to_size_t (label p))
      by (unfold to_size_t, to_unsigned; apply Z.mod_pos_bound; lia).
    destruct (lookup_lt_is_Some_2 (labels enc) (Z.to_nat (to_size_t (label p))))
      as [l Hl]; [lia|].
    rewrite Hl. cbn [mbind option_bind]. rewrite Hrel. cbn [truthy Z.eqb negb].
    destruct (store_defined buf (offset p)
                (le_bytes 4 (to_int (to_intptr
                   (to_intptr l - to_intptr (to_size_t (offset p + 4)))))))
      as [t Ht]; [lia|rewrite le_bytes_length; lia|].
    rewrite Ht. cbn [mbind option_bind].
    apply (IH (offset p + 4) hi); [lia|done| |done|done].
    by rewrite (store_length _ _ _ _ Ht).
Qed.

Lemma first_unknown enc rs :
  Exists (unknown_label enc) rs ->
  exists pre r post,
    rs = pre ++ r :: post
    /\ Forall (fun p => ~ unknown_label enc p) pre
    /\ unknown_label enc r.
Proof.
  induction rs as [|r0 rs IH]; intros Hex; [by inversion Hex|].
  destruct (Z_le_dec (labels_size enc) (to_size_t (label r0))) as [Hbad|Hok].
  - exists [], r0, rs. by repeat split.
  - assert (Hrest : Exists (unknown_label enc) rs)
      by (inversion Hex; [by unfold unknown_label in *|done]).
    destruct (IH Hrest) as (pre & r & post & -> & Hpre & Hbad).
    exists (r0 :: pre), r, post. repeat split; [|done].
    by constructor.
Qed.

(** The link loop succeeds when every relocation names a known label. *)
Lemma apply_loop_succeeds enc base rs : forall lo buf,
  0 <= lo -> reloc_chain lo rs (Z.of_nat (length buf)) ->
  Forall (fun r => ~ unknown_label enc r) rs ->
  exists buf', apply_relocations_loop enc base rs buf = Some (0, buf').
Proof.
  intros lo buf H0 Hc Hall.
  destruct (apply_loop_defined enc base rs lo buf H0 Hc) as [[res buf'] Hd].
  destruct (apply_loop_cases _ _ _ _ _ _ Hd)
    as [(-> & _)|(_ & pre & r & post & -> & _ & Hbad & _)]; [by exists buf'|].
  apply Forall_app in Hall as [_ Hall]. by apply Forall_inv in Hall.
Qed.

End Linking.

Section LinkingClaims.

(** C2, as the claim states it, fails: after a jump to an existing label and
    a jump to label 5 that does not exist, the link step returns 1 and the
    placeholder of the first jump has been patched all the same. *)
Lemma partial_linking_counterexample :
  let enc := {| buffer := [0x90; 0xE9; 0; 0; 0; 0; 0xE9; 0; 0; 0; 0];
                labels := [0];
                labels_spare := fresh_entries 1023;
                relocations := [ {| offset := 2; label := 0; relative := 1 |};
                                 {| offset := 7; label := 5; relative := 1 |} ] |} in
  run [CallAddLabel; CallEmit EmitNop; CallEmit (EmitJmp 0 0);
       CallEmit (EmitJmp 0 5)] x86_encoder_zero = Some (enc, [0])
  /\ x86_encoder_apply_relocations enc 0
     = Some (1, {| buffer := [0x90; 0xE9; 0xFA; 0xFF; 0xFF; 0xFF; 0xE9; 0; 0; 0; 0];
                   labels := labels enc; labels_spare := labels_spare enc;
                   relocations := relocations enc |})
  /\ ~ (forall res enc', x86_encoder_apply_relocations enc 0 = Some (res, enc') ->
        res <> 0 -> buffer enc' = buffer enc).
Proof.
  cbn zeta. split; [reflexivity|]. split; [reflexivity|].
  intros H. specialize (H _ _ eq_refl). discriminate H. lia.
Qed.

Lemma apply_in_memory_cases (enc : x86_encoder) (t_buffer : list Z)
    (base res : Z) (t' : list Z) :
  x86_encoder_apply_relocations_in_memory enc t_buffer base = Some (res, t') ->
  (res = 1 <-> Exists (unknown_label enc) (relocations enc))
  /\ (res = 0 <-> Forall (fun r => ~ unknown_label enc r) (relocations enc))
  /\ (res = 1 ->
      exists pre r post,
        relocations enc = pre ++ r :: post
        /\ Forall (fun r => ~ unknown_label enc r) pre
        /\ unknown_label enc r
        /\ apply_relocations_loop enc base pre t_buffer = Some (0, t')).
Proof.
  unfold x86_encoder_apply_relocations_in_memory. intros H.
  destruct (apply_loop_cases _ _ _ _ _ _ H)
    as [(-> & Hall)|(-> & pre & r & post & Heq & Hpre & Hbad & Hrun)].
  - split; [|split]; [split|split|]; try done.
    intros Hex. apply Exists_exists in Hex as (r & Hin & Hbad).
    rewrite Forall_forall in Hall. by apply Hall in Hbad.
  - split; [|split]; [split|split|]; try done.
    + intros _. rewrite Heq. apply Exists_app. right. by constructor.
    + intros Hall. rewrite Heq in Hall.
      apply Forall_app in Hall as [_ Hall]. by inversion Hall.
    + intros _. by exists pre, r, post.
Qed.

(** C2, amended. On the encoder any call sequence reaches, the link step
    returns 0 when every recorded relocation names a known label, and 1
    when some relocation names an unknown one; labels and relocations are
    left as they were.  When it returns 1, linking is partial: every
    relocation recorded before the first offending one holds its
    displacement, the offending one and the later ones still hold their
    four zero bytes, and no byte outside the patched fields has changed. *)
Theorem apply_relocations_failure (cs : list encoder_call) (enc : x86_encoder)
    (ids : list Z) (base : Z) :
  run cs x86_encoder_zero = Some (enc, ids) ->
  (Forall (fun r => ~ unknown_label enc r) (relocations enc) ->
   exists enc', x86_encoder_apply_relocations enc base = Some (0, enc')
                /\ labels enc' = labels enc
                /\ relocations enc' = relocations enc)
  /\ (Exists (unknown_label enc) (relocations enc) ->
      exists enc' pre r post,
        x86_encoder_apply_relocations enc base = Some (1, enc')
        /\ relocations enc = pre ++ r :: post
        /\ Forall (fun p => ~ unknown_label enc p) pre
        /\ unknown_label enc r
        /\ labels enc' = labels enc
        /\ relocations enc' = relocations enc
        /\ length (buffer enc') = length (buffer enc)
        /\ (forall p, p ∈ pre ->
              exists l,
                labels enc !! Z.to_nat (to_size_t (label p)) = Some l
                /\ load_int32 (buffer enc') (offset p)
                   = Some (to_int (l - (offset p + 4))))
        /\ (forall q, q ∈ r :: post ->
              load (buffer enc') (offset q) 4 = Some [0; 0; 0; 0])
        /\ (forall i : nat,
              (forall p, p ∈ pre ->
                         ~ (offset p <= Z.of_nat i < offset p + 4)) ->
              buffer enc' !! i = buffer enc !! i)).
Proof.
  intros Hrun.
  assert (Hchain : reloc_chain 0 (relocations enc) (buffer_size enc)).
  { eapply run_chain; [exact Hrun|]. cbn. done. }
  assert (Hzero : forall q, q ∈ relocations enc ->
            load (buffer enc) (offset q) 4 = Some [0; 0; 0; 0]).
  { eapply run_placeholders; [exact Hrun|].
    intros q Hq. by apply elem_of_nil in Hq. }
  unfold x86_encoder_apply_relocations, x86_encoder_apply_relocations_in_memory.
  split.
  - intros Hall.
    destruct (apply_loop_succeeds enc base (relocations enc) 0 (buffer enc))
      as [buf Hd]; [lia|exact Hchain|exact Hall|].
    rewrite Hd.
    exists {| buffer := buf; labels := labels enc;
              labels_spare := labels_spare enc;
              relocations := relocations enc |}.
    by split.
  - intros Hex.
    destruct (first_unknown _ _ Hex) as (pre & r & post & Heq & Hpre & Hbad).
    rewrite Heq in Hchain.
    destruct (apply_loop_stops enc base pre r post 0 (buffer_size enc)
                (buffer enc)) as (buf & Hd & Hd0);
      [lia|exact Hchain|unfold buffer_size; lia|exact Hpre|exact Hbad|].
    destruct (reloc_chain_app _ _ _ _ Hchain) as (mid & Hcpre & Hcrest).
    destruct (apply_loop_frame _ _ _ _ _ _ _ _ Hd0 Hcpre) as [Hlen _].
    pose proof (apply_loop_outside _ _ _ _ _ _ _ _ Hd0 Hcpre) as Hout.
    rewrite Heq, Hd.
    exists {| buffer := buf; labels := labels enc;
              labels_spare := labels_spare enc;
              relocations := pre ++ r :: post |}, pre, r, post.
    cbn [buffer labels relocations].
    split; [done|]. split; [done|]. split; [done|]. split; [done|].
    split; [done|]. split; [done|]. split; [done|].
    split; [|split; [|exact Hout]].
    + intros p Hp. by eapply apply_loop_patched.
    + intros q Hq.
      rewrite (load_ext (buffer enc) buf (offset q) 4 Hlen).
      * apply Hzero. rewrite Heq. apply elem_of_app. by right.
      * intros i Hi. apply Hout. intros p Hp.
        destruct (reloc_chain_elem _ _ _ _ Hcpre Hp).
        destruct (reloc_chain_elem _ _ _ _ Hcrest Hq). lia.
Qed.

Lemma apply_relocations_failure_witness :
  let enc := {| buffer := [0x90; 0xE9; 0; 0; 0; 0; 0xE9; 0; 0; 0; 0];
                labels := [0];
                labels_spare := fresh_entries 1023;
                relocations := [ {| offset := 2; label := 0; relative := 1 |};
                                 {| offset := 7; label := 5; relative := 1 |} ] |} in
  let linked := {| buffer := [0x90; 0xE9; 0; 0; 0; 0];
                   labels := [0];
                   labels_spare := fresh_entries 1023;
                   relocations := [ {| offset := 2; label := 0; relative := 1 |} ] |} in
  (exists enc', x86_encoder_apply_relocations linked 0 = Some (0, enc')
                /\ labels enc' = labels linked
                /\ relocations enc' = relocations linked)
  /\ exists enc' pre r post,
    x86_encoder_apply_relocations enc 0 = Some (1, enc')
    /\ relocations enc = pre ++ r :: post
    /\ Forall (fun p => ~ unknown_label enc p) pre
    /\ unknown_label enc r
    /\ labels enc' = labels enc
    /\ relocations enc' = relocations enc
    /\ length (buffer enc') = length (buffer enc)
    /\ (forall p, p ∈ pre ->
          exists l,
            labels enc !! Z.to_nat (to_size_t (label p)) = Some l
            /\ load_int32 (buffer enc') (offset p)
               = Some (to_int (l - (offset p + 4))))
    /\ (forall q, q ∈ r :: post ->
          load (buffer enc') (offset q) 4 = Some [0; 0; 0; 0])
    /\ (forall i : nat,
          (forall p, p ∈ pre ->
                     ~ (offset p <= Z.of_nat i < offset p + 4)) ->
          buffer enc' !! i = buffer enc !! i).
Proof.
  cbn zeta. split.
  { apply (apply_relocations_failure
             [CallAddLabel; CallEmit EmitNop; CallEmit (EmitJmp 0 0)]
             _ [0] 0 eq_refl).
    apply List.Forall_cons; [|apply List.Forall_nil].
    vm_compute. intros H. by apply H. }
  apply (apply_relocations_failure
           [CallAddLabel; CallEmit EmitNop; CallEmit (EmitJmp 0 0);
            CallEmit (EmitJmp 0 5)] _ [0] 0 eq_refl).
  apply Exists_cons_tl, Exists_cons_hd. vm_compute. discriminate.
Defined.

(** C3. Take any call sequence started on a zeroed encoder in which a jump,
    call or conditional jump to label [L] is emitted, [L] being an id that an
    [int] holds, and in which every relocation names a known label.  The link
    step succeeds, whatever the base, and the signed 32-bit little-endian
    integer found afterwards at the four placeholder bytes of that jump is
    the final offset of [L] minus (placeholder position + 4), narrowed to
    32 bits. *)
Theorem relocation_roundtrip (cs1 cs2 : list encoder_call) (e : emit_call)
    (enc1 enc : x86_encoder) (ids1 ids : list Z) (skip L L_off base : Z) :
  jump_placeholder e = Some (skip, L) ->
  0 <= L <= INT_MAX ->
  run cs1 x86_encoder_zero = Some (enc1, ids1) ->
  run (cs1 ++ CallEmit e :: cs2) x86_encoder_zero = Some (enc, ids) ->
  labels enc !! Z.to_nat L = Some L_off ->
  Forall (fun r => ~ unknown_label enc r) (relocations enc) ->
  let patch_offset := buffer_size enc1 + skip in
  exists enc',
    x86_encoder_apply_relocations enc base = Some (0, enc')
    /\ load_int32 (buffer enc') patch_offset
       = Some (to_int (L_off - (patch_offset + 4))).
Proof.
  intros Hj HL Hrun1 Hrun HLoff Hknown patch_offset.
  assert (Hchain : reloc_chain 0 (relocations enc) (buffer_size enc)).
  { eapply run_chain; [exact Hrun|]. cbn. done. }
  destruct (apply_loop_succeeds enc base (relocations enc) 0 (buffer enc))
    as [buf Hloop]; [lia|exact Hchain|exact Hknown|].
  unfold x86_encoder_apply_relocations, x86_encoder_apply_relocations_in_memory.
  rewrite Hloop.
  exists {| buffer := buf; labels := labels enc;
            labels_spare := labels_spare enc;
            relocations := relocations enc |}.
  split; [done|]. cbn [buffer].
  set (r := {| offset := patch_offset; label := to_int L; relative := 1 |}).
  assert (Hin : r ∈ relocations enc).
  { apply run_app in Hrun as (e1 & i1 & i2 & Hr1 & Hr2 & _).
    rewrite Hrun1 in Hr1. injection Hr1 as <- <-.
    apply run_cons in Hr2 as (e2 & j1 & j2 & Hs & Hr2 & _).
    cbn [step] in Hs. injection Hs as <- <-.
    apply run_grows in Hr2 as (_ & rs & _ & ->).
    apply elem_of_app. left.
    destruct e as [o r1 r2 w|c l|c l|c r0|r1 r2|o r1 r2|o r1 r2|o r1 r2|o r1 r2
                  |r0 v|r0 v|r0 v|r0 v|r0|r0| |]; try discriminate Hj;
      injection Hj as <- <-; cbn [emit].
    - destruct (write_jmp_appends enc1 c l) as (_ & _ & -> & _).
      apply elem_of_app. right. apply list_elem_of_singleton. done.
    - destruct (write_jmp_cond_appends enc1 c l) as (_ & _ & -> & _).
      apply elem_of_app. right. apply list_elem_of_singleton. done. }
  destruct (apply_loop_patched _ _ _ _ _ _ _ _ Hloop Hchain Hin) as (l & Hl & Hld).
  cbn [label offset r] in Hl, Hld.
  rewrite to_int_small in Hl by (unfold INT_MIN, INT_MAX in *; lia).
  rewrite to_size_t_small in Hl by (unfold INT_MAX in *; lia).
  rewrite HLoff in Hl. injection Hl as <-. exact Hld.
Qed.

Lemma relocation_roundtrip_witness :
  let enc1 := {| buffer := [0x90]; labels := [0];
                 labels_spare := fresh_entries 1023; relocations := [] |} in
  let enc := {| buffer := [0x90; 0xE9; 0; 0; 0; 0; 0xC3]; labels := [0];
                labels_spare := fresh_entries 1023;
                relocations := [{| offset := 2; label := 0; relative := 1 |}] |} in
  exists enc',
    x86_encoder_apply_relocations enc 0 = Some (0, enc')
    /\ load_int32 (buffer enc') (buffer_size enc1 + 1)
       = Some (to_int (0 - (buffer_size enc1 + 1 + 4))).
Proof.
  cbn zeta.
  apply (relocation_roundtrip [CallAddLabel; CallEmit EmitNop]
           [CallEmit EmitRet] (EmitJmp 0 0) _ _ [0] [0] 1 0 0 0);
    [reflexivity | unfold INT_MAX; lia | reflexivity | reflexivity
     | reflexivity |].
  apply List.Forall_cons; [|apply List.Forall_nil].
  vm_compute. intros H. by apply H.
Defined.

End LinkingClaims.

Import IR.

Section ArrayFacts.

Lemma at_index_Some {A} (arr : list A) i x :
  at_index arr i = Some x ->
  0 <= i < Z.of_nat (length arr) /\ arr !! Z.to_nat i = Some x.
Proof.
  unfold at_index. destruct (0 <=? i) eqn:E; [|done]. zbool. intros H.
  split; [|done]. apply lookup_lt_Some in H. lia.
Qed.

Lemma at_index_nat {A} (arr : list A) (i : nat) :
  at_index arr (Z.of_nat i) = arr !! i.
Proof.
  unfold at_index. destruct (0 <=? Z.of_nat i) eqn:E; [|zbool; lia].
  by rewrite Nat2Z.id.
Qed.

Lemma at_index_defined {A} (arr : list A) i :
  0 <= i < Z.of_nat (length arr) -> is_Some (at_index arr i).
Proof.
  intros H. unfold at_index. destruct (0 <=? i) eqn:E; [|zbool; lia].
  apply lookup_lt_is_Some_2. lia.
Qed.

Lemma in_range_spec r n : in_range r n = true <-> 0 <= r < Z.of_nat n.
Proof.
  unfold in_range. rewrite andb_true_iff, Z.leb_le, Z.ltb_lt. done.
Qed.

End ArrayFacts.

Section LabelData.

Variable ops : list Opcode.

(** Effect of the jump-source loop on one entry: an entry that starts
    non-negative is kept; an entry that starts negative receives the highest
    jump below [k] that goes to it, if there is one. *)
Lemma generate_label_data_spec k : forall a_infos a_infos',
  generate_label_data ops k a_infos = Some a_infos' ->
  length a_infos' = length a_infos
  /\ forall (t : nat) info, a_infos !! t = Some info ->
       exists info', a_infos' !! t = Some info'
         /\ (0 <= jump_from info -> jump_from info' = jump_from info)
         /\ (jump_from info < 0 ->
             (jump_from info' = jump_from info
              /\ forall i, (i < k)%nat -> ~ jumps_to ops i (Z.of_nat t))
             \/ (exists i, (i < k)%nat /\ jump_from info' = Z.of_nat i
                   /\ jumps_to ops i (Z.of_nat t)
                   /\ forall i', (i < i' < k)%nat -> ~ jumps_to ops i' (Z.of_nat t))).
Proof.
  induction k as [|i IH]; intros a_infos a_infos' H.
  - injection H as <-. split; [done|]. intros t info Ht. exists info.
    split; [done|]. split; [done|]. intros _. left. split; [done|]. lia.
  - cbn [generate_label_data] in H.
    destruct (ops !! i) as [op|] eqn:Hop; [|done]. cbn [mbind option_bind] in H.
    match type of H with (?s ≫= _) = _ => destruct s as [a1|] eqn:Hstep end;
      [|done].
    cbn [mbind option_bind] in H.
    destruct (IH _ _ H) as [Hlen IHt]. clear IH H.
    (* the step at index [i] *)
    assert (Hone : length a1 = length a_infos
      /\ forall (t : nat) info, a_infos !! t = Some info ->
           exists info1, a1 !! t = Some info1
             /\ ((jump_from info1 = jump_from info
                  /\ (jump_from info < 0 -> ~ jumps_to ops i (Z.of_nat t)))
                 \/ (jump_from info < 0 /\ jump_from info1 = Z.of_nat i
                     /\ jumps_to ops i (Z.of_nat t)))).
    { destruct (opcode_is_jump op) eqn:Hj.
      - destruct (at_index a_infos (ref_id (target op))) as [info0|] eqn:H0;
          [|done].
        cbn [mbind option_bind] in Hstep.
        apply at_index_Some in H0 as [Hr H0].
        destruct (jump_from info0 >=? 0) eqn:Hset.
        + injection Hstep as <-. split; [done|]. intros t info Ht.
          exists info. split; [done|]. left. split; [done|].
          intros Hneg (op' & Hop' & _ & Href). rewrite Hop in Hop'.
          injection Hop' as <-. rewrite Href, Nat2Z.id in H0.
          rewrite Ht in H0. injection H0 as <-. zbool. lia.
        + injection Hstep as <-. rewrite length_insert. split; [done|].
          intros t info Ht.
          destruct (decide (t = Z.to_nat (ref_id (target op)))) as [->|Hne].
          * rewrite Ht in H0. injection H0 as <-.
            eexists. split; [apply list_lookup_insert_eq; lia|].
            right. zbool. split; [lia|]. split; [done|].
            exists op. repeat split; try done. lia.
          * exists info. split; [by rewrite list_lookup_insert_ne|].
            left. split; [done|]. intros _ (op' & Hop' & _ & Href).
            rewrite Hop in Hop'. injection Hop' as <-.
            rewrite Href, Nat2Z.id in Hne. done.
      - injection Hstep as <-. split; [done|]. intros t info Ht.
        exists info. split; [done|]. left. split; [done|].
        intros _ (op' & Hop' & Hj' & _). rewrite Hop in Hop'.
        injection Hop' as <-. congruence. }
    destruct Hone as [Hlen1 Hone]. split; [lia|].
    intros t info Ht.
    destruct (Hone t info Ht) as (info1 & Ht1 & Hcase).
    destruct (IHt t info1 Ht1) as (info' & Ht' & Hkeep & Hnew).
    exists info'. split; [done|]. split.
    + intros Hpos. destruct Hcase as [[Heq _]|[Hneg _]]; [|lia].
      rewrite <- Heq. apply Hkeep. lia.
    + intros Hneg. destruct Hcase as [[Heq Hno]|(_ & Hset & Hjmp)].
      * rewrite <- Heq in *. destruct (Hnew Hneg) as [[He Hnone]|(i0 & Hi0 & He & Hj0 & Hnone)].
        -- left. split; [done|]. intros i' Hi'.
           destruct (decide (i' = i)) as [->|]; [by apply Hno|].
           apply Hnone. lia.
        -- right. exists i0. split; [lia|]. split; [done|]. split; [done|].
           intros i' Hi'. destruct (decide (i' = i)) as [->|]; [by apply Hno|].
           apply Hnone. lia.
      * right. exists i. split; [lia|]. rewrite Hkeep by lia.
        split; [done|]. split; [done|]. intros i' Hi'. lia.
Qed.

Lemma generate_label_data_defined k : forall a_infos,
  (k <= length ops)%nat ->
  (forall op, op ∈ ops -> opcode_is_jump op = true ->
              0 <= ref_id (target op) < Z.of_nat (length a_infos)) ->
  is_Some (generate_label_data ops k a_infos).
Proof.
  induction k as [|i IH]; intros a_infos Hk Hwf; [by eexists|].
  cbn [generate_label_data].
  destruct (lookup_lt_is_Some_2 ops i) as [op Hop]; [lia|].
  rewrite Hop. cbn [mbind option_bind].
  assert (Hin : op ∈ ops) by (eapply list_elem_of_lookup_2; eauto).
  assert (Hnext : forall a1, length a1 = length a_infos ->
            is_Some (generate_label_data ops i a1)).
  { intros a1 Hl. apply IH; [lia|]. by rewrite Hl. }
  destruct (opcode_is_jump op) eqn:Hj; [|by apply Hnext].
  destruct (at_index_defined a_infos (ref_id (target op))) as [info0 H0];
    [by apply Hwf|].
  rewrite H0. cbn [mbind option_bind].
  destruct (jump_from info0 >=? 0); cbn [mbind option_bind]; apply Hnext;
    [done|by rewrite length_insert].
Qed.

End LabelData.

Section PreviousLabels.

Lemma build_previous_labels_spec count : forall i prev a_infos a_infos',
  build_previous_labels count i prev a_infos = Some a_infos' ->
  Z.of_nat (i + count) <= INT_MAX + 1 ->
  -1 <= prev < Z.of_nat i ->
  (forall (k : nat) info, prev < Z.of_nat k < Z.of_nat i ->
     a_infos !! k = Some info -> jump_from info < 0) ->
  length a_infos' = length a_infos
  /\ (forall (j : nat) info, a_infos !! j = Some info ->
        exists info', a_infos' !! j = Some info'
          /\ jump_from info' = jump_from info
          /\ ((j < i)%nat -> previous_label info' = previous_label info))
  /\ (forall (j : nat) info', (i <= j < i + count)%nat ->
        a_infos' !! j = Some info' ->
        -1 <= previous_label info' < Z.of_nat j
        /\ forall (k : nat) info_k,
             previous_label info' < Z.of_nat k < Z.of_nat j ->
             a_infos' !! k = Some info_k -> jump_from info_k < 0).
Proof.
  induction count as [|count IH]; intros i prev a_infos a_infos' H Hmax Hprev Hgap.
  - injection H as <-. split; [done|]. split; [eauto|]. intros; lia.
  - cbn [build_previous_labels] in H.
    destruct (a_infos !! i) as [info_i|] eqn:Hi; [|done].
    cbn [mbind option_bind] in H.
    assert (Hint : to_int (Z.of_nat i) = Z.of_nat i)
      by (apply to_int_small; unfold INT_MIN, INT_MAX in *; lia).
    rewrite Hint in H.
    pose proof (lookup_lt_Some _ _ _ Hi) as Hlt.
    set (a1 := <[i := {| previous_label := prev; jump_from := jump_from info_i |}]> a_infos) in *.
    set (prev' := if jump_from info_i >=? 0 then Z.of_nat i else prev) in *.
    assert (Ha1 : forall (k : nat), k <> i -> a1 !! k = a_infos !! k)
      by (intros; by apply list_lookup_insert_ne).
    assert (Ha1i : a1 !! i = Some {| previous_label := prev; jump_from := jump_from info_i |})
      by (by apply list_lookup_insert_eq).
    destruct (IH (S i) prev' a1 a_infos' H) as (Hlen & Hkeep & Hnew).
    { lia. }
    { unfold prev'. destruct (jump_from info_i >=? 0); lia. }
    { intros k info Hk Hlk. unfold prev' in Hk.
      destruct (jump_from info_i >=? 0) eqn:E; [lia|]. zbool.
      destruct (decide (k = i)) as [->|Hne].
      - rewrite Ha1i in Hlk. injection Hlk as <-. cbn. lia.
      - rewrite Ha1 in Hlk by done. eapply Hgap; [|exact Hlk]. lia. }
    split; [by rewrite Hlen; unfold a1; rewrite length_insert|].
    assert (Hkeep' : forall (j : nat) info, a_infos !! j = Some info ->
              exists info', a_infos' !! j = Some info'
                /\ jump_from info' = jump_from info
                /\ ((j < i)%nat -> previous_label info' = previous_label info)).
    { intros j info Hj. destruct (decide (j = i)) as [->|Hne].
      - destruct (Hkeep i _ Ha1i) as (info' & Hl' & Hjf & _).
        exists info'. rewrite Hi in Hj. injection Hj as <-.
        split; [done|]. split; [done|]. lia.
      - rewrite <- Ha1 in Hj by done.
        destruct (Hkeep j _ Hj) as (info' & Hl' & Hjf & Hpl).
        exists info'. split; [done|]. split; [done|]. intros. apply Hpl. lia. }
    split; [exact Hkeep'|].
    intros j info' Hj Hlj. destruct (decide (j = i)) as [->|Hne].
    + destruct (Hkeep i _ Ha1i) as (info'' & Hl'' & _ & Hpl).
      rewrite Hlj in Hl''. injection Hl'' as <-.
      rewrite Hpl by lia. cbn. split; [lia|].
      intros k info_k Hk Hlk.
      destruct (lookup_lt_is_Some_2 a_infos k) as [info0 H0]; [lia|].
      destruct (Hkeep' k _ H0) as (info0' & H0' & Hjf0 & _).
      rewrite Hlk in H0'. injection H0' as <-. rewrite Hjf0.
      eapply Hgap; [|exact H0]. lia.
    + apply Hnew; [lia|done].
Qed.

Lemma build_previous_labels_defined count : forall i prev a_infos,
  (i + count <= length a_infos)%nat ->
  is_Some (build_previous_labels count i prev a_infos).
Proof.
  induction count as [|count IH]; intros i prev a_infos H; [by eexists|].
  cbn [build_previous_labels].
  destruct (lookup_lt_is_Some_2 a_infos i) as [info Hi]; [lia|].
  rewrite Hi. cbn [mbind option_bind]. apply IH. rewrite length_insert. lia.
Qed.

(** The second pass, run over the whole array. *)
Lemma previous_labels_chain a_infos a_infos' :
  build_previous_labels (length a_infos) 0 (-1) a_infos = Some a_infos' ->
  Z.of_nat (length a_infos) <= INT_MAX ->
  length a_infos' = length a_infos
  /\ label_chain a_infos'
  /\ forall (j : nat) info, a_infos !! j = Some info ->
       exists info', a_infos' !! j = Some info'
                     /\ jump_from info' = jump_from info.
Proof.
  intros H Hmax.
  destruct (build_previous_labels_spec _ _ _ _ _ H) as (Hlen & Hkeep & Hnew);
    [lia|lia|intros; lia|].
  split; [done|]. split.
  - intros j info Hj. apply Hnew; [|done].
    apply lookup_lt_Some in Hj. lia.
  - intros j info Hj. destruct (Hkeep j info Hj) as (info' & ? & ? & _). eauto.
Qed.

End PreviousLabels.

Section Flags.

Lemma has_flag_testbit fl n : 0 <= n -> has_flag fl (2 ^ n) = Z.testbit fl n.
Proof.
  intros Hn. unfold has_flag. rewrite land_pow2_testbit by done.
  destruct (Z.testbit fl n); [|done].
  assert (0 < 2 ^ n) by (apply Z.pow_pos_nonneg; lia).
  apply negb_true_iff, Z.eqb_neq. lia.
Qed.

Lemma eternal_testbit fl : has_flag fl VARIABLE_INFO_ETERNAL = Z.testbit fl 2.
Proof. apply (has_flag_testbit fl 2). lia. Qed.

Lemma uninitialized_testbit fl :
  has_flag fl VARIABLE_INFO_UNINITIALIZED = Z.testbit fl 4.
Proof. apply (has_flag_testbit fl 4). lia. Qed.

Lemma eternal_set fl other :
  has_flag (Z.lor fl (Z.lor VARIABLE_INFO_ETERNAL other)) VARIABLE_INFO_ETERNAL
  = true.
Proof.
  rewrite eternal_testbit, !Z.lor_spec.
  change (Z.testbit VARIABLE_INFO_ETERNAL 2) with true.
  by rewrite orb_true_r.
Qed.

Lemma eternal_marked fl :
  has_flag (Z.lor fl VARIABLE_INFO_ETERNAL) VARIABLE_INFO_ETERNAL = true.
Proof.
  rewrite eternal_testbit, Z.lor_spec.
  change (Z.testbit VARIABLE_INFO_ETERNAL 2) with true.
  by rewrite orb_true_r.
Qed.

Lemma unused_set_keeps fl mask_bit :
  mask_bit = 2 \/ mask_bit = 4 ->
  Z.testbit (Z.lor fl VARIABLE_INFO_UNUSED) mask_bit = Z.testbit fl mask_bit.
Proof.
  intros [-> | ->]; rewrite Z.lor_spec;
    [change (Z.testbit VARIABLE_INFO_UNUSED 2) with false
    |change (Z.testbit VARIABLE_INFO_UNUSED 4) with false];
    by rewrite orb_false_r.
Qed.

Lemma unused_clear_keeps fl mask_bit :
  mask_bit = 2 \/ mask_bit = 4 ->
  Z.testbit (Z.land fl (to_unsigned 32 (Z.lnot VARIABLE_INFO_UNUSED))) mask_bit
  = Z.testbit fl mask_bit.
Proof.
  intros [-> | ->]; rewrite Z.land_spec;
    [change (Z.testbit (to_unsigned 32 (Z.lnot VARIABLE_INFO_UNUSED)) 2) with true
    |change (Z.testbit (to_unsigned 32 (Z.lnot VARIABLE_INFO_UNUSED)) 4) with true];
    by rewrite andb_true_r.
Qed.

(** The address-load test of the primary operands accepts every variable
    operand: [flags | ADDRESS] is never zero. *)
Lemma address_load_is_variable operand :
  operand_is_variable_address_load operand = operand_is_variable operand.
Proof.
  unfold operand_is_variable_address_load.
  destruct (operand_is_variable operand); [|done]. cbn [andb].
  apply negb_true_iff, Z.eqb_neq. intros H.
  assert (Hbit : Z.testbit (Z.lor (info_flags operand) OPERAND_FLAG_ADDRESS) 0 = true).
  { rewrite Z.lor_spec. change (Z.testbit OPERAND_FLAG_ADDRESS 0) with true.
    by rewrite orb_true_r. }
  rewrite H in Hbit. discriminate Hbit.
Qed.

End Flags.

Section JumpScan.

Variable a_infos : list OpcodeInfo.
Hypothesis Hchain : label_chain a_infos.

Lemma scan_labels_spec fuel : forall pos minimum m m',
  0 <= m ->
  scan_labels fuel a_infos pos minimum m = Some m' ->
  m <= m'
  /\ (minimum <= pos -> 0 <= pos < Z.of_nat (length a_infos))
  /\ (forall (j : nat) info, minimum <= Z.of_nat j <= pos ->
        a_infos !! j = Some info -> jump_from info <= m')
  /\ (m' = m \/ exists (j : nat) info,
                  a_infos !! j = Some info /\ jump_from info = m').
Proof.
  induction fuel as [|fuel IH]; intros pos minimum m m' Hm H; [done|].
  cbn [scan_labels] in H. destruct (pos >=? minimum) eqn:E; zbool.
  - destruct (at_index a_infos pos) as [info|] eqn:Hpos; [|done].
    cbn [mbind option_bind] in H.
    apply at_index_Some in Hpos as [Hr Hpos].
    destruct (Hchain _ _ Hpos) as [Hpl Hgap].
    rewrite Z2Nat.id in Hpl, Hgap by lia.
    set (m1 := if jump_from info >? m then jump_from info else m) in *.
    assert (Hm1 : m <= m1 /\ jump_from info <= m1
                  /\ (m1 = m \/ m1 = jump_from info)).
    { unfold m1. destruct (jump_from info >? m) eqn:E1; zbool; lia. }
    assert (Hm1' : 0 <= m1) by lia.
    destruct (IH _ _ _ _ Hm1' H) as (Hle & _ & Hall & Hfrom).
    split; [lia|]. split; [lia|]. split.
    + intros j info_j Hj Hlj.
      destruct (Z.le_gt_cases (Z.of_nat j) (previous_label info)) as [Hlow|Hhigh].
      * eapply Hall; [|exact Hlj]. lia.
      * destruct (decide (Z.of_nat j = pos)) as [Heq|Hne].
        -- rewrite <- Heq, Nat2Z.id in Hpos. rewrite Hpos in Hlj.
           injection Hlj as <-. lia.
        -- assert (jump_from info_j < 0)
             by (eapply Hgap; [|exact Hlj]; lia). lia.
    + destruct Hfrom as [->|Hex]; [|by right].
      destruct Hm1 as (_ & _ & [->| ->]); [by left|right; eauto].
  - injection H as <-. split; [lia|]. split; [lia|]. split; [|by left].
    intros; lia.
Qed.

Lemma scan_jumps_spec fuel : forall max_jmp_pos minimum maximum,
  0 <= max_jmp_pos -> minimum <= max_jmp_pos ->
  scan_jumps fuel a_infos max_jmp_pos minimum = Some maximum ->
  max_jmp_pos < maximum <= Z.of_nat (length a_infos)
  /\ forall (j : nat) info, minimum <= Z.of_nat j < maximum ->
       a_infos !! j = Some info -> jump_from info < maximum.
Proof.
  induction fuel as [|fuel IH]; intros mjp minimum maximum H0 Hmin H; [done|].
  cbn [scan_jumps] in H. unfold int_add in H.
  destruct ((INT_MIN <=? mjp + 1) && (mjp + 1 <=? INT_MAX)); [|done].
  cbn [mbind option_bind] in H.
  destruct (scan_labels (S (length a_infos)) a_infos mjp minimum mjp)
    as [m'|] eqn:Hscan; [|done].
  cbn [mbind option_bind] in H.
  destruct (scan_labels_spec _ _ _ _ _ H0 Hscan) as (Hle & Hpos & Hall & _).
  specialize (Hpos Hmin).
  destruct (m' >=? mjp + 1) eqn:E; zbool.
  - assert (Hm0 : 0 <= m') by lia. assert (Hm1 : mjp + 1 <= m') by lia.
    destruct (IH _ _ _ Hm0 Hm1 H) as [Hb Hnew].
    split; [lia|]. intros j info Hj Hlj.
    destruct (Z.le_gt_cases (Z.of_nat j) mjp) as [Hlow|Hhigh].
    + assert (jump_from info <= m') by (eapply Hall; [|exact Hlj]; lia). lia.
    + eapply Hnew; [|exact Hlj]. lia.
  - injection H as <-. split; [lia|]. intros j info Hj Hlj.
    assert (jump_from info <= m') by (eapply Hall; [|exact Hlj]; lia). lia.
Qed.

Lemma scan_labels_defined fuel : forall pos minimum m,
  0 <= minimum -> -1 <= pos < Z.of_nat (length a_infos) ->
  pos + 1 < Z.of_nat fuel ->
  is_Some (scan_labels fuel a_infos pos minimum m).
Proof.
  induction fuel as [|fuel IH]; intros pos minimum m Hmin Hpos Hfuel; [lia|].
  cbn [scan_labels]. destruct (pos >=? minimum) eqn:E; [|by eexists]. zbool.
  destruct (at_index_defined a_infos pos) as [info Hi]; [lia|].
  rewrite Hi. cbn [mbind option_bind].
  apply at_index_Some in Hi as [_ Hi].
  destruct (Hchain _ _ Hi) as [Hpl _]. rewrite Z2Nat.id in Hpl by lia.
  apply IH; lia.
Qed.

Hypothesis Hsources :
  forall (j : nat) info, a_infos !! j = Some info ->
    jump_from info < Z.of_nat (length a_infos).
Hypothesis Hsize : Z.of_nat (length a_infos) <= INT_MAX.

Lemma scan_jumps_defined fuel : forall max_jmp_pos minimum,
  0 <= minimum -> 0 <= max_jmp_pos < Z.of_nat (length a_infos) ->
  Z.of_nat (length a_infos) - max_jmp_pos <= Z.of_nat fuel ->
  is_Some (scan_jumps fuel a_infos max_jmp_pos minimum).
Proof.
  induction fuel as [|fuel IH]; intros mjp minimum Hmin Hpos Hfuel; [lia|].
  cbn [scan_jumps]. unfold int_add.
  destruct ((INT_MIN <=? mjp + 1) && (mjp + 1 <=? INT_MAX)) eqn:E.
  2:{ apply andb_false_iff in E as [E|E]; zbool; unfold INT_MIN, INT_MAX in *; lia. }
  cbn [mbind option_bind].
  destruct (scan_labels_defined (S (length a_infos)) mjp minimum mjp)
    as [m' Hscan]; [lia|lia|lia|].
  rewrite Hscan. cbn [mbind option_bind].
  assert (Hm0 : 0 <= mjp) by lia.
  destruct (scan_labels_spec _ _ _ _ _ Hm0 Hscan) as (Hle & _ & _ & Hfrom).
  assert (m' < Z.of_nat (length a_infos)).
  { destruct Hfrom as [->|(j & info & Hj & <-)]; [lia|]. by eapply Hsources. }
  destruct (m' >=? mjp + 1) eqn:E1; [|by eexists]. zbool.
  apply IH; lia.
Qed.

End JumpScan.

Section Extension.

Variable a_infos : list OpcodeInfo.
Hypothesis Hchain : label_chain a_infos.

Lemma lifetime_inv_iff (P Q : Prop) var :
  (P <-> Q) -> lifetime_inv a_infos P var -> lifetime_inv a_infos Q var.
Proof. unfold lifetime_inv. tauto. Qed.

Lemma extend_eternal var index pure_assignment :
  is_eternal var = true ->
  extend_variable_lifetime a_infos var index pure_assignment = Some var.
Proof.
  unfold is_eternal, extend_variable_lifetime. intros ->.
  by rewrite orb_true_r.
Qed.

Lemma extend_lifetime_inv (touched : Prop) var index pure_assignment var' :
  0 <= index < Z.of_nat (length a_infos) ->
  lifetime_inv a_infos touched var ->
  extend_variable_lifetime a_infos var index pure_assignment = Some var' ->
  lifetime_inv a_infos True var'.
Proof.
  intros Hidx Hinv H.
  destruct (is_eternal var) eqn:Het.
  { rewrite extend_eternal in H by done. injection H as <-. by left. }
  destruct Hinv as [Hinv|[Hun Hinv]]; [congruence|].
  unfold is_eternal in Het. unfold extend_variable_lifetime in H.
  rewrite Het, Hun, !orb_false_r in H.
  destruct (lifetime_end var >=? index) eqn:Eguard.
  { injection H as <-. right. split; [done|].
    destruct Hinv as [(? & ? & ?)|(? & ? & ? & ?)]; [zbool; lia|].
    right. repeat split; try done; lia. }
  zbool. destruct (lifetime_start var =? -1) eqn:Estart; zbool.
  - destruct pure_assignment.
    + unfold int_add in H.
      destruct ((INT_MIN <=? index + 1) && (index + 1 <=? INT_MAX)); [|done].
      injection H as <-. right. cbn.
      rewrite uninitialized_testbit, unused_set_keeps, <- uninitialized_testbit
        by auto.
      split; [done|]. right. repeat split; try lia.
      intros j info Hj. cbn in Hj. lia.
    + injection H as <-. left. unfold is_eternal. cbn. apply eternal_set.
  - destruct Hinv as [(? & ? & ?)|(Hb & Hn & _ & Hcl)]; [lia|].
    destruct (lifetime_end var <? lifetime_start var) eqn:Emin; zbool; [lia|].
    destruct (scan_jumps _ a_infos index (lifetime_end var)) as [maximum|] eqn:Hs;
      [|done].
    injection H as <-.
    assert (Hi0 : 0 <= index) by lia.
    assert (Hi1 : lifetime_end var <= index) by lia.
    destruct (scan_jumps_spec a_infos Hchain _ _ _ _ Hi0 Hi1 Hs) as [Hmax Hnew].
    right. cbn. split.
    + destruct pure_assignment;
        rewrite uninitialized_testbit, ?unused_set_keeps, ?unused_clear_keeps,
          <- uninitialized_testbit by auto; done.
    + right. repeat split; try lia.
      intros j info Hj Hlj. cbn in Hj |- *.
      destruct (Z.lt_ge_cases (Z.of_nat j) (lifetime_end var)) as [Hold|Hnew'].
      * assert (jump_from info < lifetime_end var)
          by (eapply Hcl; [|exact Hlj]; lia). lia.
      * eapply Hnew; [|exact Hlj]. lia.
Qed.

Hypothesis Hsources :
  forall (j : nat) info, a_infos !! j = Some info ->
    jump_from info < Z.of_nat (length a_infos).
Hypothesis Hsize : Z.of_nat (length a_infos) <= INT_MAX.

Lemma extend_defined (touched : Prop) var index pure_assignment :
  0 <= index < Z.of_nat (length a_infos) ->
  lifetime_inv a_infos touched var ->
  is_Some (extend_variable_lifetime a_infos var index pure_assignment).
Proof.
  intros Hidx Hinv.
  destruct (is_eternal var) eqn:Het.
  { rewrite extend_eternal by done. by eexists. }
  destruct Hinv as [Hinv|[Hun Hinv]]; [congruence|].
  unfold is_eternal in Het. unfold extend_variable_lifetime.
  rewrite Het, Hun, !orb_false_r.
  destruct (lifetime_end var >=? index) eqn:Eguard; [by eexists|].
  zbool. destruct (lifetime_start var =? -1) eqn:Estart; zbool.
  - destruct pure_assignment; [|by eexists].
    unfold int_add.
    destruct ((INT_MIN <=? index + 1) && (index + 1 <=? INT_MAX)) eqn:E;
      [by eexists|].
    apply andb_false_iff in E as [E|E]; zbool; unfold INT_MIN, INT_MAX in *; lia.
  - destruct Hinv as [(? & ? & ?)|(Hb & Hn & _ & Hcl)]; [lia|].
    destruct (lifetime_end var <? lifetime_start var) eqn:Emin; zbool; [lia|].
    destruct (scan_jumps_defined a_infos Hchain Hsources Hsize
                (S (length a_infos)) index (lifetime_end var))
      as [maximum Hs]; [lia|lia|lia|].
    rewrite Hs. by eexists.
Qed.

End Extension.

Section RecordUpdates.

Variable a_infos : list OpcodeInfo.

Lemma extend_variable_shape vars ref index pure_assignment vars' :
  extend_variable a_infos vars ref index pure_assignment = Some vars' ->
  exists var var',
    0 <= ref < Z.of_nat (length vars)
    /\ vars !! Z.to_nat ref = Some var
    /\ extend_variable_lifetime a_infos var index pure_assignment = Some var'
    /\ vars' = <[Z.to_nat ref := var']> vars.
Proof.
  unfold extend_variable. intros H.
  destruct (at_index vars ref) as [var|] eqn:Hv; [|done].
  cbn [mbind option_bind] in H.
  destruct (extend_variable_lifetime a_infos var index pure_assignment)
    as [var'|] eqn:He; [|done].
  injection H as <-. apply at_index_Some in Hv as [Hr Hv].
  by exists var, var'.
Qed.

Lemma mark_eternal_shape vars ref vars' :
  mark_eternal vars ref = Some vars' ->
  exists var var',
    0 <= ref < Z.of_nat (length vars)
    /\ vars !! Z.to_nat ref = Some var
    /\ is_eternal var' = true
    /\ vars' = <[Z.to_nat ref := var']> vars.
Proof.
  unfold mark_eternal. intros H.
  destruct (at_index vars ref) as [var|] eqn:Hv; [|done].
  injection H as <-. apply at_index_Some in Hv as [Hr Hv].
  eexists var, _. split; [done|]. split; [done|]. split; [|done].
  apply eternal_marked.
Qed.

(** The treatment of a primary operand never reaches its second branch. *)
Lemma visit_primary_eq vars operand reads index :
  visit_primary a_infos vars operand reads index
  = if operand_is_variable operand then mark_eternal vars (ref_id operand)
    else Some vars.
Proof.
  unfold visit_primary. rewrite address_load_is_variable.
  by destruct (operand_is_variable operand).
Qed.

Lemma keeps_eternal_refl vars : keeps_eternal vars vars.
Proof. split; [done|]. eauto. Qed.

Lemma keeps_eternal_trans vars1 vars2 vars3 :
  keeps_eternal vars1 vars2 -> keeps_eternal vars2 vars3 ->
  keeps_eternal vars1 vars3.
Proof.
  intros [Hl1 H1] [Hl2 H2]. split; [congruence|].
  intros v var Hv He. destruct (H1 v var Hv He) as (var' & Hv' & He'). eauto.
Qed.

Lemma extend_variable_keeps vars ref index pure_assignment vars' :
  extend_variable a_infos vars ref index pure_assignment = Some vars' ->
  keeps_eternal vars vars'.
Proof.
  intros H. apply extend_variable_shape in H as (var & var' & Hr & Hv & He & ->).
  split; [by rewrite length_insert|]. intros v var0 Hv0 Het.
  destruct (decide (v = Z.to_nat ref)) as [->|Hne].
  - rewrite Hv in Hv0. injection Hv0 as <-.
    rewrite extend_eternal in He by done. injection He as <-.
    exists var. split; [|done]. apply list_lookup_insert_eq. lia.
  - exists var0. by rewrite list_lookup_insert_ne.
Qed.

Lemma mark_eternal_keeps vars ref vars' :
  mark_eternal vars ref = Some vars' ->
  keeps_eternal vars vars'
  /\ 0 <= ref
  /\ exists var', vars' !! Z.to_nat ref = Some var' /\ is_eternal var' = true.
Proof.
  intros H. apply mark_eternal_shape in H as (var & var' & Hr & Hv & He & ->).
  split; [|split; [lia|]].
  - split; [by rewrite length_insert|]. intros v var0 Hv0 Het.
    destruct (decide (v = Z.to_nat ref)) as [->|Hne].
    + exists var'. split; [|done]. apply list_lookup_insert_eq. lia.
    + exists var0. by rewrite list_lookup_insert_ne.
  - exists var'. split; [|done]. apply list_lookup_insert_eq. lia.
Qed.

Lemma visit_primary_keeps vars operand reads index vars' :
  visit_primary a_infos vars operand reads index = Some vars' ->
  keeps_eternal vars vars'
  /\ forall v, primary_visit operand v ->
       exists var', vars' !! v = Some var' /\ is_eternal var' = true.
Proof.
  rewrite visit_primary_eq. intros H.
  destruct (operand_is_variable operand) eqn:Hvar.
  - apply mark_eternal_keeps in H as (Hk & H0 & var' & Hv' & He).
    split; [done|]. intros v [_ Href]. exists var'.
    rewrite Href, Nat2Z.id in Hv'. done.
  - injection H as <-. split; [apply keeps_eternal_refl|].
    intros v [Hv _]. congruence.
Qed.

Lemma visit_opcode_keeps i op vars vars' :
  visit_opcode a_infos i op vars = Some vars' ->
  keeps_eternal vars vars'
  /\ forall v, primary_visit (primary_1 op) v \/ primary_visit (primary_2 op) v ->
       exists var', vars' !! v = Some var' /\ is_eternal var' = true.
Proof.
  unfold visit_opcode. intros H.
  match type of H with (?s ≫= _) = _ => destruct s as [vars1|] eqn:H1 end;
    [|done].
  cbn [mbind option_bind] in H.
  match type of H with (?s ≫= _) = _ => destruct s as [vars2|] eqn:H2 end;
    [|done].
  cbn [mbind option_bind] in H.
  assert (K1 : keeps_eternal vars vars1).
  { destruct (_ && _) in H1.
    - by eapply extend_variable_keeps.
    - injection H1 as <-. apply keeps_eternal_refl. }
  apply visit_primary_keeps in H2 as [K2 E2].
  apply visit_primary_keeps in H as [K3 E3].
  split; [eauto using keeps_eternal_trans|].
  intros v [Hv|Hv]; [|by apply E3].
  destruct (E2 v Hv) as (var2 & Hl2 & He2). by apply (proj2 K3 v var2).
Qed.

Lemma calculate_lifetimes_keeps rest : forall i vars vars',
  calculate_lifetimes a_infos rest i vars = Some vars' ->
  keeps_eternal vars vars'
  /\ forall (k : nat) op v, rest !! k = Some op ->
       primary_visit (primary_1 op) v \/ primary_visit (primary_2 op) v ->
       exists var', vars' !! v = Some var' /\ is_eternal var' = true.
Proof.
  induction rest as [|op rest IH]; intros i vars vars' H.
  - injection H as <-. split; [apply keeps_eternal_refl|]. intros k op v Hk.
    by rewrite lookup_nil in Hk.
  - cbn [calculate_lifetimes] in H.
    destruct (visit_opcode a_infos i op vars) as [vars1|] eqn:H1; [|done].
    cbn [mbind option_bind] in H.
    apply visit_opcode_keeps in H1 as [K1 E1].
    apply IH in H as [K2 E2].
    split; [eauto using keeps_eternal_trans|].
    intros [|k] op' v Hk Hv.
    + injection Hk as <-. destruct (E1 v Hv) as (var1 & Hl1 & He1).
      by apply (proj2 K2 v var1).
    + by apply (E2 k op' v).
Qed.

End RecordUpdates.

Section LifetimeLoop.

Variable ops : list Opcode.
Variable a_infos : list OpcodeInfo.
Hypothesis Hchain : label_chain a_infos.
Hypothesis Hlen : length a_infos = length ops.
Hypothesis Hsize : Z.of_nat (length ops) <= INT_MAX.

Lemma records_inv_iff (P Q : nat -> Prop) vars :
  (forall v, P v <-> Q v) ->
  records_inv a_infos P vars -> records_inv a_infos Q vars.
Proof.
  intros Hiff H v var Hv. eapply lifetime_inv_iff; [apply Hiff|]. by apply H.
Qed.

Lemma extend_variable_inv (touched : nat -> Prop) vars ref index pure_assignment vars' :
  0 <= index < Z.of_nat (length a_infos) ->
  records_inv a_infos touched vars ->
  extend_variable a_infos vars ref index pure_assignment = Some vars' ->
  records_inv a_infos (fun v => touched v \/ ref = Z.of_nat v) vars'.
Proof.
  intros Hidx Hinv H.
  apply extend_variable_shape in H as (var & var' & Hr & Hv & He & ->).
  intros v var0 Hv0. destruct (decide (v = Z.to_nat ref)) as [->|Hne].
  - rewrite list_lookup_insert_eq in Hv0 by lia. injection Hv0 as <-.
    eapply (lifetime_inv_iff _ True); [split; [|done]; intros _; right; lia|].
    eapply extend_lifetime_inv; [done|done| |exact He]. by apply (Hinv _ _ Hv).
  - rewrite list_lookup_insert_ne in Hv0 by done.
    eapply lifetime_inv_iff; [|by apply (Hinv _ _ Hv0)].
    split; [by left|]. intros [?|?]; [done|lia].
Qed.

Lemma mark_eternal_inv (touched : nat -> Prop) vars ref vars' :
  records_inv a_infos touched vars ->
  mark_eternal vars ref = Some vars' ->
  records_inv a_infos (fun v => touched v \/ ref = Z.of_nat v) vars'.
Proof.
  intros Hinv H.
  apply mark_eternal_shape in H as (var & var' & Hr & Hv & He & ->).
  intros v var0 Hv0. destruct (decide (v = Z.to_nat ref)) as [->|Hne].
  - rewrite list_lookup_insert_eq in Hv0 by lia. injection Hv0 as <-. by left.
  - rewrite list_lookup_insert_ne in Hv0 by done.
    eapply lifetime_inv_iff; [|by apply (Hinv _ _ Hv0)].
    split; [by left|]. intros [?|?]; [done|lia].
Qed.

Lemma visit_primary_inv (touched : nat -> Prop) vars operand reads index vars' :
  records_inv a_infos touched vars ->
  visit_primary a_infos vars operand reads index = Some vars' ->
  records_inv a_infos (fun v => touched v \/ primary_visit operand v) vars'.
Proof.
  rewrite visit_primary_eq. intros Hinv H. unfold primary_visit.
  destruct (operand_is_variable operand) eqn:Hvar.
  - eapply records_inv_iff; [|eapply mark_eternal_inv; eauto].
    intros v. cbn. tauto.
  - injection H as <-. eapply records_inv_iff; [|exact Hinv].
    intros v. split; [by left|]. intros [?|[? _]]; [done|congruence].
Qed.

Lemma visit_opcode_inv (touched : nat -> Prop) i op vars vars' :
  (i < length ops)%nat ->
  records_inv a_infos touched vars ->
  visit_opcode a_infos i op vars = Some vars' ->
  records_inv a_infos (fun v => touched v \/ visits op v) vars'.
Proof.
  intros Hi Hinv H. unfold visit_opcode in H.
  assert (Hint : to_int (Z.of_nat i) = Z.of_nat i)
    by (apply to_int_small; unfold INT_MIN, INT_MAX in *; lia).
  rewrite Hint in H.
  match type of H with (?s ≫= _) = _ => destruct s as [vars1|] eqn:H1 end;
    [|done].
  cbn [mbind option_bind] in H.
  match type of H with (?s ≫= _) = _ => destruct s as [vars2|] eqn:H2 end;
    [|done].
  cbn [mbind option_bind] in H.
  assert (I1 : records_inv a_infos (fun v => touched v \/ target_visit op v) vars1).
  { unfold target_visit.
    destruct (operand_is_variable (target op)) eqn:Hvar; cbn [andb] in H1.
    - destruct (opcode_is_pure_assignment op || opcode_modifies_target_operand op)
        eqn:Hmod.
      + eapply records_inv_iff; [|eapply extend_variable_inv; [|exact Hinv|exact H1]].
        * intros v. cbn. tauto.
        * lia.
      + injection H1 as <-. eapply records_inv_iff; [|exact Hinv].
        intros v. split; [by left|]. intros [?|(_ & ? & _)]; [done|congruence].
    - injection H1 as <-. eapply records_inv_iff; [|exact Hinv].
      intros v. split; [by left|]. intros [?|(? & _)]; [done|congruence]. }
  pose proof (visit_primary_inv _ _ _ _ _ _ I1 H2) as I2.
  pose proof (visit_primary_inv _ _ _ _ _ _ I2 H) as I3.
  eapply records_inv_iff; [|exact I3]. intros v. unfold visits. cbn. tauto.
Qed.

Lemma visited_succ (k v : nat) op :
  ops !! k = Some op ->
  (visited ops (S k) v <-> visited ops k v \/ visits op v).
Proof.
  intros Hk. unfold visited. split.
  - intros (i & op' & Hi & Hop & Hv).
    destruct (decide (i = k)) as [->|Hne].
    + right. congruence.
    + left. exists i, op'. repeat split; try done. lia.
  - intros [(i & op' & Hi & Hop & Hv)|Hv].
    + exists i, op'. repeat split; try done. lia.
    + exists k, op. repeat split; try done. lia.
Qed.

Lemma calculate_lifetimes_inv rest : forall pre vars vars',
  ops = pre ++ rest ->
  records_inv a_infos (visited ops (length pre)) vars ->
  calculate_lifetimes a_infos rest (length pre) vars = Some vars' ->
  records_inv a_infos (visited ops (length ops)) vars'.
Proof.
  induction rest as [|op rest IH]; intros pre vars vars' Hops Hinv H.
  - injection H as <-. rewrite Hops, app_nil_r in *. done.
  - cbn [calculate_lifetimes] in H.
    destruct (visit_opcode a_infos (length pre) op vars) as [vars1|] eqn:H1;
      [|done].
    cbn [mbind option_bind] in H.
    assert (Hk : ops !! length pre = Some op)
      by (rewrite Hops; by rewrite list_lookup_middle).
    apply (IH (pre ++ [op]) vars1).
    + by rewrite <- app_assoc.
    + rewrite length_app, Nat.add_1_r.
      eapply records_inv_iff; [|eapply visit_opcode_inv; [|exact Hinv|exact H1]].
      * intros v. symmetry. by apply visited_succ.
      * apply lookup_lt_Some in Hk. lia.
    + by rewrite length_app, Nat.add_1_r.
Qed.

Hypothesis Hsources :
  forall (j : nat) info, a_infos !! j = Some info ->
    jump_from info < Z.of_nat (length a_infos).

Lemma visit_opcode_defined (touched : nat -> Prop) i op vars n :
  (i < length ops)%nat ->
  opcode_in_range n (length vars) op ->
  records_inv a_infos touched vars ->
  is_Some (visit_opcode a_infos i op vars).
Proof.
  intros Hi (_ & Ht & Hp1 & Hp2) Hinv. unfold visit_opcode.
  assert (Hint : to_int (Z.of_nat i) = Z.of_nat i)
    by (apply to_int_small; unfold INT_MIN, INT_MAX in *; lia).
  rewrite Hint.
  assert (Hsz : Z.of_nat (length a_infos) <= INT_MAX) by (rewrite Hlen; lia).
  assert (H1 : exists vars1, length vars1 = length vars /\
    (if operand_is_variable (target op)
        && (opcode_is_pure_assignment op || opcode_modifies_target_operand op)
     then extend_variable a_infos vars (ref_id (target op)) (Z.of_nat i)
            (opcode_is_pure_assignment op)
     else Some vars) = Some vars1).
  { destruct (_ && _) eqn:E; [|by exists vars].
    specialize (Ht eq_refl). unfold extend_variable.
    destruct (at_index_defined vars (ref_id (target op)) Ht) as [var Hv].
    rewrite Hv. cbn [mbind option_bind].
    apply at_index_Some in Hv as [_ Hv].
    destruct (extend_defined a_infos Hchain Hsources Hsz
                (touched (Z.to_nat (ref_id (target op)))) var (Z.of_nat i)
                (opcode_is_pure_assignment op)) as [var' He];
      [lia|by apply (Hinv _ _ Hv)|].
    rewrite He. cbn [mbind option_bind]. eexists. split; [|done].
    by rewrite length_insert. }
  destruct H1 as (vars1 & Hl1 & ->). cbn [mbind option_bind].
  assert (Hprim : forall vars0 operand reads,
            length vars0 = length vars ->
            (operand_is_variable operand = true ->
             0 <= ref_id operand < Z.of_nat (length vars)) ->
            exists vars0', length vars0' = length vars
              /\ visit_primary a_infos vars0 operand reads (Z.of_nat i) = Some vars0').
  { intros vars0 operand reads Hl0 Hr. rewrite visit_primary_eq.
    destruct (operand_is_variable operand); [|by exists vars0].
    unfold mark_eternal.
    destruct (at_index_defined vars0 (ref_id operand)) as [var Hv];
      [rewrite Hl0; by apply Hr|].
    rewrite Hv. cbn [mbind option_bind]. eexists. split; [|done].
    by rewrite length_insert. }
  destruct (Hprim vars1 (primary_1 op) (opcode_read_operand_primary_1 op) Hl1 Hp1)
    as (vars2 & Hl2 & ->).
  cbn [mbind option_bind].
  destruct (Hprim vars2 (primary_2 op) (opcode_read_operand_primary_2 op) Hl2 Hp2)
    as (vars3 & _ & ->).
  by eexists.
Qed.

Lemma calculate_lifetimes_defined n rest : forall pre vars,
  ops = pre ++ rest ->
  records_inv a_infos (visited ops (length pre)) vars ->
  Forall (opcode_in_range n (length vars)) rest ->
  is_Some (calculate_lifetimes a_infos rest (length pre) vars).
Proof.
  induction rest as [|op rest IH]; intros pre vars Hops Hinv Hwf; [by eexists|].
  cbn [calculate_lifetimes].
  assert (Hk : ops !! length pre = Some op)
    by (rewrite Hops; by rewrite list_lookup_middle).
  pose proof (lookup_lt_Some _ _ _ Hk) as Hlt.
  pose proof (Forall_inv Hwf) as Hop. pose proof (Forall_inv_tail Hwf) as Hwf'.
  destruct (visit_opcode_defined _ (length pre) op vars n Hlt Hop Hinv)
    as [vars1 H1].
  rewrite H1. cbn [mbind option_bind].
  pose proof (visit_opcode_inv _ _ _ _ _ Hlt Hinv H1) as I1.
  apply visit_opcode_keeps in H1 as [[Hl1 _] _].
  replace (S (length pre)) with (length (pre ++ [op]))
    by (rewrite length_app; cbn; lia).
  apply IH.
  - by rewrite <- app_assoc.
  - rewrite length_app, Nat.add_1_r.
    eapply records_inv_iff; [|exact I1].
    intros v. symmetry. by apply visited_succ.
  - by rewrite Hl1.
Qed.

End LifetimeLoop.

Section WholeAnalysis.

Lemma well_formed_inv fn :
  well_formed fn = true ->
  Z.of_nat (opcodes_size fn) <= INT_MAX
  /\ Forall (opcode_in_range (opcodes_size fn) (variables_size fn)) (opcodes fn).
Proof.
  unfold well_formed. intros H. apply andb_true_iff in H as [Hsz Hall].
  zbool. split; [done|].
  apply Forall_forall. intros op Hin.
  rewrite forallb_forall in Hall. specialize (Hall op Hin).
  rewrite !andb_true_iff, !orb_true_iff, !negb_true_iff, !in_range_spec in Hall.
  destruct Hall as [[[H1 H2] H3] H4].
  unfold opcode_in_range.
  split; [intros E; by destruct H1 as [H1|H1]; [congruence|]|].
  split; [intros E; by destruct H2 as [H2|H2]; [congruence|]|].
  split; [intros E; by destruct H3 as [H3|H3]; [congruence|]|].
  intros E; by destruct H4 as [H4|H4]; [congruence|].
Qed.

Lemma last_index (n : nat) :
  Z.of_nat n <= INT_MAX ->
  Z.to_nat (to_int (to_size_t (Z.of_nat n - 1)) + 1) = n.
Proof.
  intros H. destruct n as [|n]; [reflexivity|].
  rewrite to_size_t_small by (unfold INT_MAX in *; lia).
  rewrite to_int_small by (unfold INT_MIN, INT_MAX in *; lia). lia.
Qed.

Lemma initial_records_inv a_infos ops n :
  records_inv a_infos (visited ops 0) (replicate n initial_variable).
Proof.
  intros v var Hv. apply lookup_replicate in Hv as [-> _].
  right. split; [reflexivity|]. left. repeat split.
  intros (i & op & Hi & _). lia.
Qed.

(** What a completed analysis leaves in the two arrays. *)
Lemma analyse_function_inv fn raw a :
  analyse_function fn raw = Some a ->
  Z.of_nat (opcodes_size fn) <= INT_MAX ->
  length (infos a) = opcodes_size fn
  /\ length (variable_infos a) = variables_size fn
  /\ label_chain (infos a)
  /\ records_inv (infos a) (visited (opcodes fn) (opcodes_size fn))
       (variable_infos a)
  /\ forall (t : nat) info', infos a !! t = Some info' ->
       (0 <= jump_from (raw t) -> jump_from info' = jump_from (raw t))
       /\ (jump_from (raw t) < 0 ->
           (jump_from info' = jump_from (raw t)
            /\ forall i, ~ jumps_to (opcodes fn) i (Z.of_nat t))
           \/ (exists i, jump_from info' = Z.of_nat i
                 /\ jumps_to (opcodes fn) i (Z.of_nat t)
                 /\ forall i', (i < i')%nat -> ~ jumps_to (opcodes fn) i' (Z.of_nat t))).
Proof.
  unfold analyse_function. intros H Hsz. rewrite last_index in H by done.
  set (a0 := raw <$> seq 0 (opcodes_size fn)) in *.
  assert (Hl0 : length a0 = opcodes_size fn)
    by (unfold a0; by rewrite length_fmap, length_seq).
  destruct (generate_label_data _ _ a0) as [a1|] eqn:H1; [|done].
  cbn [mbind option_bind] in H.
  destruct (build_previous_labels _ 0 (-1) a1) as [a2|] eqn:H2; [|done].
  cbn [mbind option_bind] in H.
  destruct (calculate_lifetimes a2 _ 0 _) as [vars'|] eqn:H3; [|done].
  injection H as <-. cbn [infos variable_infos].
  apply generate_label_data_spec in H1 as [Hl1 Hjf1].
  rewrite <- Hl0, <- Hl1 in H2.
  apply previous_labels_chain in H2 as (Hl2 & Hch & Hjf2); [|lia].
  assert (Hlen : length a2 = length (opcodes fn)) by (unfold opcodes_size in *; lia).
  pose proof (calculate_lifetimes_inv (opcodes fn) a2 Hch Hlen Hsz
                (opcodes fn) [] _ _ eq_refl (initial_records_inv _ _ _) H3) as Hinv.
  apply calculate_lifetimes_keeps in H3 as [[Hlv _] _].
  split; [lia|]. split; [by rewrite Hlv, length_replicate|].
  split; [done|]. split; [done|].
  intros t info' Ht.
  assert (Ht0 : a0 !! t = Some (raw t)).
  { unfold a0. rewrite list_lookup_fmap.
    apply lookup_lt_Some in Ht.
    rewrite lookup_seq_lt by lia. done. }
  destruct (Hjf1 t _ Ht0) as (info1 & Ht1 & Hkeep & Hnew).
  destruct (Hjf2 t _ Ht1) as (info2 & Ht2 & Heq).
  rewrite Ht in Ht2. injection Ht2 as <-. rewrite Heq.
  split; [done|]. intros Hneg.
  destruct (Hnew Hneg) as [[He Hnone]|(i & Hi & He & Hj & Hnone)].
  - left. split; [done|]. intros i Hj.
    destruct (decide (i < opcodes_size fn)%nat) as [Hlt|Hge]; [by eapply Hnone|].
    destruct Hj as (op & Hop & _). apply lookup_lt_Some in Hop.
    unfold opcodes_size in *. lia.
  - right. exists i. split; [done|]. split; [done|]. intros i' Hi' Hj'.
    destruct (decide (i' < opcodes_size fn)%nat) as [Hlt|Hge];
      [eapply Hnone; [|exact Hj']; lia|].
    destruct Hj' as (op & Hop & _). apply lookup_lt_Some in Hop.
    unfold opcodes_size in *. lia.
Qed.

(** A completed analysis has every variable named by a primary operand
    eternal; no assumption on the function is needed. *)
Lemma analyse_function_eternal fn raw a :
  analyse_function fn raw = Some a ->
  forall (i : nat) op v, opcodes fn !! i = Some op ->
    primary_visit (primary_1 op) v \/ primary_visit (primary_2 op) v ->
    exists var, variable_infos a !! v = Some var /\ is_eternal var = true.
Proof.
  unfold analyse_function. intros H.
  destruct (generate_label_data _ _ _) as [a1|]; [|done].
  cbn [mbind option_bind] in H.
  destruct (build_previous_labels _ 0 (-1) a1) as [a2|]; [|done].
  cbn [mbind option_bind] in H.
  destruct (calculate_lifetimes a2 _ 0 _) as [vars'|] eqn:H3; [|done].
  injection H as <-. cbn [variable_infos].
  apply calculate_lifetimes_keeps in H3 as [_ H3]. exact H3.
Qed.

(** The analysis of a well-formed function runs to its end whenever the
    memory it starts from holds no jump source beyond the function. *)
Lemma analyse_function_defined fn raw :
  well_formed fn = true ->
  raw_in_range raw (opcodes_size fn) ->
  is_Some (analyse_function fn raw).
Proof.
  intros Hwf Hraw. apply well_formed_inv in Hwf as [Hsz Hops].
  unfold analyse_function. rewrite last_index by done.
  set (a0 := raw <$> seq 0 (opcodes_size fn)) in *.
  assert (Hl0 : length a0 = opcodes_size fn)
    by (unfold a0; by rewrite length_fmap, length_seq).
  destruct (generate_label_data_defined (opcodes fn) (opcodes_size fn) a0)
    as [a1 H1]; [done| |].
  { intros op Hin Hj. rewrite Forall_forall in Hops.
    apply list_elem_of_In in Hin. rewrite Hl0. by apply (Hops op Hin). }
  rewrite H1. cbn [mbind option_bind].
  apply generate_label_data_spec in H1 as [Hl1 Hjf1].
  destruct (build_previous_labels_defined (opcodes_size fn) 0 (-1) a1)
    as [a2 H2]; [lia|].
  rewrite H2. cbn [mbind option_bind].
  rewrite <- Hl0, <- Hl1 in H2.
  apply previous_labels_chain in H2 as (Hl2 & Hch & Hjf2); [|lia].
  assert (Hlen : length a2 = length (opcodes fn)) by (unfold opcodes_size in *; lia).
  assert (Hsources : forall (j : nat) info, a2 !! j = Some info ->
            jump_from info < Z.of_nat (length a2)).
  { intros j info Hj. pose proof (lookup_lt_Some _ _ _ Hj) as Hlt.
    assert (Hj0 : a0 !! j = Some (raw j)).
    { unfold a0. rewrite list_lookup_fmap, lookup_seq_lt by lia. done. }
    destruct (Hjf1 j _ Hj0) as (info1 & Hj1 & Hkeep & Hnew).
    destruct (Hjf2 j _ Hj1) as (info2 & Hj2 & Heq).
    rewrite Hj in Hj2. injection Hj2 as <-. rewrite Heq.
    specialize (Hraw j ltac:(lia)).
    destruct (Z.lt_ge_cases (jump_from (raw j)) 0) as [Hneg|Hpos].
    - destruct (Hnew Hneg) as [[He _]|(i & Hi & He & _)]; lia.
    - rewrite Hkeep by done. lia. }
  destruct (calculate_lifetimes_defined (opcodes fn) a2 Hch Hlen Hsz Hsources
              (opcodes_size fn) (opcodes fn) []
              (replicate (variables_size fn) initial_variable) eq_refl
              (initial_records_inv _ _ _)) as [vars' H3].
  { by rewrite length_replicate. }
  cbn [length] in H3. rewrite H3. by eexists.
Qed.

End WholeAnalysis.

Section AnalysisClaims.

(** Whatever the memory the analysis starts from, on the counting loop a
    completed analysis has both variables eternal. *)
Lemma counting_loop_eternal raw a :
  analyse_function counting_loop raw = Some a ->
  exists v0 v1, variable_infos a = [v0; v1]
                /\ is_eternal v0 = true /\ is_eternal v1 = true.
Proof.
  intros H.
  destruct (analyse_function_inv _ _ _ H) as (_ & Hlen & _); [by vm_compute|].
  destruct (variable_infos a) as [|v0 [|v1 [|? ?]]] eqn:Hv; try discriminate Hlen.
  exists v0, v1. split; [done|].
  pose proof (analyse_function_eternal _ _ _ H 2%nat _ 0%nat eq_refl) as H0.
  pose proof (analyse_function_eternal _ _ _ H 2%nat _ 1%nat eq_refl) as H1.
  rewrite Hv in H0, H1.
  destruct H0 as (x0 & [= <-] & E0); [left; by split|].
  destruct H1 as (x1 & [= <-] & E1); [right; by split|].
  done.
Qed.

(** C1. On the six-opcode counting loop the analysis does not produce what
    the scenario expects: started from memory that holds -1, it leaves v0
    with the lifetime [0, 5) and v1 with [1, 2), and both flagged eternal
    (flags 4 and 6), where [0, 6) and [1, 5) without the eternal flag are
    expected. *)
Theorem counting_loop_analysis :
  analyse_function counting_loop raw_minus_one
  = Some {| infos := [ {| previous_label := -1; jump_from := -1 |};
                       {| previous_label := -1; jump_from := -1 |};
                       {| previous_label := -1; jump_from := 4 |};
                       {| previous_label := 2; jump_from := -1 |};
                       {| previous_label := 2; jump_from := -1 |};
                       {| previous_label := 2; jump_from := 3 |} ];
            variable_infos :=
              [ {| lifetime_start := 0; lifetime_end := 5; flags := 4 |};
                {| lifetime_start := 1; lifetime_end := 2; flags := 6 |} ] |}
  /\ is_eternal {| lifetime_start := 0; lifetime_end := 5; flags := 4 |} = true
  /\ is_eternal {| lifetime_start := 1; lifetime_end := 2; flags := 6 |} = true.
Proof. repeat split. Qed.

(** When the memory behind [a->infos] holds -1, the first pass records for
    every index the highest jump that goes to it, and -1 when none does. *)
Lemma jump_sources_blank_memory fn raw a :
  analyse_function fn raw = Some a ->
  Z.of_nat (opcodes_size fn) <= INT_MAX ->
  (forall t, jump_from (raw t) = -1) ->
  forall (t : nat) info, infos a !! t = Some info ->
    latest_jump_to (opcodes fn) (Z.of_nat t) (jump_from info).
Proof.
  intros H Hsz Hraw t info Ht.
  destruct (analyse_function_inv _ _ _ H Hsz) as (_ & _ & _ & _ & Hjf).
  destruct (Hjf t info Ht) as [_ Hnew]. rewrite Hraw in Hnew.
  destruct Hnew as [[-> Hnone]|(i & -> & Hj & Hnone)]; [lia| |].
  - by left.
  - right. rewrite Nat2Z.id. split; [lia|]. by split.
Qed.

(** C4. The analysis never writes -1 into [jump_from]: it reads what the
    allocation holds.  On the backward jump [0: NOP; 1: GOTO 0], started
    from memory that holds zeros, it leaves [jump_from] at 0 for both
    indices, whereas the highest jump to index 0 is at index 1 and no jump
    goes to index 1. *)
Theorem jump_sources_stale_memory :
  exists a,
    analyse_function backward_jump raw_zero = Some a
    /\ jump_from <$> infos a = [0; 0]
    /\ latest_jump_to (opcodes backward_jump) 0 1
    /\ latest_jump_to (opcodes backward_jump) 1 (-1).
Proof.
  eexists. split; [reflexivity|]. split; [reflexivity|]. split.
  - right. split; [lia|]. split.
    + eexists. repeat split; reflexivity.
    + intros i Hi (op & Hop & _). apply lookup_lt_Some in Hop.
      cbn in Hop, Hi. lia.
  - left. split; [done|]. intros [|[|i]] (op & Hop & Hj & Ht).
    + injection Hop as <-. discriminate Hj.
    + injection Hop as <-. discriminate Ht.
    + apply lookup_lt_Some in Hop. cbn in Hop. lia.
Qed.




(** C9. After the analysis of a well-formed function every variable of the
    function has its record; a variable that is not eternal has
    lifetime_start = -1 exactly when the lifetime loop never touched its
    record, and otherwise
    0 <= lifetime_start <= lifetime_end <= number of opcodes.  The analysis
    is defined when the memory it starts from holds no jump source beyond
    the function. *)
Theorem lifetime_bounds (fn : Function) (raw : nat -> OpcodeInfo) :
  well_formed fn = true ->
  (raw_in_range raw (opcodes_size fn) -> is_Some (analyse_function fn raw))
  /\ forall a, analyse_function fn raw = Some a ->
       length (variable_infos a) = variables_size fn
       /\ forall (v : nat) var, variable_infos a !! v = Some var ->
            is_eternal var = false ->
            (lifetime_start var = -1
             <-> ~ visited (opcodes fn) (opcodes_size fn) v)
            /\ (lifetime_start var <> -1 ->
                0 <= lifetime_start var <= lifetime_end var
                /\ lifetime_end var <= Z.of_nat (opcodes_size fn)).
Proof.
  intros Hwf. split; [by apply analyse_function_defined|].
  intros a H.
  destruct (well_formed_inv _ Hwf) as [Hsz _].
  destruct (analyse_function_inv _ _ _ H Hsz) as (Hlen & Hvlen & _ & Hinv & _).
  split; [done|]. intros v var Hv Het.
  destruct (Hinv v var Hv) as [He|[_ [(Hs & He & Hnv)|(Hb & Hn & Hvis & _)]]].
  - congruence.
  - split; [done|]. intros Hne. lia.
  - split; [split; [lia|done]|]. intros _. lia.
Qed.

Lemma lifetime_bounds_witness :
  let a := {| infos := [ {| previous_label := -1; jump_from := -1 |};
                         {| previous_label := -1; jump_from := 3 |};
                         {| previous_label := 1; jump_from := -1 |};
                         {| previous_label := 1; jump_from := -1 |} ];
              variable_infos :=
                [ {| lifetime_start := 0; lifetime_end := 4; flags := 2 |};
                  {| lifetime_start := -1; lifetime_end := -1; flags := 0 |} ] |} in
  let var0 := {| lifetime_start := 0; lifetime_end := 4; flags := 2 |} in
  let var1 := {| lifetime_start := -1; lifetime_end := -1; flags := 0 |} in
  analyse_function backward_loop raw_minus_one = Some a
  /\ length (variable_infos a) = variables_size backward_loop
  /\ variable_infos a !! 0%nat = Some var0
  /\ variable_infos a !! 1%nat = Some var1
  /\ (is_eternal var0 = false /\ is_eternal var1 = false)
  /\ visited (opcodes backward_loop) (opcodes_size backward_loop) 0
  /\ (0 <= lifetime_start var0 <= lifetime_end var0
      /\ lifetime_end var0 <= Z.of_nat (opcodes_size backward_loop))
  /\ ~ visited (opcodes backward_loop) (opcodes_size backward_loop) 1.
Proof.
  intros a var0 var1.
  destruct (proj2 (lifetime_bounds backward_loop raw_minus_one eq_refl) a eq_refl)
    as (Hvlen & Hall).
  split; [reflexivity|]. split; [exact Hvlen|].
  split; [reflexivity|]. split; [reflexivity|]. split; [by split|].
  destruct (Hall 0%nat var0 eq_refl eq_refl) as [Hiff0 Hb0].
  destruct (Hall 1%nat var1 eq_refl eq_refl) as [Hiff1 _].
  split; [|split].
  - exists 0%nat. eexists. split; [cbn; lia|]. split; [reflexivity|].
    left. repeat split; reflexivity.
  - apply Hb0. discriminate.
  - apply Hiff1. reflexivity.
Defined.

(** C10. After the analysis of any function, every variable that a
    variable-typed operand names in the primary_1 or primary_2 position of
    some opcode is flagged eternal, whatever the flags of the operand.  The
    analysis is defined for a well-formed function when the memory it starts
    from holds no jump source beyond the function. *)
Theorem primary_operands_eternal (fn : Function) (raw : nat -> OpcodeInfo) :
  (well_formed fn = true -> raw_in_range raw (opcodes_size fn) ->
   is_Some (analyse_function fn raw))
  /\ forall a, analyse_function fn raw = Some a ->
       forall (i : nat) op operand (v : nat),
         opcodes fn !! i = Some op ->
         operand = primary_1 op \/ operand = primary_2 op ->
         info_type operand = OPERAND_INFO_TYPE_VARIABLE ->
         ref_id operand = Z.of_nat v ->
         exists var, variable_infos a !! v = Some var
                     /\ has_flag (flags var) VARIABLE_INFO_ETERNAL = true.
Proof.
  split; [apply analyse_function_defined|].
  intros a H i op operand v Hop Hpos Hty Href.
  apply (analyse_function_eternal _ _ _ H i op v Hop).
  unfold primary_visit, operand_is_variable.
  destruct Hpos as [<-| <-]; [left|right]; (split; [by apply Z.eqb_eq|done]).
Qed.

Lemma primary_operands_eternal_witness :
  is_Some (analyse_function counting_loop raw_minus_one)
  /\ forall a, analyse_function counting_loop raw_minus_one = Some a ->
       exists var, variable_infos a !! 1%nat = Some var
                   /\ has_flag (flags var) VARIABLE_INFO_ETERNAL = true.
Proof.
  split.
  - apply (primary_operands_eternal counting_loop raw_minus_one);
      [reflexivity|]. intros i _. cbn. lia.
  - intros a H.
    apply (proj2 (primary_operands_eternal counting_loop raw_minus_one) a H
             2%nat _ (var_ 1) 1%nat eq_refl); [by right|reflexivity|reflexivity].
Defined.

End AnalysisClaims.

(** * Further properties of the encoder *)

Section InstructionSizes.

Lemma emit_size enc e :
  buffer_size (emit enc e) = buffer_size enc + emit_length e.
Proof.
  unfold buffer_size.
  destruct e; cbn [emit emit_length];
    unfold x86_encoder_write_jmp, x86_encoder_write_jmp_cond,
      x86_encoder_add_relocation,
      x86_encoder_write_jmp_reg, x86_encoder_write_cmp_reg,
      x86_encoder_write_modrm, x86_encoder_write_modrm_32,
      x86_encoder_write_modrm_16, x86_encoder_write_modrm_8,
      x86_encoder_write_modrm_rex, x86_encoder_write_mov_imm_64,
      x86_encoder_write_mov_imm_32, x86_encoder_write_mov_imm_16,
      x86_encoder_write_mov_imm_8, x86_encoder_write_push,
      x86_encoder_write_pop, x86_encoder_write_ret, x86_encoder_write_nop,
      _x86_encoder_prepare_modrm_rex, ENC_ADVANCE; cbn [buffer];
    rewrite !length_app, ?le_bytes_length; cbn [length]; lia.
Qed.

Lemma emit_within_reserved e : 0 < emit_length e <= reserved e.
Proof. destruct e; cbn; lia. Qed.

Lemma step_size enc c enc' ids :
  step enc c = Some (enc', ids) ->
  buffer_size enc' = buffer_size enc + code_size [c].
Proof.
  destruct c as [|l|e]; cbn [step code_size].
  - intros [= <- <-]. unfold buffer_size. cbn. lia.
  - destruct (x86_encoder_move_label enc l) as [enc1|] eqn:E; [|done].
    cbn. intros [= <- <-]. apply move_label_inv in E as (_ & Hb & _).
    unfold buffer_size. rewrite Hb. lia.
  - intros [= <- <-]. rewrite emit_size. lia.
Qed.

Lemma run_buffer_size (cs : list encoder_call) (enc0 enc : x86_encoder)
    (ids : list Z) :
  run cs enc0 = Some (enc, ids) ->
  buffer_size enc = buffer_size enc0 + code_size cs.
Proof.
  revert enc0 ids. induction cs as [|c cs IH]; intros enc0 ids H.
  - injection H as <- <-. cbn. lia.
  - apply run_cons in H as (e1 & i1 & i2 & Hs & Hr & _).
    apply step_size in Hs. apply IH in Hr. rewrite Hr, Hs.
    destruct c; cbn [code_size]; lia.
Qed.

(** X1. Along any call sequence the buffer grows by exactly the lengths of
    the instructions emitted; creating and moving labels adds no byte. *)
Theorem buffer_size_of_run (cs : list encoder_call) (enc0 enc : x86_encoder)
    (ids : list Z) :
  run cs enc0 = Some (enc, ids) ->
  buffer_size enc = buffer_size enc0 + code_size cs.
Proof. apply run_buffer_size. Qed.

Lemma buffer_size_of_run_witness :
  buffer_size {| buffer := [0x48; 0x31; 0xC0; 0x90; 0xE9; 0; 0; 0; 0];
                 labels := [3]; labels_spare := fresh_entries 1023;
                 relocations := [{| offset := 5; label := 0; relative := 1 |}] |}
  = buffer_size x86_encoder_zero
    + code_size [CallEmit (EmitModrm 0x31 0 0); CallAddLabel;
                 CallEmit EmitNop; CallEmit (EmitJmp 0 0)].
Proof.
  apply (buffer_size_of_run _ _ _ [0]). reflexivity.
Defined.

End InstructionSizes.

Section Capacities.



(** The label capacity kept beside the contents is the room of the label
    block. *)
Lemma labels_capacity_room : forall cs enc0 caps0 enc caps,
  run_capacities cs enc0 caps0 = Some (enc, caps) ->
  labels_capacity caps0 = labels_room enc0 ->
  labels_capacity caps = labels_room enc.
Proof.
  induction cs as [|c cs IH]; intros enc0 caps0 enc caps H H0.
  - by injection H as <- <-.
  - cbn [run_capacities] in H.
    destruct (step enc0 c) as [[enc1 ids1]|] eqn:Hs; [|done].
    cbn [mbind option_bind] in H. eapply IH; [exact H|]. clear IH H.
    destruct c as [|l|e]; cbn [step step_capacities] in *.
    + unfold x86_encoder_add_label in Hs. injection Hs as <- <-.
      unfold add_label_capacity. rewrite H0.
      unfold labels_room, labels_size. cbn [labels labels_spare].
      rewrite length_app. cbn [length].
      destruct (_ >=? _) eqn:E; zbool; cbn [labels_capacity].
      * rewrite length_tl, length_app. unfold fresh_entries.
        rewrite length_replicate. unfold labels_room, labels_size in H0. lia.
      * unfold labels_room, labels_size in E, H0. rewrite length_tl. lia.
    + destruct (x86_encoder_move_label enc0 l) as [enc2|] eqn:E; [|done].
      cbn in Hs. injection Hs as <- <-.
      apply move_label_inv in E as (_ & _ & Hlab & _ & _ & Hlen & _).
      unfold labels_room, labels_size in *.
      rewrite Hlab, length_insert, Hlen. done.
    + injection Hs as <- <-.
      assert (Hroom : labels_room (emit enc0 e) = labels_room enc0).
      { unfold labels_room, labels_size. rewrite emit_spare.
        by destruct (emit_shape enc0 e) as (? & ? & _ & -> & _). }
      rewrite Hroom, <- H0.
      unfold x86_encoder_check_buffer, add_relocation_capacity.
      destruct (jump_placeholder e); repeat (case_match; cbn [labels_capacity]);
        done.
Qed.



End Capacities.

Section RelocationTable.

Lemma emit_relocations enc e :
  relocations (emit enc e)
  = relocations enc ++ expected_relocations [CallEmit e] (buffer_size enc).
Proof.
  destruct e as [o r1 r2 w|c l|c l|c r|r1 r2|o r1 r2|o r1 r2|o r1 r2|o r1 r2
                |r v|r v|r v|r v|r|r| |];
    cbn [expected_relocations jump_placeholder emit];
    try (unfold x86_encoder_write_jmp_reg, x86_encoder_write_cmp_reg,
           x86_encoder_write_modrm, x86_encoder_write_modrm_32,
           x86_encoder_write_modrm_16, x86_encoder_write_modrm_8,
           x86_encoder_write_modrm_rex, x86_encoder_write_mov_imm_64,
           x86_encoder_write_mov_imm_32, x86_encoder_write_mov_imm_16,
           x86_encoder_write_mov_imm_8, x86_encoder_write_push,
           x86_encoder_write_pop, x86_encoder_write_ret, x86_encoder_write_nop,
           ENC_ADVANCE; cbn [relocations]; by rewrite app_nil_r).
  - by destruct (write_jmp_appends enc c l) as (_ & _ & -> & _).
  - by destruct (write_jmp_cond_appends enc c l) as (_ & _ & -> & _).
Qed.

Lemma run_relocations (cs : list encoder_call) (enc0 enc : x86_encoder)
    (ids : list Z) :
  run cs enc0 = Some (enc, ids) ->
  relocations enc
  = relocations enc0 ++ expected_relocations cs (buffer_size enc0).
Proof.
  revert enc0 ids. induction cs as [|c cs IH]; intros enc0 ids H.
  - injection H as <- <-. cbn. by rewrite app_nil_r.
  - apply run_cons in H as (e1 & i1 & i2 & Hs & Hr & _).
    pose proof (step_size _ _ _ _ Hs) as Hsz.
    apply IH in Hr. rewrite Hr, Hsz. clear IH Hr.
    destruct c as [|l|e]; cbn [step code_size expected_relocations] in *.
    + injection Hs as <- <-. cbn [relocations]. by rewrite Z.add_0_r.
    + destruct (x86_encoder_move_label enc0 l) as [enc1|] eqn:E; [|done].
      cbn in Hs. injection Hs as <- <-.
      apply move_label_inv in E as (_ & _ & _ & -> & _). by rewrite Z.add_0_r.
    + injection Hs as <- <-. rewrite emit_relocations.
      cbn [expected_relocations]. rewrite Z.add_0_r.
      destruct (jump_placeholder e) as [[skip l]|];
        by rewrite <- ?app_assoc.
Qed.

(** X3. The relocation table mirrors the jumps of the call sequence: one
    relative relocation per emitted jump, call or conditional jump, in
    emission order, at the position of its placeholder and for its label;
    no other call records or removes a relocation. *)
Theorem relocations_of_run (cs : list encoder_call) (enc0 enc : x86_encoder)
    (ids : list Z) :
  run cs enc0 = Some (enc, ids) ->
  relocations enc
  = relocations enc0 ++ expected_relocations cs (buffer_size enc0).
Proof. apply run_relocations. Qed.

Lemma relocations_of_run_witness :
  relocations {| buffer := [0x90; 0xE9; 0; 0; 0; 0; 0x0F; 0x84; 0; 0; 0; 0];
                 labels := [0]; labels_spare := fresh_entries 1023;
                 relocations := [ {| offset := 2; label := 0; relative := 1 |};
                                  {| offset := 8; label := 7; relative := 1 |} ] |}
  = relocations x86_encoder_zero
    ++ expected_relocations
         [CallAddLabel; CallEmit EmitNop; CallEmit (EmitJmp 0 0);
          CallEmit (EmitJmpCond 4 7)] (buffer_size x86_encoder_zero).
Proof.
  apply (relocations_of_run _ _ _ [0]). reflexivity.
Defined.

Lemma labels_of_run cs : forall enc0 enc ids,
  run cs enc0 = Some (enc, ids) ->
  labels_size enc = labels_size enc0 + labels_created cs.
Proof.
  induction cs as [|c cs IH]; intros enc0 enc ids H.
  - injection H as <- <-. cbn. lia.
  - apply run_cons in H as (e1 & i1 & i2 & Hs & Hr & _).
    apply IH in Hr. rewrite Hr. clear IH Hr. unfold labels_size.
    destruct c as [|l|e]; cbn [step labels_created] in *.
    + injection Hs as <- <-. cbn [labels]. rewrite length_app. cbn. lia.
    + destruct (x86_encoder_move_label enc0 l) as [enc1|] eqn:E; [|done].
      cbn in Hs. injection Hs as <- <-.
      apply move_label_inv in E as (_ & _ & -> & _).
      rewrite length_insert. lia.
    + injection Hs as <- <-.
      by destruct (emit_shape enc0 e) as (? & ? & _ & -> & _).
Qed.

Lemma expected_relocations_labels cs : forall pos r,
  r ∈ expected_relocations cs pos ->
  exists e skip l, CallEmit e ∈ cs /\ jump_placeholder e = Some (skip, l)
                   /\ label r = to_int l.
Proof.
  induction cs as [|c cs IH]; intros pos r Hin.
  - by apply elem_of_nil in Hin.
  - destruct c as [|l0|e]; cbn [expected_relocations] in Hin.
    + destruct (IH _ _ Hin) as (e & skip & l & He & Hj & Hl).
      exists e, skip, l. split; [by right|done].
    + destruct (IH _ _ Hin) as (e & skip & l & He & Hj & Hl).
      exists e, skip, l. split; [by right|done].
    + destruct (jump_placeholder e) as [[skip l]|] eqn:Hj.
      * apply elem_of_cons in Hin as [->|Hin].
        -- exists e, skip, l. split; [by left|done].
        -- destruct (IH _ _ Hin) as (e' & skip' & l' & He & Hj' & Hl).
           exists e', skip', l'. split; [by right|done].
      * destruct (IH _ _ Hin) as (e' & skip' & l' & He & Hj' & Hl).
        exists e', skip', l'. split; [by right|done].
Qed.

(** X4. A program whose jumps all go to labels the sequence creates, before
    or after the jump, links successfully: the link step returns 0 whatever
    the base. *)
Theorem link_succeeds (cs : list encoder_call) (enc : x86_encoder)
    (ids : list Z) (base : Z) :
  run cs x86_encoder_zero = Some (enc, ids) ->
  labels_created cs <= INT_MAX + 1 ->
  (forall e skip l, CallEmit e ∈ cs -> jump_placeholder e = Some (skip, l) ->
                    0 <= l < labels_created cs) ->
  exists enc', x86_encoder_apply_relocations enc base = Some (0, enc').
Proof.
  intros Hrun Hmax Hjumps.
  assert (Hchain : reloc_chain 0 (relocations enc) (buffer_size enc)).
  { eapply run_chain; [exact Hrun|]. cbn. done. }
  destruct (apply_loop_defined enc base (relocations enc) 0 (buffer enc))
    as [[res buf] Hd]; [lia|exact Hchain|].
  unfold x86_encoder_apply_relocations, x86_encoder_apply_relocations_in_memory.
  rewrite Hd. cbn [mbind option_bind]. eexists.
  destruct (apply_in_memory_cases enc (buffer enc) base res buf Hd)
    as (_ & Hzero & _).
  assert (res = 0) as ->; [|done].
  apply Hzero, Forall_forall. intros r Hin.
  rewrite (run_relocations _ _ _ _ Hrun) in Hin. cbn [relocations app] in Hin.
  apply list_elem_of_In, expected_relocations_labels in Hin
    as (e & skip & l & He & Hj & Hl).
  specialize (Hjumps e skip l He Hj).
  pose proof (labels_of_run _ _ _ _ Hrun) as Hn.
  change (labels_size x86_encoder_zero) with 0 in Hn.
  unfold unknown_label. rewrite Hl.
  rewrite to_int_small by (unfold INT_MIN, INT_MAX in *; lia).
  rewrite to_size_t_small by (unfold INT_MAX in *; lia). lia.
Qed.

Lemma link_succeeds_witness :
  exists enc',
    x86_encoder_apply_relocations
      {| buffer := [0xE9; 0; 0; 0; 0; 0x90]; labels := [6];
         labels_spare := fresh_entries 1023;
         relocations := [{| offset := 1; label := 0; relative := 1 |}] |} 0
    = Some (0, enc').
Proof.
  apply (link_succeeds [CallEmit (EmitJmp 0 0); CallEmit EmitNop; CallAddLabel]
           _ [0] 0); [reflexivity | unfold INT_MAX; cbn; lia |].
  intros e skip l Hin Hj.
  apply elem_of_cons in Hin as [[= ->]|Hin].
  - cbn in Hj. injection Hj as <- <-. cbn. lia.
  - apply elem_of_cons in Hin as [[= ->]|Hin]; [discriminate Hj|].
    apply elem_of_cons in Hin as [Hin|Hin]; [discriminate Hin|].
    by apply elem_of_nil in Hin.
Defined.

End RelocationTable.

Section Relinking.

Lemma store_noop buf off bs :
  load buf off (length bs) = Some bs -> store buf off bs = Some buf.
Proof.
  unfold load, store.
  destruct ((0 <=? off) && (off + Z.of_nat (length bs) <=? Z.of_nat (length buf)));
    [|done].
  intros [= H]. f_equal.
  transitivity (take (Z.to_nat off) buf ++ drop (Z.to_nat off) buf);
    [|apply take_drop].
  f_equal.
  transitivity (take (length bs) (drop (Z.to_nat off) buf)
                ++ drop (length bs) (drop (Z.to_nat off) buf));
    [|apply take_drop].
  by rewrite H, drop_drop.
Qed.

(** One iteration of the link loop on a known label, as an equation. *)
Lemma apply_loop_step enc base r rest buf l :
  relative r = 1 ->
  ~ unknown_label enc r ->
  labels enc !! Z.to_nat (to_size_t (label r)) = Some l ->
  apply_relocations_loop enc base (r :: rest) buf
  = t ← store buf (offset r) (le_bytes 4 (to_int (l - (offset r + 4))));
    apply_relocations_loop enc base rest t.
Proof.
  intros Hrel Hk Hl. cbn [apply_relocations_loop]. unfold unknown_label in Hk.
  destruct (to_size_t (label r) >=? labels_size enc) eqn:E; [zbool; lia|].
  rewrite Hl. cbn [mbind option_bind]. rewrite Hrel. cbn [truthy Z.eqb negb].
  by rewrite displacement_narrowing.
Qed.

Lemma apply_loop_base enc base1 base2 rs : forall lo hi buf,
  reloc_chain lo rs hi ->
  apply_relocations_loop enc base1 rs buf
  = apply_relocations_loop enc base2 rs buf.
Proof.
  induction rs as [|r rs IH]; intros lo hi buf Hc; [done|].
  destruct Hc as (_ & Hrel & Hc). cbn [apply_relocations_loop].
  destruct (to_size_t (label r) >=? labels_size enc); [done|].
  destruct (labels enc !! Z.to_nat (to_size_t (label r))) as [l|]; [|done].
  cbn [mbind option_bind]. rewrite Hrel. cbn [truthy Z.eqb negb].
  destruct (store buf (offset r) _) as [t|]; [|done].
  cbn [mbind option_bind]. by eapply IH.
Qed.

Lemma apply_loop_idem enc base rs : forall lo hi buf res buf',
  apply_relocations_loop enc base rs buf = Some (res, buf') ->
  reloc_chain lo rs hi ->
  apply_relocations_loop enc base rs buf' = Some (res, buf').
Proof.
  induction rs as [|r rs IH]; intros lo hi buf res buf' H Hc.
  - by injection H as <- <-.
  - destruct Hc as (Hlo & Hrel & Hc).
    destruct (apply_loop_cons _ _ _ _ _ _ _ H Hrel)
      as [(_ & _ & ->)|(l & t & Hk & Hl & Hst & Hrest)]; [done|].
    rewrite (apply_loop_step _ _ _ _ _ l Hrel Hk Hl).
    destruct (apply_loop_frame _ _ _ _ _ _ _ _ Hrest Hc) as [Hlen Hfr].
    assert (Hld : load buf' (offset r) 4
                  = Some (le_bytes 4 (to_int (l - (offset r + 4))))).
    { rewrite (load_ext t buf' (offset r) 4 Hlen) by (intros; apply Hfr; lia).
      pose proof (load_store_same _ _ _ _ Hst) as Hs.
      by rewrite le_bytes_length in Hs. }
    rewrite store_noop by (by rewrite le_bytes_length).
    cbn [mbind option_bind]. eapply IH; eauto.
Qed.

(** X5. The linked image does not depend on where it will be loaded: on
    any encoder a call sequence reaches, the link step gives the same result
    for every base, and linking to memory at any address gives it too. *)
Theorem link_position_independent (cs : list encoder_call)
    (enc : x86_encoder) (ids : list Z) (base1 base2 target : Z) :
  run cs x86_encoder_zero = Some (enc, ids) ->
  x86_encoder_apply_relocations enc base1
  = x86_encoder_apply_relocations enc base2
  /\ x86_encoder_link_to_memory enc target
     = x86_encoder_apply_relocations_in_memory enc (buffer enc) base1.
Proof.
  intros Hrun.
  assert (Hchain : reloc_chain 0 (relocations enc) (buffer_size enc)).
  { eapply run_chain; [exact Hrun|]. cbn. done. }
  unfold x86_encoder_apply_relocations, x86_encoder_link_to_memory,
    x86_encoder_apply_relocations_in_memory.
  split.
  - by rewrite (apply_loop_base enc base1 base2 _ _ _ _ Hchain).
  - by apply (apply_loop_base enc _ _ _ _ _ _ Hchain).
Qed.

Lemma link_position_independent_witness :
  let enc := {| buffer := [0x90; 0xE9; 0; 0; 0; 0]; labels := [0];
                labels_spare := fresh_entries 1023;
                relocations := [{| offset := 2; label := 0; relative := 1 |}] |} in
  x86_encoder_apply_relocations enc 0
  = x86_encoder_apply_relocations enc 0x7f0000001000
  /\ x86_encoder_link_to_memory enc 0x7f0000001000
     = x86_encoder_apply_relocations_in_memory enc (buffer enc) 0.
Proof.
  apply (link_position_independent
           [CallAddLabel; CallEmit EmitNop; CallEmit (EmitJmp 0 0)] _ [0]).
  reflexivity.
Defined.

(** X6. Linking is idempotent: on any encoder a call sequence reaches,
    applying the relocations a second time, to the buffer the first
    application left and for any base, returns the same code and leaves the
    buffer as it is. *)
Theorem relink_unchanged (cs : list encoder_call) (enc enc' : x86_encoder)
    (ids : list Z) (base base' res : Z) :
  run cs x86_encoder_zero = Some (enc, ids) ->
  x86_encoder_apply_relocations enc base = Some (res, enc') ->
  x86_encoder_apply_relocations enc' base' = Some (res, enc').
Proof.
  intros Hrun Happ.
  assert (Hchain : reloc_chain 0 (relocations enc) (buffer_size enc)).
  { eapply run_chain; [exact Hrun|]. cbn. done. }
  unfold x86_encoder_apply_relocations,
    x86_encoder_apply_relocations_in_memory in *.
  destruct (apply_relocations_loop enc base (relocations enc) (buffer enc))
    as [[res0 buf]|] eqn:Hloop; [|done].
  cbn [mbind option_bind] in Happ. injection Happ as -> <-.
  cbn [buffer labels relocations].
  pose proof (apply_loop_idem _ _ _ _ _ _ _ _ Hloop Hchain) as Hidem.
  rewrite (apply_loop_base enc base base' _ _ _ _ Hchain) in Hidem.
  assert (Hsame : forall rs b,
            apply_relocations_loop
              {| buffer := buf; labels := labels enc;
                 labels_spare := labels_spare enc;
                 relocations := relocations enc |} base' rs b
            = apply_relocations_loop enc base' rs b).
  { clear. induction rs as [|r rs IH]; intros b; [done|].
    cbn [apply_relocations_loop]. unfold labels_size. cbn [labels].
    destruct (_ >=? _); [done|].
    destruct (labels enc !! _); [|done]. cbn [mbind option_bind].
    match goal with |- (?s ≫= _) = _ => destruct s end; [|done].
    cbn [mbind option_bind]. apply IH. }
  rewrite Hsame, Hidem. done.
Qed.

Lemma relink_unchanged_witness :
  let enc' := {| buffer := [0x90; 0xE9; 0xFA; 0xFF; 0xFF; 0xFF]; labels := [0];
                 labels_spare := fresh_entries 1023;
                 relocations := [{| offset := 2; label := 0; relative := 1 |}] |} in
  x86_encoder_apply_relocations enc' 4096 = Some (0, enc').
Proof.
  apply (relink_unchanged
           [CallAddLabel; CallEmit EmitNop; CallEmit (EmitJmp 0 0)]
           {| buffer := [0x90; 0xE9; 0; 0; 0; 0]; labels := [0];
              labels_spare := fresh_entries 1023;
              relocations := [{| offset := 2; label := 0; relative := 1 |}] |}
           _ [0] 0 4096 0); reflexivity.
Defined.

(** X7. The link step patches placeholders and nothing else: on any
    encoder a call sequence reaches, it keeps the labels, the relocations
    and the length of the buffer, and every byte that lies outside the
    four-byte fields of the recorded relocations. *)
Theorem link_keeps_code (cs : list encoder_call) (enc enc' : x86_encoder)
    (ids : list Z) (base res : Z) :
  run cs x86_encoder_zero = Some (enc, ids) ->
  x86_encoder_apply_relocations enc base = Some (res, enc') ->
  labels enc' = labels enc
  /\ relocations enc' = relocations enc
  /\ length (buffer enc') = length (buffer enc)
  /\ forall i : nat,
       (forall r, r ∈ relocations enc ->
                  ~ (offset r <= Z.of_nat i < offset r + 4)) ->
       buffer enc' !! i = buffer enc !! i.
Proof.
  intros Hrun Happ.
  assert (Hchain : reloc_chain 0 (relocations enc) (buffer_size enc)).
  { eapply run_chain; [exact Hrun|]. cbn. done. }
  unfold x86_encoder_apply_relocations,
    x86_encoder_apply_relocations_in_memory in Happ.
  destruct (apply_relocations_loop enc base (relocations enc) (buffer enc))
    as [[res0 buf]|] eqn:Hloop; [|done].
  cbn [mbind option_bind] in Happ. injection Happ as -> <-.
  cbn [buffer labels relocations].
  split; [done|]. split; [done|].
  split; [by destruct (apply_loop_frame _ _ _ _ _ _ _ _ Hloop Hchain)|].
  intros i Hout. by eapply apply_loop_outside.
Qed.

Lemma link_keeps_code_witness :
  let enc := {| buffer := [0x90; 0xE9; 0; 0; 0; 0]; labels := [0];
                labels_spare := fresh_entries 1023;
                relocations := [{| offset := 2; label := 0; relative := 1 |}] |} in
  let enc' := {| buffer := [0x90; 0xE9; 0xFA; 0xFF; 0xFF; 0xFF]; labels := [0];
                 labels_spare := fresh_entries 1023;
                 relocations := [{| offset := 2; label := 0; relative := 1 |}] |} in
  labels enc' = labels enc
  /\ relocations enc' = relocations enc
  /\ length (buffer enc') = length (buffer enc)
  /\ forall i : nat,
       (forall r, r ∈ relocations enc ->
                  ~ (offset r <= Z.of_nat i < offset r + 4)) ->
       buffer enc' !! i = buffer enc !! i.
Proof.
  apply (link_keeps_code
           [CallAddLabel; CallEmit EmitNop; CallEmit (EmitJmp 0 0)] _ _ [0] 0 0);
    reflexivity.
Defined.

End Relinking.

Section Displacements.

Lemma code_size_nonneg cs : 0 <= code_size cs.
Proof.
  induction cs as [|[|l|e] cs IH]; cbn [code_size]; try lia.
  pose proof (emit_within_reserved e). lia.
Qed.

Lemma jump_length e skip l :
  jump_placeholder e = Some (skip, l) -> 0 < skip /\ emit_length e = skip + 4.
Proof. destruct e; try discriminate; intros [= <- <-]; cbn; lia. Qed.

(** The relocation an emitted jump leaves in the table of the final
    encoder, and where its placeholder lies. *)
Lemma jump_relocation_recorded cs1 cs2 e enc1 enc ids1 ids skip l :
  run cs1 x86_encoder_zero = Some (enc1, ids1) ->
  run (cs1 ++ CallEmit e :: cs2) x86_encoder_zero = Some (enc, ids) ->
  jump_placeholder e = Some (skip, l) ->
  {| offset := buffer_size enc1 + skip; label := to_int l; relative := 1 |}
    ∈ relocations enc
  /\ 0 <= buffer_size enc1 + skip
  /\ buffer_size enc1 + skip + 4 <= buffer_size enc.
Proof.
  intros Hrun1 Hrun Hj.
  apply run_app in Hrun as (e1 & i1 & i2 & Hr1 & Hr2 & _).
  rewrite Hrun1 in Hr1. injection Hr1 as <- <-.
  pose proof (run_relocations _ _ _ _ Hr2) as Hrel.
  pose proof (run_buffer_size _ _ _ _ Hr2) as Hsz.
  cbn [expected_relocations code_size] in Hrel, Hsz. rewrite Hj in Hrel.
  destruct (jump_length _ _ _ Hj) as [Hskip Hlen].
  pose proof (code_size_nonneg cs2).
  split; [|unfold buffer_size in *; lia].
  rewrite Hrel. apply elem_of_app. right. by left.
Qed.

(** X8. While the code stays below 2 GiB no displacement is truncated: on
    any call sequence from a zeroed encoder that emits a jump to a label L
    which an [int] holds, a successful link leaves in the placeholder the
    exact difference, so that the placeholder position plus 4 plus the
    stored displacement is the final offset of L. *)
Theorem jump_lands_on_label (cs1 cs2 : list encoder_call) (e : emit_call)
    (enc1 enc enc' : x86_encoder) (ids1 ids : list Z)
    (skip L L_off base : Z) :
  jump_placeholder e = Some (skip, L) ->
  0 <= L <= INT_MAX ->
  run cs1 x86_encoder_zero = Some (enc1, ids1) ->
  run (cs1 ++ CallEmit e :: cs2) x86_encoder_zero = Some (enc, ids) ->
  labels enc !! Z.to_nat L = Some L_off ->
  buffer_size enc <= INT_MAX ->
  x86_encoder_apply_relocations enc base = Some (0, enc') ->
  exists d, load_int32 (buffer enc') (buffer_size enc1 + skip) = Some d
            /\ buffer_size enc1 + skip + 4 + d = L_off.
Proof.
  intros Hj HL Hrun1 Hrun HLoff Hsmall Happ.
  assert (Hchain : reloc_chain 0 (relocations enc) (buffer_size enc)).
  { eapply run_chain; [exact Hrun|]. cbn. done. }
  destruct (jump_relocation_recorded _ _ _ _ _ _ _ _ _ Hrun1 Hrun Hj)
    as (Hin & Hlo & Hhi).
  assert (Hlab : Forall (fun off => 0 <= off <= buffer_size enc) (labels enc)).
  { destruct (run_labels _ _ _ _ Hrun) as [H _]; [constructor|done]. }
  assert (HLb : 0 <= L_off <= buffer_size enc).
  { rewrite Forall_forall in Hlab. apply Hlab.
    apply list_elem_of_In. eapply list_elem_of_lookup_2. exact HLoff. }
  unfold x86_encoder_apply_relocations,
    x86_encoder_apply_relocations_in_memory in Happ.
  destruct (apply_relocations_loop enc base (relocations enc) (buffer enc))
    as [[res buf]|] eqn:Hloop; [|done].
  cbn [mbind option_bind] in Happ. injection Happ as -> <-. cbn [buffer].
  destruct (apply_loop_patched _ _ _ _ _ _ _ _ Hloop Hchain Hin)
    as (l & Hl & Hld).
  cbn [label offset] in Hl, Hld.
  rewrite to_int_small in Hl by (unfold INT_MIN, INT_MAX in *; lia).
  rewrite to_size_t_small in Hl by (unfold INT_MAX in *; lia).
  rewrite HLoff in Hl. injection Hl as <-.
  rewrite to_int_small in Hld by (unfold INT_MIN, INT_MAX in *; lia).
  eexists. split; [exact Hld|lia].
Qed.

Lemma jump_lands_on_label_witness :
  exists d,
    load_int32 [0x90; 0xE9; 0xFA; 0xFF; 0xFF; 0xFF; 0xC3] (1 + 1) = Some d
    /\ 1 + 1 + 4 + d = 0.
Proof.
  apply (jump_lands_on_label [CallAddLabel; CallEmit EmitNop]
           [CallEmit EmitRet] (EmitJmp 0 0)
           {| buffer := [0x90]; labels := [0];
              labels_spare := fresh_entries 1023; relocations := [] |}
           {| buffer := [0x90; 0xE9; 0; 0; 0; 0; 0xC3]; labels := [0];
              labels_spare := fresh_entries 1023;
              relocations := [{| offset := 2; label := 0; relative := 1 |}] |}
           {| buffer := [0x90; 0xE9; 0xFA; 0xFF; 0xFF; 0xFF; 0xC3]; labels := [0];
              labels_spare := fresh_entries 1023;
              relocations := [{| offset := 2; label := 0; relative := 1 |}] |}
           [0] [0] 1 0 0 0);
    try reflexivity; unfold INT_MAX, buffer_size; cbn [buffer length]; lia.
Defined.

End Displacements.

Section ByteStrings.

Lemma to_byte_is_byte x : is_byte (to_byte x).
Proof. unfold is_byte, to_byte, to_unsigned. apply Z.mod_pos_bound. lia. Qed.

Lemma le_bytes_are_bytes n : forall x, Forall is_byte (le_bytes n x).
Proof.
  induction n as [|n IH]; intros x; cbn [le_bytes]; constructor; [|apply IH].
  unfold is_byte. apply Z.mod_pos_bound. lia.
Qed.

Lemma modrm_is_byte m : is_byte (x86_modrm_byte m).
Proof.
  unfold x86_modrm_byte, is_byte. rewrite !land_7_mod.
  change 0x03 with (Z.ones 2). rewrite Z.land_ones by lia.
  change (2 ^ 2) with 4.
  pose proof (Z.mod_pos_bound (rm m) 8 ltac:(lia)) as Ha.
  pose proof (Z.mod_pos_bound (reg m) 8 ltac:(lia)) as Hb.
  pose proof (Z.mod_pos_bound (mod_ m) 4 ltac:(lia)) as Hc.
  generalize dependent (rm m mod 8). generalize dependent (reg m mod 8).
  generalize dependent (mod_ m mod 4).
  intros c Hc b Hb a Ha.
  assert (H8 : forall v, 0 <= v < 8 ->
            v = 0 \/ v = 1 \/ v = 2 \/ v = 3 \/ v = 4 \/ v = 5 \/ v = 6 \/ v = 7)
    by (intros; lia).
  assert (H4 : c = 0 \/ c = 1 \/ c = 2 \/ c = 3) by lia.
  destruct (H8 a Ha) as [->|[->|[->|[->|[->|[->|[->| ->]]]]]]];
  destruct (H8 b Hb) as [->|[->|[->|[->|[->|[->|[->| ->]]]]]]];
  destruct H4 as [->|[->|[->| ->]]];
  (split; [apply Z.leb_le | apply Z.ltb_lt]; reflexivity).
Qed.

Lemma emit_bytes enc e :
  exists bs, buffer (emit enc e) = buffer enc ++ bs /\ Forall is_byte bs.
Proof.
  assert (Hz : Forall is_byte (le_bytes 4 0)) by apply le_bytes_are_bytes.
  destruct e; cbn [emit];
    unfold x86_encoder_write_jmp, x86_encoder_write_jmp_cond,
      x86_encoder_add_relocation,
      x86_encoder_write_jmp_reg, x86_encoder_write_cmp_reg,
      x86_encoder_write_modrm, x86_encoder_write_modrm_32,
      x86_encoder_write_modrm_16, x86_encoder_write_modrm_8,
      x86_encoder_write_modrm_rex, x86_encoder_write_mov_imm_64,
      x86_encoder_write_mov_imm_32, x86_encoder_write_mov_imm_16,
      x86_encoder_write_mov_imm_8, x86_encoder_write_push,
      x86_encoder_write_pop, x86_encoder_write_ret, x86_encoder_write_nop,
      _x86_encoder_prepare_modrm_rex, ENC_ADVANCE; cbn [buffer];
    rewrite <- ?app_assoc; eexists; (split; [reflexivity|]);
    repeat first [ apply to_byte_is_byte
                 | apply modrm_is_byte
                 | apply le_bytes_are_bytes
                 | apply Forall_app; split
                 | apply List.Forall_cons
                 | apply List.Forall_nil ].
Qed.

Lemma store_bytes buf off bs buf' :
  store buf off bs = Some buf' ->
  Forall is_byte buf -> Forall is_byte bs -> Forall is_byte buf'.
Proof.
  unfold store. case_match; [|done]. intros [= <-] Hbuf Hbs.
  apply Forall_app. split; [by apply Forall_take|].
  apply Forall_app. split; [done|by apply Forall_drop].
Qed.

Lemma apply_loop_bytes enc base rs : forall buf res buf',
  apply_relocations_loop enc base rs buf = Some (res, buf') ->
  Forall is_byte buf -> Forall is_byte buf'.
Proof.
  induction rs as [|r rs IH]; intros buf res buf' H Hb.
  - by injection H as <- <-.
  - cbn [apply_relocations_loop] in H.
    destruct (to_size_t (label r) >=? labels_size enc);
      [by injection H as <- <-|].
    destruct (labels enc !! _) as [l|]; [|done]. cbn [mbind option_bind] in H.
    match type of H with (?s ≫= _) = _ => destruct s as [t|] eqn:Est end;
      [|done].
    cbn [mbind option_bind] in H. eapply IH; [exact H|].
    destruct (truthy (relative r));
      (eapply store_bytes; [exact Est|done|apply le_bytes_are_bytes]).
Qed.

(** X9. The buffer is a string of bytes: along any call sequence every
    element of the buffer lies in 0..255, whatever the values handed to the
    emitters as registers, opcodes, conditions and immediates, and the link
    step keeps it so. *)
Theorem buffer_holds_bytes (cs : list encoder_call) (enc : x86_encoder)
    (ids : list Z) :
  run cs x86_encoder_zero = Some (enc, ids) ->
  Forall is_byte (buffer enc)
  /\ forall base res enc',
       x86_encoder_apply_relocations enc base = Some (res, enc') ->
       Forall is_byte (buffer enc').
Proof.
  assert (Hgen : forall cs enc0 enc ids,
            run cs enc0 = Some (enc, ids) ->
            Forall is_byte (buffer enc0) -> Forall is_byte (buffer enc)).
  { clear. induction cs as [|c cs IH]; intros enc0 enc ids H Hb.
    - by injection H as <- <-.
    - apply run_cons in H as (e1 & i1 & i2 & Hs & Hr & _).
      eapply IH; [exact Hr|]. destruct c as [|l|e]; cbn [step] in Hs.
      + by injection Hs as <- <-.
      + destruct (x86_encoder_move_label enc0 l) as [enc1|] eqn:E; [|done].
        cbn in Hs. injection Hs as <- <-.
        by apply move_label_inv in E as (_ & -> & _).
      + injection Hs as <- <-. destruct (emit_bytes enc0 e) as (bs & -> & Hbs).
        apply Forall_app. by split. }
  intros Hrun. pose proof (Hgen _ _ _ _ Hrun (Forall_nil _)) as Hb.
  split; [done|]. intros base res enc' Happ.
  unfold x86_encoder_apply_relocations,
    x86_encoder_apply_relocations_in_memory in Happ.
  destruct (apply_relocations_loop enc base (relocations enc) (buffer enc))
    as [[res0 buf]|] eqn:Hloop; [|done].
  cbn [mbind option_bind] in Happ. injection Happ as -> <-. cbn [buffer].
  by eapply apply_loop_bytes.
Qed.

Lemma buffer_holds_bytes_witness :
  let enc := {| buffer := [0x45; 0x88; 0xF8; 0xE9; 0; 0; 0; 0]; labels := []; labels_spare := [];
                relocations := [{| offset := 4; label := 3; relative := 1 |}] |} in
  Forall is_byte (buffer enc)
  /\ forall base res enc',
       x86_encoder_apply_relocations enc base = Some (res, enc') ->
       Forall is_byte (buffer enc').
Proof.
  apply (buffer_holds_bytes
           [CallEmit (EmitModrm8 (-375) 1000 (-1)); CallEmit (EmitJmp 0 3)] _ []).
  reflexivity.
Defined.

End ByteStrings.

Section OtherEmitters.

Lemma rex_field_reg reg_ wide :
  to_byte (X86_REX_FIELD (Z.land reg_ 0x08) 0 0 wide)
  = rex_byte (truthy wide) false false (Z.testbit reg_ 3).
Proof.
  unfold X86_REX_FIELD. rewrite truthy_land_8.
  by destruct (truthy wide), (Z.testbit reg_ 3).
Qed.

Lemma short_opcode_byte base reg_ :
  0 <= base <= 248 -> to_byte (base + Z.land reg_ 0x07) = base + reg_ mod 8.
Proof.
  intros H. rewrite land_7_mod.
  pose proof (Z.mod_pos_bound reg_ 8 ltac:(lia)).
  apply to_byte_small. lia.
Qed.

Lemma immediate_value n x :
  le_value (le_bytes n (x mod 256 ^ Z.of_nat n)) = x mod 256 ^ Z.of_nat n.
Proof.
  rewrite le_value_le_bytes. apply Z.mod_mod.
  apply Z.pow_nonzero; lia.
Qed.

(** X10. The four move-immediate emitters append the short form of MOV:
    for the 16-bit width only, the prefix 0x66; a REX byte with W set
    exactly for the 64-bit width, R and X clear and B the bit 3 of the
    register; the opcode 0xB8 (0xB0 for the 8-bit width) plus the low three
    bits of the register; then the immediate, truncated to the width, least
    significant byte first, on 8, 4, 2 or 1 bytes.  Read back, those bytes
    give the truncated immediate. *)
Theorem mov_imm_layout (enc : x86_encoder) (reg_ value : Z) :
  let rex w := rex_byte w false false (Z.testbit reg_ 3) in
  let imm n := le_bytes n (value mod 256 ^ Z.of_nat n) in
  appends enc (x86_encoder_write_mov_imm_64 enc reg_ value)
    ([rex true; 0xB8 + reg_ mod 8] ++ imm 8%nat)
  /\ appends enc (x86_encoder_write_mov_imm_32 enc reg_ value)
    ([rex false; 0xB8 + reg_ mod 8] ++ imm 4%nat)
  /\ appends enc (x86_encoder_write_mov_imm_16 enc reg_ value)
    ([0x66; rex false; 0xB8 + reg_ mod 8] ++ imm 2%nat)
  /\ appends enc (x86_encoder_write_mov_imm_8 enc reg_ value)
    ([rex false; 0xB0 + reg_ mod 8] ++ imm 1%nat)
  /\ forall n, length (imm n) = n
               /\ le_value (imm n) = value mod 256 ^ Z.of_nat n.
Proof.
  cbn zeta.
  unfold x86_encoder_write_mov_imm_64, x86_encoder_write_mov_imm_32,
    x86_encoder_write_mov_imm_16, x86_encoder_write_mov_imm_8,
    X86_MOV_REG_IMM_LONG, X86_MOV_REG_IMM_LOW.
  rewrite !rex_field_reg, !short_opcode_byte by lia.
  repeat apply conj; try apply appends_advance.
  intros n. split; [apply le_bytes_length|apply immediate_value].
Qed.

(** X11. The stack and single-byte emitters: PUSH and POP append a REX
    byte with only B possibly set, the bit 3 of the register, then 0x50
    (PUSH) or 0x58 (POP) plus the low three bits of the register; RET
    appends 0xC3 and NOP 0x90.  None of them touches labels or
    relocations. *)
Theorem stack_emitters_layout (enc : x86_encoder) (reg_ : Z) :
  appends enc (x86_encoder_write_push enc reg_)
    [rex_byte false false false (Z.testbit reg_ 3); 0x50 + reg_ mod 8]
  /\ appends enc (x86_encoder_write_pop enc reg_)
    [rex_byte false false false (Z.testbit reg_ 3); 0x58 + reg_ mod 8]
  /\ appends enc (x86_encoder_write_ret enc) [0xC3]
  /\ appends enc (x86_encoder_write_nop enc) [0x90].
Proof.
  unfold x86_encoder_write_push, x86_encoder_write_pop, x86_encoder_write_ret,
    x86_encoder_write_nop, X86_PUSH_REG, X86_POP_REG.
  rewrite !rex_field_reg, !short_opcode_byte by lia.
  repeat apply conj; apply appends_advance.
Qed.

(** X12. The register-register encoding can be read back: for registers
    0..15 and an opcode byte, the three bytes the ModR/M helper prepares
    decode, by the layout of the instruction format, to the width bit, the
    opcode and the two registers they were made from; hence two different
    register pairs never share an encoding. *)
Theorem modrm_rex_decodes (opcode rm_ reg_ wide : Z) :
  0 <= opcode < 256 -> 0 <= rm_ < 16 -> 0 <= reg_ < 16 ->
  decode_modrm_rex (_x86_encoder_prepare_modrm_rex opcode rm_ reg_ wide)
  = Some (negb (wide =? 0), opcode, rm_, reg_).
Proof.
  intros Ho Hrm Hreg. rewrite prepare_modrm_rex_bytes.
  rewrite (Z.mod_small opcode) by lia. unfold truthy.
  assert (H16 : forall v, 0 <= v < 16 ->
            v = 0 \/ v = 1 \/ v = 2 \/ v = 3 \/ v = 4 \/ v = 5 \/ v = 6 \/ v = 7
            \/ v = 8 \/ v = 9 \/ v = 10 \/ v = 11 \/ v = 12 \/ v = 13
            \/ v = 14 \/ v = 15) by (intros; lia).
  destruct (wide =? 0);
  destruct (H16 rm_ Hrm)
    as [->|[->|[->|[->|[->|[->|[->|[->|[->|[->|[->|[->|[->|[->|[->| ->]]]]]]]]]]]]]]];
  destruct (H16 reg_ Hreg)
    as [->|[->|[->|[->|[->|[->|[->|[->|[->|[->|[->|[->|[->|[->|[->| ->]]]]]]]]]]]]]]];
  reflexivity.
Qed.

Lemma modrm_rex_decodes_witness :
  decode_modrm_rex (_x86_encoder_prepare_modrm_rex 0x29 7 8 1)
  = Some (negb (1 =? 0), 0x29, 7, 8).
Proof. apply modrm_rex_decodes; lia. Defined.

End OtherEmitters.

Section BothRelocationKinds.

Lemma to_size_t_range x : 0 <= to_size_t x < 2 ^ 64.
Proof. unfold to_size_t, to_unsigned. apply Z.mod_pos_bound. lia. Qed.

Lemma absolute_address base l :
  to_size_t (base + to_intptr l) = to_size_t (base + l).
Proof.
  unfold to_size_t, to_unsigned, to_intptr, to_signed.
  pose proof (Z.div_mod (l + 2 ^ (64 - 1)) (2 ^ 64) ltac:(lia)) as H.
  replace (base + ((l + 2 ^ (64 - 1)) mod 2 ^ 64 - 2 ^ (64 - 1)))
    with (base + l + (- ((l + 2 ^ (64 - 1)) / 2 ^ 64)) * 2 ^ 64) by lia.
  apply Z_mod_plus_full.
Qed.

(** The bytes a relocation writes, for the label offset [l]. *)
Lemma apply_loop_any enc base r rest buf res buf' :
  apply_relocations_loop enc base (r :: rest) buf = Some (res, buf') ->
  (unknown_label enc r /\ res = 1 /\ buf' = buf)
  \/ (exists l t bs,
        labels enc !! Z.to_nat (to_size_t (label r)) = Some l
        /\ Z.of_nat (length bs) = reloc_width r
        /\ (if truthy (relative r)
            then bs = le_bytes 4 (to_int (l - (offset r + 4)))
            else bs = le_bytes 8 (to_size_t (base + l)))
        /\ store buf (offset r) bs = Some t
        /\ apply_relocations_loop enc base rest t = Some (res, buf')).
Proof.
  cbn [apply_relocations_loop]. intros H. unfold unknown_label, reloc_width.
  destruct (to_size_t (label r) >=? labels_size enc) eqn:E.
  - injection H as <- <-. zbool. left. repeat split; lia.
  - right.
    destruct (labels enc !! Z.to_nat (to_size_t (label r))) as [l|]; [|done].
    cbn [mbind option_bind] in H.
    rewrite displacement_narrowing, absolute_address in H.
    match type of H with (?s ≫= _) = _ => destruct s as [t|] eqn:Est end;
      [|done].
    cbn [mbind option_bind] in H.
    destruct (truthy (relative r)); eexists l, t, _;
      (split; [done|]); (split; [|split; [reflexivity|by split]]);
      by rewrite le_bytes_length.
Qed.

Lemma apply_layout_frame enc base rs : forall lo hi buf res buf',
  apply_relocations_loop enc base rs buf = Some (res, buf') ->
  reloc_layout lo rs hi ->
  length buf' = length buf
  /\ forall i : nat, Z.of_nat i < lo -> buf' !! i = buf !! i.
Proof.
  induction rs as [|r rs IH]; intros lo hi buf res buf' H Hc.
  - by injection H as <- <-.
  - destruct Hc as (Hlo & Hc).
    destruct (apply_loop_any _ _ _ _ _ _ _ H)
      as [(_ & _ & ->)|(l & t & bs & _ & Hw & _ & Hst & Hrest)]; [done|].
    destruct (IH _ _ _ _ _ Hrest Hc) as [Hlen Hfr].
    rewrite Hlen, (store_length _ _ _ _ Hst). split; [done|].
    intros i Hi.
    assert (0 < reloc_width r) by (unfold reloc_width; by destruct (truthy _)).
    rewrite Hfr by lia.
    eapply store_lookup_out; [exact Hst|lia].
Qed.

(** What the link step leaves in the fields, and that it runs to its end. *)
Lemma apply_layout_patched (enc : x86_encoder) (t_buffer : list Z) (base : Z) :
  reloc_layout 0 (relocations enc) (Z.of_nat (length t_buffer)) ->
  is_Some (x86_encoder_apply_relocations_in_memory enc t_buffer base)
  /\ forall t' r,
       x86_encoder_apply_relocations_in_memory enc t_buffer base = Some (0, t') ->
       r ∈ relocations enc ->
       exists l,
         labels enc !! Z.to_nat (to_size_t (label r)) = Some l
         /\ if truthy (relative r)
            then load_int32 t' (offset r) = Some (to_int (l - (offset r + 4)))
            else le_value <$> load t' (offset r) 8
                 = Some (to_size_t (base + l)).
Proof.
  unfold x86_encoder_apply_relocations_in_memory.
  generalize (relocations enc) as rs. intros rs.
  assert (Hdef : forall rs lo buf, 0 <= lo ->
            reloc_layout lo rs (Z.of_nat (length buf)) ->
            is_Some (apply_relocations_loop enc base rs buf)).
  { clear. induction rs as [|r rs IH]; intros lo buf H0 Hc; [by eexists|].
    destruct Hc as (Hlo & Hc). cbn [apply_relocations_loop].
    destruct (to_size_t (label r) >=? labels_size enc) eqn:E; [by eexists|].
    zbool. unfold labels_size in E.
    pose proof (to_size_t_range (label r)).
    destruct (lookup_lt_is_Some_2 (labels enc) (Z.to_nat (to_size_t (label r))))
      as [l Hl]; [lia|].
    rewrite Hl. cbn [mbind option_bind].
    assert (Hb : offset r + reloc_width r <= Z.of_nat (length buf)).
    { clear -Hc. revert Hc. generalize (offset r + reloc_width r).
      induction rs as [|r' rs IH']; intros z; cbn; [done|].
      intros [H1 H2]. apply IH' in H2.
      assert (0 < reloc_width r') by (unfold reloc_width; by destruct (truthy _)).
      lia. }
    unfold reloc_width in Hb, Hc.
    destruct (truthy (relative r)).
    - match goal with |- is_Some (store ?b ?o ?bs ≫= _) =>
        destruct (store_defined b o bs) as [t Ht] end;
        [lia|rewrite le_bytes_length; lia|].
      rewrite Ht. cbn [mbind option_bind]. apply (IH (offset r + 4)); [lia|].
      by rewrite (store_length _ _ _ _ Ht).
    - match goal with |- is_Some (store ?b ?o ?bs ≫= _) =>
        destruct (store_defined b o bs) as [t Ht] end;
        [lia|rewrite le_bytes_length; lia|].
      rewrite Ht. cbn [mbind option_bind]. apply (IH (offset r + 8)); [lia|].
      by rewrite (store_length _ _ _ _ Ht). }
  intros Hlay. split; [by apply (Hdef rs 0)|].
  clear Hdef. revert Hlay. generalize 0 at 1 as lo.
  generalize (Z.of_nat (length t_buffer)) as hi. revert t_buffer.
  induction rs as [|r0 rs IH]; intros buf hi lo Hc t' r H Hin.
  - by apply elem_of_nil in Hin.
  - destruct Hc as (Hlo & Hc).
    destruct (apply_loop_any _ _ _ _ _ _ _ H)
      as [(_ & ? & _)|(l & t & bs & Hl & Hw & Hbs & Hst & Hrest)]; [done|].
    apply elem_of_cons in Hin as [->|Hin]; [|by eapply IH].
    exists l. split; [done|].
    destruct (apply_layout_frame _ _ _ _ _ _ _ _ Hrest Hc) as [Hlen Hfr].
    pose proof (load_store_same _ _ _ _ Hst) as Hld.
    unfold reloc_width in *.
    destruct (truthy (relative r0)); subst bs; rewrite le_bytes_length in Hld.
    + unfold load_int32.
      rewrite (load_ext t t' (offset r0) 4 Hlen) by (intros; apply Hfr; lia).
      rewrite Hld.
      change (Some (to_signed 32 (le_value (le_bytes 4 (to_int (l - (offset r0 + 4))))))
              = Some (to_int (l - (offset r0 + 4)))).
      by rewrite int32_store_load.
    + rewrite (load_ext t t' (offset r0) 8 Hlen) by (intros; apply Hfr; lia).
      rewrite Hld. cbn [fmap option_fmap option_map]. f_equal.
      rewrite le_value_le_bytes. change (256 ^ Z.of_nat 8) with (2 ^ 64).
      apply Z.mod_small, to_size_t_range.
Qed.

(** X13. Relocations of both kinds.  For any relocation table whose
    fields (four bytes for a relative relocation, eight for an absolute one)
    lie one after the other inside the target, the link step is defined;
    and when every relocation names a known label it returns 0, keeps the
    length of the target, and leaves in each relative field the label
    offset minus (field position + 4) narrowed to 32 bits, and in each
    absolute field base + label offset modulo 2^64, both little-endian. *)
Theorem relocations_patched (enc : x86_encoder) (t_buffer : list Z) (base : Z) :
  reloc_layout 0 (relocations enc) (Z.of_nat (length t_buffer)) ->
  is_Some (x86_encoder_apply_relocations_in_memory enc t_buffer base)
  /\ (Forall (fun r => ~ unknown_label enc r) (relocations enc) ->
      exists t',
        x86_encoder_apply_relocations_in_memory enc t_buffer base = Some (0, t')
        /\ length t' = length t_buffer
        /\ forall r, r ∈ relocations enc ->
             exists l,
               labels enc !! Z.to_nat (to_size_t (label r)) = Some l
               /\ if truthy (relative r)
                  then load_int32 t' (offset r)
                       = Some (to_int (l - (offset r + 4)))
                  else le_value <$> load t' (offset r) 8
                       = Some (to_size_t (base + l))).
Proof.
  intros Hlay.
  destruct (apply_layout_patched enc t_buffer base Hlay) as [[[res t'] Hd] Hf].
  split; [by eexists|]. intros Hall.
  assert (res = 0) as ->.
  { unfold x86_encoder_apply_relocations_in_memory in Hd.
    destruct (apply_loop_cases _ _ _ _ _ _ Hd)
      as [(-> & _)|(_ & pre & r & post & Heq & _ & Hbad & _)]; [done|].
    rewrite Heq in Hall. apply Forall_app in Hall as [_ Hall].
    by apply Forall_inv in Hall. }
  exists t'. split; [done|]. split.
  - unfold x86_encoder_apply_relocations_in_memory in Hd.
    by destruct (apply_layout_frame _ _ _ _ _ _ _ _ Hd Hlay).
  - intros r Hr. by apply Hf.
Qed.

Lemma relocations_patched_witness :
  let enc := {| buffer := []; labels := [3; 12]; labels_spare := [];
                relocations := [ {| offset := 1; label := 1; relative := 0 |};
                                 {| offset := 10; label := 0; relative := 1 |} ] |} in
  let t := [0x90; 0; 0; 0; 0; 0; 0; 0; 0; 0xE9; 0; 0; 0; 0; 0xC3] in
  exists t',
    x86_encoder_apply_relocations_in_memory enc t 0x1000 = Some (0, t')
    /\ length t' = length t
    /\ le_value <$> load t' 1 8 = Some 0x100C
    /\ load_int32 t' 10 = Some (-11).
Proof.
  intros enc t.
  destruct (proj2 (relocations_patched enc t 0x1000 ltac:(cbn; lia)))
    as (t' & Happ & Hlen & Hfields).
  { apply List.Forall_cons; [|apply List.Forall_cons; [|apply List.Forall_nil]];
      vm_compute; intros H; by apply H. }
  exists t'. split; [exact Happ|]. split; [exact Hlen|]. split.
  - destruct (Hfields {| offset := 1; label := 1; relative := 0 |})
      as (l & Hl & Hv); [by left|].
    injection Hl as <-. exact Hv.
  - destruct (Hfields {| offset := 10; label := 0; relative := 1 |})
      as (l & Hl & Hv); [right; by left|].
    injection Hl as <-. exact Hv.
Defined.

End BothRelocationKinds.

(** * Further properties of the analysis *)

Section OpcodeClasses.

(** X14. How the opcode tests relate: the lifetime loop extends the target
    of an opcode exactly for the types 1..15, the COMPARE band 24..31 and
    CALL; every pure assignment is among them, no jump is, and a jump is
    never a pure assignment; primary_2 is read only by opcodes that read
    primary_1, and never by the bare GOTO and COMPARE, NOP, COPY, NOT,
    BIT_NEG, SET_ARGUMENT, CALL and RETURN. *)
Theorem opcode_classes (op : Opcode) :
  (opcode_is_pure_assignment op || opcode_modifies_target_operand op = true
   <-> writes_target (type op))
  /\ (opcode_is_pure_assignment op = true ->
      opcode_modifies_target_operand op = true)
  /\ (opcode_is_jump op = true ->
      opcode_modifies_target_operand op = false
      /\ opcode_is_pure_assignment op = false)
  /\ (opcode_read_operand_primary_2 op = true ->
      opcode_read_operand_primary_1 op = true)
  /\ (opcode_read_operand_primary_2 op = true <->
      ~ In (type op) [OPCODE_NOP; OPCODE_COPY; OPCODE_NOT; OPCODE_BIT_NEG;
                      OPCODE_GOTO_BASE; OPCODE_COMPARE_BASE;
                      OPCODE_SET_ARGUMENT; OPCODE_CALL; OPCODE_RETURN]).
Proof.
  unfold opcode_is_pure_assignment, opcode_modifies_target_operand,
    opcode_is_jump, opcode_read_operand_primary_2,
    opcode_read_operand_primary_1, writes_target,
    OPCODE_NOP, OPCODE_COPY, OPCODE_NOT, OPCODE_BIT_NEG, OPCODE_GOTO_BASE,
    OPCODE_COMPARE_BASE, OPCODE_SET_ARGUMENT, OPCODE_CALL, OPCODE_RETURN.
  cbn [In].
  generalize (type op) as ty. intros ty.
  repeat match goal with
  | |- context [?a =? ?b] => destruct (Z.eqb_spec a b); try (exfalso; lia)
  | |- context [?a >=? ?b] => rewrite (Z.geb_leb a b)
  | |- context [?a <=? ?b] => destruct (Z.leb_spec a b); try (exfalso; lia)
  | |- context [?a <? ?b] => destruct (Z.ltb_spec a b); try (exfalso; lia)
  end; cbn [andb orb negb]; intuition (try discriminate; try lia).
Qed.

End OpcodeClasses.

Section FlagWords.

Variable a_infos : list OpcodeInfo.

Lemma reachable_flags_cases fl :
  reachable_flags fl ->
  fl = 0 \/ fl = 2 \/ fl = 4 \/ fl = 6 \/ fl = 20 \/ fl = 22.
Proof. unfold reachable_flags. cbn. tauto. Qed.

Lemma extend_flags var index pure_assignment var' :
  extend_variable_lifetime a_infos var index pure_assignment = Some var' ->
  reachable_flags (flags var) -> reachable_flags (flags var').
Proof.
  intros H Hfl. apply reachable_flags_cases in Hfl.
  unfold extend_variable_lifetime in H.
  destruct (_ || _); [by injection H as <-; unfold reachable_flags; cbn; tauto|].
  destruct (lifetime_start var =? -1).
  - destruct pure_assignment.
    + destruct (int_add index 1); [|done]. injection H as <-. cbn [flags].
      unfold reachable_flags.
      destruct Hfl as [->|[->|[->|[->|[->| ->]]]]]; cbn; tauto.
    + injection H as <-. cbn [flags]. unfold reachable_flags.
      destruct Hfl as [->|[->|[->|[->|[->| ->]]]]]; cbn; tauto.
  - destruct (scan_jumps _ _ _ _); [|done]. injection H as <-. cbn [flags].
    unfold reachable_flags.
    destruct pure_assignment;
      destruct Hfl as [->|[->|[->|[->|[->| ->]]]]]; cbn; tauto.
Qed.

Lemma mark_flags fl :
  reachable_flags fl -> reachable_flags (Z.lor fl VARIABLE_INFO_ETERNAL).
Proof.
  intros Hfl. apply reachable_flags_cases in Hfl. unfold reachable_flags.
  destruct Hfl as [->|[->|[->|[->|[->| ->]]]]]; cbn; tauto.
Qed.

Lemma calculate_lifetimes_flags rest : forall i vars vars',
  calculate_lifetimes a_infos rest i vars = Some vars' ->
  Forall (fun var => reachable_flags (flags var)) vars ->
  Forall (fun var => reachable_flags (flags var)) vars'.
Proof.
  assert (Hext : forall vars ref index p vars',
            extend_variable a_infos vars ref index p = Some vars' ->
            Forall (fun var => reachable_flags (flags var)) vars ->
            Forall (fun var => reachable_flags (flags var)) vars').
  { intros vars ref index p vars' H Hall.
    apply extend_variable_shape in H as (var & var' & _ & Hv & He & ->).
    apply Forall_insert; [done|]. eapply extend_flags; [exact He|].
    rewrite Forall_forall in Hall. apply Hall, list_elem_of_In.
    eapply list_elem_of_lookup_2. exact Hv. }
  assert (Hprim : forall vars operand reads index vars',
            visit_primary a_infos vars operand reads index = Some vars' ->
            Forall (fun var => reachable_flags (flags var)) vars ->
            Forall (fun var => reachable_flags (flags var)) vars').
  { intros vars operand reads index vars' H Hall. unfold visit_primary in H.
    destruct (operand_is_variable_address_load operand).
    - unfold mark_eternal in H.
      destruct (at_index vars (ref_id operand)) as [var|] eqn:Hv; [|done].
      injection H as <-. apply at_index_Some in Hv as [_ Hv].
      apply Forall_insert; [done|]. cbn [flags]. apply mark_flags.
      rewrite Forall_forall in Hall. apply Hall, list_elem_of_In.
      eapply list_elem_of_lookup_2. exact Hv.
    - destruct (_ && _); [by eapply Hext|by injection H as <-]. }
  induction rest as [|op rest IH]; intros i vars vars' H Hall.
  - by injection H as <-.
  - cbn [calculate_lifetimes] in H.
    destruct (visit_opcode a_infos i op vars) as [vars1|] eqn:H1; [|done].
    cbn [mbind option_bind] in H. eapply IH; [exact H|].
    unfold visit_opcode in H1.
    match type of H1 with (?s ≫= _) = _ => destruct s as [v1|] eqn:E1 end;
      [|done].
    cbn [mbind option_bind] in H1.
    match type of H1 with (?s ≫= _) = _ => destruct s as [v2|] eqn:E2 end;
      [|done].
    cbn [mbind option_bind] in H1.
    eapply Hprim; [exact H1|]. eapply Hprim; [exact E2|].
    destruct (_ && _) in E1; [by eapply Hext|by injection E1 as <-].
Qed.

End FlagWords.

Section FlagClaims.

(** X15. The flags of a completed analysis, for any function and any
    initial memory: every variable carries one of the six words 0, UNUSED,
    ETERNAL, UNUSED|ETERNAL, ETERNAL|UNINITIALIZED and
    UNUSED|ETERNAL|UNINITIALIZED.  So UNINITIALIZED never comes without
    ETERNAL, and PRUNED is never set. *)
Theorem analysis_flags (fn : Function) (raw : nat -> OpcodeInfo)
    (a : FunctionAnalysis) (v : nat) (var : VariableInfo) :
  analyse_function fn raw = Some a ->
  variable_infos a !! v = Some var ->
  reachable_flags (flags var)
  /\ (has_flag (flags var) VARIABLE_INFO_UNINITIALIZED = true ->
      has_flag (flags var) VARIABLE_INFO_ETERNAL = true)
  /\ has_flag (flags var) VARIABLE_INFO_PRUNED = false.
Proof.
  unfold analyse_function. intros H Hv.
  destruct (generate_label_data _ _ _) as [a1|]; [|done].
  cbn [mbind option_bind] in H.
  destruct (build_previous_labels _ 0 (-1) a1) as [a2|]; [|done].
  cbn [mbind option_bind] in H.
  destruct (calculate_lifetimes a2 _ 0 _) as [vars'|] eqn:H3; [|done].
  injection H as <-. cbn [variable_infos] in Hv.
  apply calculate_lifetimes_flags in H3.
  - rewrite Forall_forall in H3.
    assert (Hfl : reachable_flags (flags var)).
    { apply H3, list_elem_of_In. eapply list_elem_of_lookup_2. exact Hv. }
    split; [done|]. apply reachable_flags_cases in Hfl.
    destruct Hfl as [->|[->|[->|[->|[->| ->]]]]]; by cbn.
  - apply Forall_forall. intros x Hx.
    apply list_elem_of_In, elem_of_replicate in Hx as [-> _].
    by left.
Qed.

Lemma analysis_flags_witness :
  let var := {| lifetime_start := 1; lifetime_end := 2; flags := 6 |} in
  reachable_flags (flags var)
  /\ (has_flag (flags var) VARIABLE_INFO_UNINITIALIZED = true ->
      has_flag (flags var) VARIABLE_INFO_ETERNAL = true)
  /\ has_flag (flags var) VARIABLE_INFO_PRUNED = false.
Proof.
  apply (analysis_flags counting_loop raw_minus_one
           {| infos := [ {| previous_label := -1; jump_from := -1 |};
                         {| previous_label := -1; jump_from := -1 |};
                         {| previous_label := -1; jump_from := 4 |};
                         {| previous_label := 2; jump_from := -1 |};
                         {| previous_label := 2; jump_from := -1 |};
                         {| previous_label := 2; jump_from := 3 |} ];
              variable_infos :=
                [ {| lifetime_start := 0; lifetime_end := 5; flags := 4 |};
                  {| lifetime_start := 1; lifetime_end := 2; flags := 6 |} ] |}
           1%nat); reflexivity.
Defined.

End FlagClaims.

Section RecordHistory.

Variable a_infos : list OpcodeInfo.

Lemma visit_primary_at vars operand reads index vars' (v : nat) var :
  visit_primary a_infos vars operand reads index = Some vars' ->
  vars !! v = Some var ->
  exists var', vars' !! v = Some var'
    /\ ((primary_visit operand v /\ is_eternal var' = true)
        \/ (~ primary_visit operand v /\ var' = var)).
Proof.
  rewrite visit_primary_eq. intros H Hv. unfold primary_visit.
  destruct (operand_is_variable operand) eqn:Hvar.
  - apply mark_eternal_shape in H as (x & x' & Hr & Hx & He & ->).
    destruct (decide (v = Z.to_nat (ref_id operand))) as [->|Hne].
    + exists x'. split; [apply list_lookup_insert_eq; lia|].
      left. split; [split; [done|lia]|done].
    + exists var. split; [by rewrite list_lookup_insert_ne|].
      right. split; [|done]. intros [_ Href]. rewrite Href, Nat2Z.id in Hne. done.
  - injection H as <-. exists var. split; [done|]. right.
    split; [|done]. intros [? _]. congruence.
Qed.

(** What the body of the lifetime loop does to the record of one
    variable: marked eternal through a primary operand, or extended as the
    target, or left alone. *)
Lemma visit_opcode_at i op vars vars' (v : nat) var :
  visit_opcode a_infos i op vars = Some vars' ->
  vars !! v = Some var ->
  exists var', vars' !! v = Some var'
    /\ (((primary_visit (primary_1 op) v \/ primary_visit (primary_2 op) v)
         /\ is_eternal var' = true)
        \/ (target_visit op v
            /\ extend_variable_lifetime a_infos var (to_int (Z.of_nat i))
                 (opcode_is_pure_assignment op) = Some var')
        \/ (~ visits op v /\ var' = var)).
Proof.
  unfold visit_opcode. intros H Hv.
  match type of H with (?s ≫= _) = _ => destruct s as [vars1|] eqn:H1 end;
    [|done].
  cbn [mbind option_bind] in H.
  match type of H with (?s ≫= _) = _ => destruct s as [vars2|] eqn:H2 end;
    [|done].
  cbn [mbind option_bind] in H.
  assert (S1 : exists var1, vars1 !! v = Some var1
            /\ ((target_visit op v
                 /\ extend_variable_lifetime a_infos var (to_int (Z.of_nat i))
                      (opcode_is_pure_assignment op) = Some var1)
                \/ (~ target_visit op v /\ var1 = var))).
  { unfold target_visit.
    destruct (operand_is_variable (target op)) eqn:Hvar; cbn [andb] in H1.
    - destruct (opcode_is_pure_assignment op || opcode_modifies_target_operand op)
        eqn:Hmod.
      + apply extend_variable_shape in H1 as (x & x' & Hr & Hx & He & ->).
        destruct (decide (v = Z.to_nat (ref_id (target op)))) as [->|Hne].
        * exists x'. split; [apply list_lookup_insert_eq; lia|].
          left. rewrite Hx in Hv. injection Hv as <-.
          split; [|done]. split; [done|]. split; [done|lia].
        * exists var. split; [by rewrite list_lookup_insert_ne|].
          right. split; [|done]. intros (_ & _ & Href).
          rewrite Href, Nat2Z.id in Hne. done.
      + injection H1 as <-. exists var. split; [done|]. right.
        split; [|done]. intros (_ & ? & _). congruence.
    - injection H1 as <-. exists var. split; [done|]. right.
      split; [|done]. intros (? & _). congruence. }
  destruct S1 as (var1 & Hv1 & C1).
  destruct (visit_primary_at _ _ _ _ _ v var1 H2 Hv1) as (var2 & Hv2 & C2).
  destruct (visit_primary_at _ _ _ _ _ v var2 H Hv2) as (var3 & Hv3 & C3).
  exists var3. split; [done|].
  destruct C3 as [[P2 E3]|[NP2 ->]]; [left; by split; [right|]|].
  destruct C2 as [[P1 E2]|[NP1 ->]]; [left; by split; [left|]|].
  destruct C1 as [[T He]|[NT ->]]; [right; left; by split|].
  right. right. split; [|done]. unfold visits. tauto.
Qed.

Lemma calculate_lifetimes_untouched rest : forall i vars vars' (v : nat) var,
  calculate_lifetimes a_infos rest i vars = Some vars' ->
  vars !! v = Some var ->
  (forall (k : nat) op, rest !! k = Some op -> ~ visits op v) ->
  vars' !! v = Some var.
Proof.
  induction rest as [|op rest IH]; intros i vars vars' v var H Hv Hno.
  - by injection H as <-.
  - cbn [calculate_lifetimes] in H.
    destruct (visit_opcode a_infos i op vars) as [vars1|] eqn:H1; [|done].
    cbn [mbind option_bind] in H.
    destruct (visit_opcode_at _ _ _ _ v var H1 Hv) as (var1 & Hv1 & Hc).
    assert (Hn : ~ visits op v) by (apply (Hno 0%nat); done).
    assert (var1 = var) as ->.
    { destruct Hc as [[[P|P] _]|[[T _]|[_ ->]]]; [| | |done];
        exfalso; apply Hn; unfold visits; tauto. }
    eapply IH; [exact H|exact Hv1|]. intros k op' Hk. by apply (Hno (S k)).
Qed.

Hypothesis Hchain : label_chain a_infos.

(** The outcomes of one call of [extend_variable_lifetime]. *)
Lemma extend_cases (touched : Prop) var index pure_assignment var' :
  0 <= index < Z.of_nat (length a_infos) ->
  lifetime_inv a_infos touched var ->
  extend_variable_lifetime a_infos var index pure_assignment = Some var' ->
  (var' = var /\ (is_eternal var = true \/ index <= lifetime_end var))
  \/ (lifetime_start var = -1 /\ ~ touched /\ pure_assignment = true
      /\ lifetime_start var' = index /\ lifetime_end var' = index + 1)
  \/ is_eternal var' = true
  \/ (lifetime_start var' = lifetime_start var
      /\ 0 <= lifetime_start var < lifetime_end var
      /\ lifetime_end var < index < lifetime_end var').
Proof.
  intros Hidx Hinv H.
  destruct (is_eternal var) eqn:Het.
  { rewrite extend_eternal in H by done. injection H as <-. left. auto. }
  destruct Hinv as [Hinv|[Hun Hinv]]; [congruence|].
  unfold is_eternal in Het. unfold extend_variable_lifetime in H.
  rewrite Het, Hun, !orb_false_r in H.
  destruct (lifetime_end var >=? index) eqn:Eguard.
  { injection H as <-. zbool. left. split; [done|]. right. lia. }
  zbool. destruct (lifetime_start var =? -1) eqn:Estart; zbool.
  - destruct Hinv as [(_ & _ & Hnt)|(? & _)]; [|lia].
    destruct pure_assignment.
    + unfold int_add in H.
      destruct ((INT_MIN <=? index + 1) && (index + 1 <=? INT_MAX)); [|done].
      injection H as <-. right. left. by cbn.
    + injection H as <-. right. right. left. unfold is_eternal. cbn.
      apply eternal_set.
  - destruct Hinv as [(? & ? & ?)|(Hb & Hn & _ & Hcl)]; [lia|].
    destruct (lifetime_end var <? lifetime_start var) eqn:Emin; zbool; [lia|].
    destruct (scan_jumps _ a_infos index (lifetime_end var)) as [maximum|] eqn:Hs;
      [|done].
    injection H as <-.
    assert (Hi0 : 0 <= index) by lia.
    assert (Hi1 : lifetime_end var <= index) by lia.
    destruct (scan_jumps_spec a_infos Hchain _ _ _ _ Hi0 Hi1 Hs) as [Hmax _].
    right. right. right. cbn. lia.
Qed.

End RecordHistory.

Section Coverage.

Variable ops : list Opcode.
Variable a_infos : list OpcodeInfo.
Hypothesis Hchain : label_chain a_infos.
Hypothesis Hlen : length a_infos = length ops.
Hypothesis Hsize : Z.of_nat (length ops) <= INT_MAX.

Lemma visit_opcode_covers (k v : nat) op vars vars' var' :
  ops !! k = Some op ->
  records_inv a_infos (visited ops k) vars ->
  (forall var, vars !! v = Some var ->
     is_eternal var = true \/ covers ops k v var) ->
  visit_opcode a_infos k op vars = Some vars' ->
  vars' !! v = Some var' ->
  is_eternal var' = true \/ covers ops (S k) v var'.
Proof.
  intros Hop Hinv Hcov H Hv'.
  pose proof (lookup_lt_Some _ _ _ Hop) as Hk.
  assert (Hint : to_int (Z.of_nat k) = Z.of_nat k)
    by (apply to_int_small; unfold INT_MIN, INT_MAX in *; lia).
  pose proof (visit_opcode_keeps _ _ _ _ _ H) as [[Hl _] _].
  destruct (lookup_lt_is_Some_2 vars v) as [var Hv];
    [rewrite <- Hl; by eapply lookup_lt_Some|].
  destruct (visit_opcode_at _ _ _ _ _ v var H Hv) as (x & Hx & Hc).
  rewrite Hv' in Hx. injection Hx as <-.
  destruct Hc as [[_ He]|[[T Hext]|[Hn <-]]]; [by left| |].
  - rewrite Hint in Hext.
    assert (Hrange : 0 <= Z.of_nat k < Z.of_nat (length a_infos)) by lia.
    destruct (extend_cases a_infos Hchain _ _ _ _ _ Hrange
                (Hinv v var Hv) Hext)
      as [[-> Hg]|[(Hs & Hnt & Hp & Hs' & He')|[He|(Hs' & Hb & He')]]].
    + destruct (Hcov var Hv) as [He|[Hall Hfirst]]; [by left|].
      destruct Hg as [He|Hg]; [by left|]. right. split.
      * intros i op' Hi Hop' Hvis.
        destruct (decide (i = k)) as [->|Hne]; [|apply (Hall i op'); [lia|done..]].
        destruct Hfirst as [Hf|(op0 & Hf & _)]; lia.
      * destruct Hfirst as [Hf|(op0 & Hf & Hrest)]; [by left|].
        right. exists op0. split; [lia|done].
    + right. split.
      * intros i op' Hi Hop' Hvis.
        destruct (decide (i = k)) as [->|Hne]; [lia|].
        exfalso. apply Hnt. exists i, op'. split; [lia|done].
      * right. exists op. rewrite Hs', Nat2Z.id.
        split; [lia|]. split; [done|]. split; [done|].
        by rewrite Hp.
    + by left.
    + destruct (Hcov var Hv) as [He|[Hall Hfirst]].
      { rewrite extend_eternal in Hext by done. injection Hext as <-. by left. }
      right. split.
      * intros i op' Hi Hop' Hvis.
        destruct (decide (i = k)) as [->|Hne]; [lia|].
        assert (lifetime_start var <= Z.of_nat i <= lifetime_end var)
          by (apply (Hall i op'); [lia|done..]).
        lia.
      * destruct Hfirst as [Hf|(op0 & Hf & Hrest)]; [lia|].
        right. exists op0. rewrite Hs'. split; [lia|done].
  - destruct (Hcov var' Hv) as [He|[Hall Hfirst]]; [by left|]. right. split.
    + intros i op' Hi Hop' Hvis.
      destruct (decide (i = k)) as [->|Hne]; [|apply (Hall i op'); [lia|done..]].
      rewrite Hop in Hop'. injection Hop' as <-. done.
    + destruct Hfirst as [Hf|(op0 & Hf & Hrest)]; [by left|].
      right. exists op0. split; [lia|done].
Qed.

Lemma calculate_lifetimes_covers rest : forall pre vars vars',
  ops = pre ++ rest ->
  records_inv a_infos (visited ops (length pre)) vars ->
  (forall (v : nat) var, vars !! v = Some var ->
     is_eternal var = true \/ covers ops (length pre) v var) ->
  calculate_lifetimes a_infos rest (length pre) vars = Some vars' ->
  forall (v : nat) var', vars' !! v = Some var' ->
    is_eternal var' = true \/ covers ops (length ops) v var'.
Proof.
  induction rest as [|op rest IH]; intros pre vars vars' Hops Hinv Hcov H.
  - injection H as <-. intros v var Hv.
    assert (length ops = length pre) as ->
      by (rewrite Hops, length_app; cbn; lia).
    by apply Hcov.
  - cbn [calculate_lifetimes] in H.
    destruct (visit_opcode a_infos (length pre) op vars) as [vars1|] eqn:H1;
      [|done].
    cbn [mbind option_bind] in H.
    assert (Hk : ops !! length pre = Some op)
      by (rewrite Hops; by rewrite list_lookup_middle).
    pose proof (lookup_lt_Some _ _ _ Hk) as Hlt.
    apply (IH (pre ++ [op]) vars1).
    + by rewrite <- app_assoc.
    + rewrite length_app, Nat.add_1_r.
      eapply records_inv_iff;
        [|eapply (visit_opcode_inv ops a_infos Hchain Hlen Hsize);
          [exact Hlt|exact Hinv|exact H1]].
      intros v. symmetry. by apply (visited_succ ops a_infos Hlen).
    + rewrite length_app, Nat.add_1_r. intros v var1 Hv1.
      eapply visit_opcode_covers; eauto.
    + by rewrite length_app, Nat.add_1_r.
Qed.

End Coverage.

Section HistoryClaims.

(** X16. A variable that no opcode touches keeps the blank record it was
    given at the start: -1 for both ends of the lifetime and no flag.  This
    holds for any function and any initial memory on which the analysis
    completes. *)
Theorem untouched_variable_blank (fn : Function) (raw : nat -> OpcodeInfo)
    (a : FunctionAnalysis) (v : nat) :
  analyse_function fn raw = Some a ->
  (v < variables_size fn)%nat ->
  ~ visited (opcodes fn) (opcodes_size fn) v ->
  variable_infos a !! v = Some initial_variable.
Proof.
  unfold analyse_function. intros H Hv Hnv.
  destruct (generate_label_data _ _ _) as [a1|]; [|done].
  cbn [mbind option_bind] in H.
  destruct (build_previous_labels _ 0 (-1) a1) as [a2|]; [|done].
  cbn [mbind option_bind] in H.
  destruct (calculate_lifetimes a2 _ 0 _) as [vars'|] eqn:H3; [|done].
  injection H as <-. cbn [variable_infos].
  eapply calculate_lifetimes_untouched; [exact H3| |].
  - by apply lookup_replicate_2.
  - intros k op Hk Hvis. apply Hnv. exists k, op.
    split; [|done]. by eapply lookup_lt_Some.
Qed.

Lemma untouched_variable_blank_witness :
  variable_infos
    {| infos := [ {| previous_label := -1; jump_from := 1 |};
                  {| previous_label := 0; jump_from := -1 |} ];
       variable_infos := [initial_variable; initial_variable] |} !! 1%nat
  = Some initial_variable.
Proof.
  apply (untouched_variable_blank
           (mk_function (opcodes backward_jump) 2) raw_minus_one);
    [reflexivity | cbn; lia |].
  intros (i & op & Hi & Hop & Hvis).
  destruct i as [|[|i]]; [| |cbn in Hi; lia];
    injection Hop as <-;
    destruct Hvis as [(H & _)|[(H & _)|(H & _)]]; discriminate H.
Defined.

(** X17. What the lifetime of a variable that is not eternal covers, for
    a well-formed function, every variable of which has its record: every
    opcode that touches the variable sits at an index i with
    lifetime_start <= i <= lifetime_end, the upper bound included (an opcode
    at index lifetime_end does not extend the lifetime); and when the
    variable is touched at all, lifetime_start is the index of an opcode
    that targets it and is a pure assignment (COPY or CALL), the first
    opcode to touch it. *)
Theorem lifetime_covers_uses (fn : Function) (raw : nat -> OpcodeInfo) :
  well_formed fn = true ->
  (raw_in_range raw (opcodes_size fn) -> is_Some (analyse_function fn raw))
  /\ forall a, analyse_function fn raw = Some a ->
       length (variable_infos a) = variables_size fn
       /\ forall (v : nat) var, variable_infos a !! v = Some var ->
            is_eternal var = false ->
            (forall (i : nat) op, opcodes fn !! i = Some op -> visits op v ->
               lifetime_start var <= Z.of_nat i <= lifetime_end var)
            /\ (lifetime_start var <> -1 ->
                exists op,
                  opcodes fn !! Z.to_nat (lifetime_start var) = Some op
                  /\ target_visit op v
                  /\ opcode_is_pure_assignment op = true).
Proof.
  intros Hwf. split; [by apply analyse_function_defined|].
  intros a H.
  destruct (well_formed_inv _ Hwf) as [Hsz _].
  split; [by destruct (analyse_function_inv _ _ _ H Hsz) as (_ & ? & _)|].
  intros v var Hv Het.
  assert (Hcov : is_eternal var = true
                 \/ covers (opcodes fn) (opcodes_size fn) v var).
  { revert H. unfold analyse_function. rewrite last_index by done. intros H.
    set (a0 := raw <$> seq 0 (opcodes_size fn)) in *.
    assert (Hl0 : length a0 = opcodes_size fn)
      by (unfold a0; by rewrite length_fmap, length_seq).
    destruct (generate_label_data _ _ a0) as [a1|] eqn:H1; [|done].
    cbn [mbind option_bind] in H.
    destruct (build_previous_labels _ 0 (-1) a1) as [a2|] eqn:H2; [|done].
    cbn [mbind option_bind] in H.
    destruct (calculate_lifetimes a2 _ 0 _) as [vars'|] eqn:H3; [|done].
    injection H as <-. cbn [variable_infos] in Hv.
    apply generate_label_data_spec in H1 as [Hl1 _].
    rewrite <- Hl0, <- Hl1 in H2.
    apply previous_labels_chain in H2 as (Hl2 & Hch & _); [|lia].
    assert (Hlen : length a2 = length (opcodes fn))
      by (unfold opcodes_size in *; lia).
    eapply (calculate_lifetimes_covers (opcodes fn) a2 Hch Hlen Hsz
              (opcodes fn) [] _ vars' eq_refl (initial_records_inv _ _ _));
      [|exact H3|exact Hv].
    intros v0 var0 Hv0. apply lookup_replicate in Hv0 as [-> _].
    right. split; [intros i op Hi; cbn in Hi; lia|by left]. }
  destruct Hcov as [He|[Hall Hfirst]]; [congruence|]. split.
  - intros i op Hop Hvis. apply (Hall i op); [|done..].
    by eapply lookup_lt_Some.
  - intros Hne. destruct Hfirst as [Hf|(op & _ & Hop & Ht & Hp)]; [done|].
    by exists op.
Qed.

Lemma lifetime_covers_uses_witness :
  let a := {| infos := [ {| previous_label := -1; jump_from := -1 |};
                         {| previous_label := -1; jump_from := 3 |};
                         {| previous_label := 1; jump_from := -1 |};
                         {| previous_label := 1; jump_from := -1 |} ];
              variable_infos :=
                [ {| lifetime_start := 0; lifetime_end := 4; flags := 2 |};
                  {| lifetime_start := -1; lifetime_end := -1; flags := 0 |} ] |} in
  let var := {| lifetime_start := 0; lifetime_end := 4; flags := 2 |} in
  let op := {| type := OPCODE_COPY; target := var_ 0; primary_1 := imm 1;
               primary_2 := imm 0 |} in
  analyse_function backward_loop raw_minus_one = Some a
  /\ length (variable_infos a) = variables_size backward_loop
  /\ variable_infos a !! 0%nat = Some var
  /\ is_eternal var = false
  /\ opcodes backward_loop !! 2%nat = Some op
  /\ visits op 0
  /\ lifetime_start var <= Z.of_nat 2 <= lifetime_end var
  /\ exists op0,
       opcodes backward_loop !! Z.to_nat (lifetime_start var) = Some op0
       /\ target_visit op0 0
       /\ opcode_is_pure_assignment op0 = true.
Proof.
  intros a var op.
  destruct (proj2 (lifetime_covers_uses backward_loop raw_minus_one eq_refl)
              a eq_refl) as (Hvlen & Hall).
  destruct (Hall 0%nat var eq_refl eq_refl) as [Huses Hstart].
  assert (Hvis : visits op 0) by (left; repeat split; reflexivity).
  split; [reflexivity|]. split; [exact Hvlen|]. split; [reflexivity|].
  split; [reflexivity|]. split; [reflexivity|]. split; [exact Hvis|].
  split; [exact (Huses 2%nat op eq_refl Hvis)|].
  apply Hstart. discriminate.
Defined.

End HistoryClaims.

Section LabelList.

Lemma build_previous_labels_keeps count : forall i prev a_infos a_infos',
  build_previous_labels count i prev a_infos = Some a_infos' ->
  forall (j : nat) info, a_infos !! j = Some info ->
    exists info', a_infos' !! j = Some info'
      /\ jump_from info' = jump_from info
      /\ ((j < i)%nat -> previous_label info' = previous_label info).
Proof.
  induction count as [|count IH]; intros i prev a_infos a_infos' H j info Hj.
  - injection H as <-. eauto.
  - cbn [build_previous_labels] in H.
    destruct (a_infos !! i) as [info_i|] eqn:Hi; [|done].
    cbn [mbind option_bind] in H.
    pose proof (lookup_lt_Some _ _ _ Hi) as Hlt.
    destruct (decide (j = i)) as [->|Hne].
    + rewrite Hi in Hj. injection Hj as <-.
      edestruct (IH _ _ _ _ H i) as (info' & Hl & Hjf & _);
        [by apply list_lookup_insert_eq|].
      exists info'. split; [done|]. split; [done|]. lia.
    + edestruct (IH _ _ _ _ H j info) as (info' & Hl & Hjf & Hpl);
        [by rewrite list_lookup_insert_ne|].
      exists info'. split; [done|]. split; [done|]. intros. apply Hpl. lia.
Qed.

(** The entry the previous-label list points to is a jump target. *)
Lemma build_previous_labels_targets count : forall i prev a_infos a_infos',
  build_previous_labels count i prev a_infos = Some a_infos' ->
  Z.of_nat (i + count) <= INT_MAX + 1 ->
  (prev = -1 \/ exists (p : nat) info,
      prev = Z.of_nat p /\ (p < i)%nat /\ a_infos !! p = Some info
      /\ 0 <= jump_from info) ->
  forall (j : nat) info', (i <= j < i + count)%nat ->
    a_infos' !! j = Some info' ->
    previous_label info' = -1
    \/ exists (p : nat) info_p,
         previous_label info' = Z.of_nat p /\ a_infos' !! p = Some info_p
         /\ 0 <= jump_from info_p.
Proof.
  induction count as [|count IH];
    intros i prev a_infos a_infos' H Hmax Hprev j info' Hj Hlj; [lia|].
  pose proof H as Hall. cbn [build_previous_labels] in H.
  destruct (a_infos !! i) as [info_i|] eqn:Hi; [|done].
  cbn [mbind option_bind] in H.
  assert (Hint : to_int (Z.of_nat i) = Z.of_nat i)
    by (apply to_int_small; unfold INT_MIN, INT_MAX in *; lia).
  rewrite Hint in H.
  pose proof (lookup_lt_Some _ _ _ Hi) as Hlt.
  set (a1 := <[i := {| previous_label := prev; jump_from := jump_from info_i |}]> a_infos) in *.
  assert (Ha1i : a1 !! i = Some {| previous_label := prev; jump_from := jump_from info_i |})
    by (by apply list_lookup_insert_eq).
  destruct (decide (j = i)) as [->|Hne].
  - destruct (build_previous_labels_keeps _ _ _ _ _ H i _ Ha1i)
      as (x & Hx & _ & Hpl).
    rewrite Hlj in Hx. injection Hx as <-. rewrite Hpl by lia. cbn.
    destruct Hprev as [->|(p & info & -> & Hp & Hlp & Hjf)]; [by left|].
    right.
    destruct (build_previous_labels_keeps _ _ _ _ _ Hall p info Hlp)
      as (y & Hy & Hjy & _).
    exists p, y. rewrite Hjy. done.
  - eapply (IH (S i) _ a1 a_infos' H) with (j := j); [lia| |lia|exact Hlj].
    destruct (jump_from info_i >=? 0) eqn:E; zbool.
    + right. exists i, {| previous_label := prev; jump_from := jump_from info_i |}.
      cbn. repeat split; try done; lia.
    + destruct Hprev as [->|(p & info & -> & Hp & Hlp & Hjf)]; [by left|].
      right. exists p, info. split; [done|]. split; [lia|].
      split; [|done]. unfold a1. rewrite list_lookup_insert_ne; [done|lia].
Qed.

(** X18. The previous-label list of a completed analysis: for every
    index j, previous_label is -1 or an earlier index whose jump_from is
    non-negative, and no index strictly between it and j has a
    non-negative jump_from.  It is the nearest earlier entry marked as a
    jump target, or -1 when there is none. *)
Theorem previous_label_nearest (fn : Function) (raw : nat -> OpcodeInfo)
    (a : FunctionAnalysis) (j : nat) (info : OpcodeInfo) :
  Z.of_nat (opcodes_size fn) <= INT_MAX ->
  analyse_function fn raw = Some a ->
  infos a !! j = Some info ->
  -1 <= previous_label info < Z.of_nat j
  /\ (forall (k : nat) info_k,
        previous_label info < Z.of_nat k < Z.of_nat j ->
        infos a !! k = Some info_k -> jump_from info_k < 0)
  /\ (0 <= previous_label info ->
      exists info_p,
        infos a !! Z.to_nat (previous_label info) = Some info_p
        /\ 0 <= jump_from info_p).
Proof.
  intros Hsz H Hj.
  destruct (analyse_function_inv _ _ _ H Hsz) as (Hlen & _ & Hch & _).
  destruct (Hch j info Hj) as [Hb Hgap].
  split; [done|]. split; [done|]. intros Hpos.
  revert H. unfold analyse_function. rewrite last_index by done. intros H.
  destruct (generate_label_data _ _ _) as [a1|] eqn:H1; [|done].
  cbn [mbind option_bind] in H.
  destruct (build_previous_labels _ 0 (-1) a1) as [a2|] eqn:H2; [|done].
  cbn [mbind option_bind] in H.
  destruct (calculate_lifetimes a2 _ 0 _) as [vars'|]; [|done].
  injection H as <-. cbn [infos] in *.
  destruct (build_previous_labels_targets _ _ _ _ _ H2) with (j := j) (info' := info)
    as [Hm|(p & info_p & Hp & Hlp & Hjf)].
  - lia.
  - by left.
  - apply lookup_lt_Some in Hj. lia.
  - done.
  - lia.
  - exists info_p. rewrite Hp, Nat2Z.id. done.
Qed.

Lemma previous_label_nearest_witness :
  let info := {| previous_label := 2; jump_from := 3 |} in
  let a := {| infos := [ {| previous_label := -1; jump_from := -1 |};
                         {| previous_label := -1; jump_from := -1 |};
                         {| previous_label := -1; jump_from := 4 |};
                         {| previous_label := 2; jump_from := -1 |};
                         {| previous_label := 2; jump_from := -1 |};
                         {| previous_label := 2; jump_from := 3 |} ];
              variable_infos :=
                [ {| lifetime_start := 0; lifetime_end := 5; flags := 4 |};
                  {| lifetime_start := 1; lifetime_end := 2; flags := 6 |} ] |} in
  -1 <= previous_label info < Z.of_nat 5
  /\ (forall (k : nat) info_k,
        previous_label info < Z.of_nat k < Z.of_nat 5 ->
        infos a !! k = Some info_k -> jump_from info_k < 0)
  /\ (0 <= previous_label info ->
      exists info_p,
        infos a !! Z.to_nat (previous_label info) = Some info_p
        /\ 0 <= jump_from info_p).
Proof.
  apply (previous_label_nearest counting_loop raw_minus_one);
    [unfold INT_MAX; cbn; lia | reflexivity | reflexivity].
Defined.

End LabelList.

Section JumpsAndLifetimes.

(** X19. Soundness of the lifetimes with respect to jumps, when the
    memory behind the infos array holds -1: for a well-formed function the
    analysis completes with a record for every variable, and every jump,
    not only the latest, whose target lies strictly inside the lifetime of
    a variable that is not eternal is itself below the end of the lifetime.
    A jump back into a live range never comes from beyond its end. *)
Theorem jumps_into_lifetime (fn : Function) (raw : nat -> OpcodeInfo) :
  well_formed fn = true ->
  (forall t, jump_from (raw t) = -1) ->
  exists a,
    analyse_function fn raw = Some a
    /\ length (variable_infos a) = variables_size fn
    /\ forall (v : nat) var, variable_infos a !! v = Some var ->
         is_eternal var = false ->
         forall (i t : nat),
           jumps_to (opcodes fn) i (Z.of_nat t) ->
           lifetime_start var < Z.of_nat t < lifetime_end var ->
           Z.of_nat i < lifetime_end var.
Proof.
  intros Hwf Hraw.
  destruct (analyse_function_defined fn raw Hwf) as [a H].
  { intros i _. rewrite Hraw. lia. }
  exists a. split; [done|].
  destruct (well_formed_inv _ Hwf) as [Hsz _].
  destruct (analyse_function_inv _ _ _ H Hsz) as (Hlen & Hvlen & _ & Hinv & _).
  split; [done|]. intros v var Hv Het i t Hjmp Ht.
  destruct (Hinv v var Hv) as [He|[_ [(? & ? & _)|(_ & Hn & _ & Hcl)]]];
    [congruence|lia|].
  destruct (lookup_lt_is_Some_2 (infos a) t) as [info Hinfo]; [lia|].
  pose proof (Hcl t info Ht Hinfo) as Hsrc.
  destruct (jump_sources_blank_memory _ _ _ H Hsz Hraw t info Hinfo)
    as [[_ Hnone]|(Hpos & _ & Hlast)].
  - by apply Hnone in Hjmp.
  - destruct (Z.lt_ge_cases (jump_from info) (Z.of_nat i)) as [Hlt|Hge]; [|lia].
    exfalso. apply (Hlast i); [lia|done].
Qed.

Lemma jumps_into_lifetime_witness :
  let a := {| infos := [ {| previous_label := -1; jump_from := -1 |};
                         {| previous_label := -1; jump_from := 3 |};
                         {| previous_label := 1; jump_from := -1 |};
                         {| previous_label := 1; jump_from := -1 |} ];
              variable_infos :=
                [ {| lifetime_start := 0; lifetime_end := 4; flags := 2 |};
                  {| lifetime_start := -1; lifetime_end := -1; flags := 0 |} ] |} in
  let var := {| lifetime_start := 0; lifetime_end := 4; flags := 2 |} in
  analyse_function backward_loop raw_minus_one = Some a
  /\ length (variable_infos a) = variables_size backward_loop
  /\ variable_infos a !! 0%nat = Some var
  /\ is_eternal var = false
  /\ jumps_to (opcodes backward_loop) 3 (Z.of_nat 1)
  /\ lifetime_start var < Z.of_nat 1 < lifetime_end var
  /\ Z.of_nat 3 < lifetime_end var.
Proof.
  intros a var.
  destruct (jumps_into_lifetime backward_loop raw_minus_one eq_refl
              (fun _ => eq_refl)) as (a' & Ha & Hvlen & Hall).
  assert (a' = a) as -> by (vm_compute in Ha; by injection Ha as <-).
  assert (Hj : jumps_to (opcodes backward_loop) 3 (Z.of_nat 1))
    by (eexists; repeat split; reflexivity).
  split; [reflexivity|]. split; [exact Hvlen|]. split; [reflexivity|].
  split; [reflexivity|]. split; [exact Hj|]. split; [cbn; lia|].
  apply (Hall 0%nat var eq_refl eq_refl 3%nat 1%nat Hj). cbn. lia.
Defined.

End JumpsAndLifetimes.

Section Bounds.

Lemma generate_label_data_bounds ops k : forall a_infos a_infos',
  generate_label_data ops k a_infos = Some a_infos' ->
  forall (i : nat) op, (i < k)%nat -> ops !! i = Some op ->
    opcode_is_jump op = true ->
    0 <= ref_id (target op) < Z.of_nat (length a_infos).
Proof.
  induction k as [|k IH]; intros a_infos a_infos' H i op Hi Hop Hj; [lia|].
  cbn [generate_label_data] in H.
  destruct (ops !! k) as [op_k|] eqn:Hk; [|done].
  cbn [mbind option_bind] in H.
  match type of H with (?s ≫= _) = _ => destruct s as [a1|] eqn:H1 end;
    [|done].
  cbn [mbind option_bind] in H.
  assert (Hlen : length a1 = length a_infos).
  { destruct (opcode_is_jump op_k); [|by injection H1 as <-].
    destruct (at_index a_infos _) as [info|]; [|done].
    cbn [mbind option_bind] in H1.
    destruct (jump_from info >=? 0); injection H1 as <-; [done|].
    by rewrite length_insert. }
  destruct (decide (i = k)) as [->|Hne].
  - rewrite Hk in Hop. injection Hop as ->. rewrite Hj in H1.
    destruct (at_index a_infos _) as [info|] eqn:Hat; [|done].
    by apply at_index_Some in Hat as [? _].
  - rewrite <- Hlen. eapply (IH a1 a_infos' H i op); [lia|done|done].
Qed.

Lemma visit_primary_bounds a_infos vars operand reads index vars' :
  visit_primary a_infos vars operand reads index = Some vars' ->
  operand_is_variable operand = true ->
  0 <= ref_id operand < Z.of_nat (length vars).
Proof.
  rewrite visit_primary_eq. intros H Hv. rewrite Hv in H.
  by apply mark_eternal_shape in H as (? & ? & ? & _).
Qed.

Lemma visit_opcode_bounds a_infos i op vars vars' :
  visit_opcode a_infos i op vars = Some vars' ->
  (operand_is_variable (target op)
   && (opcode_is_pure_assignment op || opcode_modifies_target_operand op)
   = true -> 0 <= ref_id (target op) < Z.of_nat (length vars))
  /\ (operand_is_variable (primary_1 op) = true ->
      0 <= ref_id (primary_1 op) < Z.of_nat (length vars))
  /\ (operand_is_variable (primary_2 op) = true ->
      0 <= ref_id (primary_2 op) < Z.of_nat (length vars)).
Proof.
  unfold visit_opcode. intros H.
  match type of H with (?s ≫= _) = _ => destruct s as [vars1|] eqn:H1 end;
    [|done].
  cbn [mbind option_bind] in H.
  match type of H with (?s ≫= _) = _ => destruct s as [vars2|] eqn:H2 end;
    [|done].
  cbn [mbind option_bind] in H.
  assert (L1 : length vars1 = length vars
               /\ (operand_is_variable (target op)
                   && (opcode_is_pure_assignment op
                       || opcode_modifies_target_operand op) = true ->
                   0 <= ref_id (target op) < Z.of_nat (length vars))).
  { destruct (_ && _).
    - apply extend_variable_shape in H1 as (? & ? & ? & _ & _ & ->).
      by rewrite length_insert.
    - injection H1 as <-. done. }
  destruct L1 as [L1 B1].
  assert (L2 : length vars2 = length vars1).
  { rewrite visit_primary_eq in H2.
    destruct (operand_is_variable (primary_1 op)); [|by injection H2 as <-].
    apply mark_eternal_shape in H2 as (? & ? & _ & _ & _ & ->).
    by rewrite length_insert. }
  split; [exact B1|]. split; intros Hv.
  - rewrite <- L1. by eapply visit_primary_bounds.
  - rewrite <- L1, <- L2. by eapply visit_primary_bounds.
Qed.

Lemma calculate_lifetimes_bounds a_infos rest : forall i vars vars',
  calculate_lifetimes a_infos rest i vars = Some vars' ->
  forall op, op ∈ rest ->
    (operand_is_variable (target op)
     && (opcode_is_pure_assignment op || opcode_modifies_target_operand op)
     = true -> 0 <= ref_id (target op) < Z.of_nat (length vars))
    /\ (operand_is_variable (primary_1 op) = true ->
        0 <= ref_id (primary_1 op) < Z.of_nat (length vars))
    /\ (operand_is_variable (primary_2 op) = true ->
        0 <= ref_id (primary_2 op) < Z.of_nat (length vars)).
Proof.
  induction rest as [|op0 rest IH]; intros i vars vars' H op Hin.
  - by apply elem_of_nil in Hin.
  - cbn [calculate_lifetimes] in H.
    destruct (visit_opcode a_infos i op0 vars) as [vars1|] eqn:H1; [|done].
    cbn [mbind option_bind] in H.
    apply elem_of_cons in Hin as [->|Hin].
    + by eapply visit_opcode_bounds.
    + pose proof (visit_opcode_keeps _ _ _ _ _ H1) as [[Hl _] _].
      rewrite <- Hl. by eapply IH.
Qed.

Lemma in_range_true r n : 0 <= r < Z.of_nat n -> in_range r n = true.
Proof.
  intros [? ?]. unfold in_range.
  apply andb_true_iff. split; [by apply Z.leb_le|by apply Z.ltb_lt].
Qed.

(** X20. Well-formedness is exactly what the analysis needs to stay
    inside its two arrays.  For a function whose opcode count fits an
    int and memory whose stale jump sources lie below that count, the
    analysis runs to completion if and only if every jump target is an
    opcode index and every operand the lifetime loop treats as a variable
    names a declared variable; the code itself checks none of this. *)
Theorem analysis_defined_iff (fn : Function) (raw : nat -> OpcodeInfo) :
  Z.of_nat (opcodes_size fn) <= INT_MAX ->
  raw_in_range raw (opcodes_size fn) ->
  (is_Some (analyse_function fn raw) <-> well_formed fn = true).
Proof.
  intros Hsz Hraw. split; [|intros Hwf; by apply analyse_function_defined].
  intros [a H]. revert H. unfold analyse_function.
  rewrite last_index by done. intros H.
  destruct (generate_label_data _ _ _) as [a1|] eqn:H1; [|done].
  cbn [mbind option_bind] in H.
  destruct (build_previous_labels _ 0 (-1) a1) as [a2|] eqn:H2; [|done].
  cbn [mbind option_bind] in H.
  destruct (calculate_lifetimes a2 _ 0 _) as [vars'|] eqn:H3; [|done].
  unfold well_formed. apply andb_true_iff. split; [by apply Z.leb_le|].
  apply forallb_forall. intros op Hin. apply list_elem_of_In in Hin.
  destruct (calculate_lifetimes_bounds _ _ _ _ _ H3 op Hin) as (Bt & B1 & B2).
  rewrite length_replicate in Bt, B1, B2.
  apply list_elem_of_lookup_1 in Hin as [i Hi].
  pose proof (generate_label_data_bounds _ _ _ _ H1 i op
                (lookup_lt_Some _ _ _ Hi) Hi) as Bj.
  rewrite length_fmap, length_seq in Bj.
  repeat (apply andb_true_iff; split).
  - destruct (opcode_is_jump op); [|done]. cbn [negb orb].
    by apply in_range_true, Bj.
  - destruct (_ && _); [|done]. cbn [negb orb]. by apply in_range_true, Bt.
  - destruct (operand_is_variable (primary_1 op)); [|done]. cbn [negb orb].
    by apply in_range_true, B1.
  - destruct (operand_is_variable (primary_2 op)); [|done]. cbn [negb orb].
    by apply in_range_true, B2.
Qed.

Lemma analysis_defined_iff_witness :
  is_Some (analyse_function counting_loop raw_minus_one)
  <-> well_formed counting_loop = true.
Proof.
  apply (analysis_defined_iff counting_loop raw_minus_one).
  - unfold INT_MAX. cbn. lia.
  - intros i _. cbn. lia.
Defined.

End Bounds.

Section DynamicArrays.

Import DynArray.

Context {A : Type}.
Variable alloc_ok : Z -> bool.
Variable elem_size : Z.
Hypothesis Helem : 0 < elem_size.

#[local] Abbreviation realloc := (realloc alloc_ok elem_size).
#[local] Abbreviation PUSH := (DYNAMIC_ARRAY_PUSH alloc_ok elem_size).
#[local] Abbreviation RESIZE := (DYNAMIC_ARRAY_RESIZE alloc_ok elem_size).
#[local] Abbreviation consistent := (consistent elem_size).

Lemma realloc_granted (cells : list (option A)) n :
  0 <= n -> n * elem_size < 2 ^ 64 ->
  alloc_ok (n * elem_size) = true ->
  realloc cells n = resize (Z.to_nat n) None cells.
Proof.
  intros Hn Hfit Hok. unfold DynArray.realloc.
  rewrite to_size_t_small by nia. rewrite Hok.
  by rewrite Z.div_mul by lia.
Qed.

Lemma capacity_fits c : 0 <= c -> c * elem_size < 2 ^ 64 -> c < 2 ^ 64.
Proof. nia. Qed.

(** One push onto a consistent array. *)
Lemma push_step (d : dynamic_array A) item inc :
  consistent d -> 1 <= inc ->
  (size d + inc) * elem_size < 2 ^ 64 ->
  (size d = capacity d -> alloc_ok ((size d + inc) * elem_size) = true) ->
  exists d', PUSH d item inc = Some d'
    /\ consistent d'
    /\ size d' = size d + 1
    /\ elements d' = elements d ++ [Some item]
    /\ capacity d' = (if size d =? capacity d then capacity d + inc
                     else capacity d).
Proof.
  intros (Hlen & Hsize & Hfit) Hinc Hbound Hok.
  assert (Hc : capacity d < 2 ^ 64) by (apply capacity_fits; lia).
  unfold DYNAMIC_ARRAY_PUSH.
  destruct (size d =? capacity d) eqn:Efull; zbool.
  - replace (size d >=? capacity d) with true
      by (symmetry; apply Z.geb_le; lia).
    cbn [array size capacity].
    assert (Hc' : 0 <= capacity d + inc < 2 ^ 64) by nia.
    rewrite (to_size_t_small (capacity d + inc)) by done.
    rewrite realloc_granted; [|lia|lia|rewrite <- Efull; by apply Hok].
    rewrite (to_size_t_small (size d + 1)) by lia.
    rewrite (to_size_t_small (size d + 1 - 1)) by lia.
    rewrite length_resize.
    rewrite (proj2 (Z.ltb_lt _ _)) by lia.
    eexists. split; [reflexivity|].
    unfold DynArray.consistent, elements. cbn [array size capacity].
    split; [|split; [lia|split; [|done]]].
    + rewrite length_insert, length_resize. split; [done|]. split; [lia|].
      rewrite <- Efull. lia.
    + replace (size d + 1 - 1) with (size d) by lia.
      rewrite <- Efull.
      rewrite resize_ge by lia.
      replace (Z.to_nat (size d + inc) - length (array d))%nat
        with (S (Z.to_nat (inc - 1))) by lia.
      cbn [replicate].
      rewrite insert_app_r_alt by lia.
      replace (Z.to_nat (size d) - length (array d))%nat with 0%nat by lia.
      cbn [list_insert].
      rewrite take_app_ge by lia. rewrite (take_ge (array d)) by lia.
      replace (Z.to_nat (size d + 1) - length (array d))%nat with 1%nat by lia.
      done.
  - assert (size d < capacity d) by lia.
    replace (size d >=? capacity d) with false
      by (symmetry; rewrite Z.geb_leb; apply Z.leb_gt; lia).
    rewrite (to_size_t_small (size d + 1)) by lia.
    rewrite (to_size_t_small (size d + 1 - 1)) by lia.
    rewrite (proj2 (Z.ltb_lt _ _)) by lia.
    eexists. split; [reflexivity|].
    unfold DynArray.consistent, elements. cbn [array size capacity].
    split; [|split; [lia|split; [|done]]].
    + rewrite length_insert. split; [done|]. split; [lia|done].
    + replace (size d + 1 - 1) with (size d) by lia.
      replace (Z.to_nat (size d + 1)) with (S (Z.to_nat (size d))) by lia.
      destruct (lookup_lt_is_Some_2 (array d) (Z.to_nat (size d))) as [x Hx];
        [lia|].
      erewrite take_S_r; [|by apply list_lookup_insert_eq; lia].
      by rewrite take_insert_ge by lia.
Qed.

(** X21. Pushing a list of items onto a consistent dynamic array with a
    capacity increment of at least one, when realloc grants every request
    and the byte counts fit size_t: every push is defined, the items are
    appended in order after the old elements, and the capacity grows by
    whole increments only, never to a full increment more than the size
    unless it did not grow at all. *)
Theorem push_all_appends (items : list A) : forall (d : dynamic_array A) inc,
  consistent d -> 1 <= inc ->
  (size d + Z.of_nat (length items) + inc) * elem_size < 2 ^ 64 ->
  (forall b, 0 <= b <= (size d + Z.of_nat (length items) + inc) * elem_size ->
     alloc_ok b = true) ->
  exists d', push_all alloc_ok elem_size d items inc = Some d'
    /\ consistent d'
    /\ size d' = size d + Z.of_nat (length items)
    /\ elements d' = elements d ++ (Some <$> items)
    /\ capacity d <= capacity d'
    /\ (capacity d' - capacity d) mod inc = 0
    /\ (capacity d' = capacity d \/ capacity d' < size d' + inc).
Proof.
  induction items as [|item rest IH]; intros d inc Hd Hinc Hfit Hok.
  - exists d. cbn [push_all length fmap list_fmap].
    rewrite app_nil_r, Z.sub_diag, Z.mod_0_l by lia.
    split; [done|]. split; [done|]. split; [lia|]. split; [done|].
    split; [lia|]. split; [done|]. by left.
  - cbn [length] in Hfit, Hok.
    pose proof Hd as (_ & Hsize & _).
    destruct (push_step d item inc Hd Hinc) as (d1 & Hp & Hd1 & Hs1 & He1 & Hc1).
    { nia. }
    { intros _. apply Hok. nia. }
    destruct (IH d1 inc Hd1 Hinc) as (d' & Hr & Hd' & Hs' & He' & Hle & Hmod & Hcap).
    { rewrite Hs1. eapply Z.le_lt_trans; [|exact Hfit]. nia. }
    { intros b Hb. apply Hok. rewrite Hs1 in Hb. nia. }
    exists d'. cbn [push_all]. rewrite Hp. cbn [mbind option_bind].
    split; [exact Hr|]. split; [exact Hd'|].
    split; [rewrite Hs', Hs1; cbn [length]; lia|].
    split; [rewrite He', He1, <- app_assoc; done|].
    destruct (size d =? capacity d) eqn:Efull; zbool.
    + split; [lia|]. split.
      * replace (capacity d' - capacity d)
          with (capacity d' - capacity d1 + 1 * inc) by lia.
        by rewrite Z.mod_add by lia.
      * right. destruct Hcap as [Hcap|Hcap]; [|lia].
        rewrite Hcap, Hc1, Hs', Hs1. lia.
    + rewrite Hc1 in *. split; [lia|]. split; [done|].
      destruct Hcap as [Hcap|Hcap]; [by left|by right].
Qed.

(** X22. Resizing a consistent dynamic array to n elements, when the
    byte count fits size_t and realloc grants the request it may make: the
    array stays consistent with size n, the capacity is the larger of the
    old capacity and n (it never shrinks), and the elements are the first n
    cells of the old block, padded with cells that hold no determinate
    value.  So shrinking keeps a prefix of the elements, and growing again
    brings the old cells back rather than fresh ones. *)
Theorem resize_elements (d : dynamic_array A) (n : Z) :
  consistent d -> 0 <= n -> n * elem_size < 2 ^ 64 ->
  (capacity d <= n -> alloc_ok (n * elem_size) = true) ->
  let d' := RESIZE d n in
  consistent d'
  /\ size d' = n
  /\ capacity d' = Z.max (capacity d) n
  /\ elements d' = resize (Z.to_nat n) None (array d)
  /\ (n <= size d -> elements d' = take (Z.to_nat n) (elements d)).
Proof.
  intros (Hlen & Hsize & Hfit) Hn Hnfit Hok.
  assert (Hn64 : n < 2 ^ 64) by (apply capacity_fits; lia).
  unfold DYNAMIC_ARRAY_RESIZE, DYNAMIC_ARRAY_RESERVE.
  rewrite (to_size_t_small n) by lia.
  assert (Hprefix : n <= size d ->
            resize (Z.to_nat n) None (array d)
            = take (Z.to_nat n) (elements d)).
  { intros Hle. unfold elements. rewrite take_take, resize_le by lia.
    f_equal. lia. }
  destruct (n >=? capacity d) eqn:Egrow; zbool.
  - cbn [array size capacity]. cbv zeta.
    rewrite realloc_granted by (try apply Hok; lia).
    unfold DynArray.consistent, elements. cbn [array size capacity].
    rewrite length_resize.
    split; [split; [done|split; [lia|done]]|].
    split; [done|]. split; [lia|].
    split; [by rewrite take_resize_eq|].
    intros Hle. rewrite take_resize_eq. by apply Hprefix.
  - cbv zeta. unfold DynArray.consistent, elements. cbn [array size capacity].
    split; [split; [done|split; [lia|done]]|].
    split; [done|]. split; [lia|].
    assert (Htake : take (Z.to_nat n) (array d)
                    = resize (Z.to_nat n) None (array d))
      by (by rewrite resize_le by lia).
    split; [done|]. intros Hle. rewrite Htake. by apply Hprefix.
Qed.

(** X23. The macros do not check what realloc returns, nor that the
    increment is positive: a push onto a full array is a store outside the
    block, hence undefined, when the capacity increment is zero or when
    realloc refuses the request. *)
Theorem push_outside_block (d : dynamic_array A) (item : A) (inc : Z) :
  consistent d -> size d = capacity d ->
  inc = 0
  \/ alloc_ok (to_size_t (to_size_t (capacity d + inc) * elem_size)) = false ->
  PUSH d item inc = None.
Proof.
  intros (Hlen & Hsize & Hfit) Hfull Hcase.
  assert (Hc : capacity d < 2 ^ 64) by (apply capacity_fits; lia).
  unfold DYNAMIC_ARRAY_PUSH.
  replace (size d >=? capacity d) with true
    by (symmetry; apply Z.geb_le; lia).
  cbn [array size capacity].
  match goal with |- (if ?c then _ else _) = None =>
    assert (Hout : c = false); [|by rewrite Hout] end.
  apply Z.ltb_ge. unfold DynArray.realloc.
  destruct (alloc_ok _) eqn:Eok.
  - destruct Hcase as [->|Hno]; [|congruence].
    rewrite Z.add_0_r, (to_size_t_small (capacity d)) by lia.
    rewrite (to_size_t_small (capacity d * elem_size)) by nia.
    rewrite length_resize, Z.div_mul, Z2Nat.id by lia.
    rewrite Hfull.
    destruct (Z.eq_dec (capacity d + 1) (2 ^ 64)) as [Hwrap|Hno].
    + rewrite Hwrap. change (to_size_t (2 ^ 64)) with 0.
      change (to_size_t (0 - 1)) with (2 ^ 64 - 1). lia.
    + rewrite (to_size_t_small (capacity d + 1)) by lia.
      rewrite to_size_t_small by lia. lia.
  - cbn [length]. change (Z.of_nat 0) with 0. apply to_size_t_range.
Qed.

End DynamicArrays.

Section DynamicArrayWitnesses.

Import DynArray.

Lemma push_all_appends_witness :
  exists d', push_all (fun _ => true) 8 dynamic_array_zero [10; 20; 30] 2
             = Some d'
    /\ DynArray.consistent 8 d'
    /\ size d' = size (@dynamic_array_zero Z) + Z.of_nat (length [10; 20; 30])
    /\ elements d' = elements dynamic_array_zero ++ (Some <$> [10; 20; 30])
    /\ capacity (@dynamic_array_zero Z) <= capacity d'
    /\ (capacity d' - capacity (@dynamic_array_zero Z)) mod 2 = 0
    /\ (capacity d' = capacity (@dynamic_array_zero Z)
        \/ capacity d' < size d' + 2).
Proof.
  apply (push_all_appends (fun _ => true) 8 ltac:(lia) [10; 20; 30]
           dynamic_array_zero 2).
  - unfold DynArray.consistent. cbn. lia.
  - lia.
  - cbn. lia.
  - reflexivity.
Defined.

Lemma resize_elements_witness :
  let d := {| array := [Some 10; Some 20; Some 30; None];
              size := 3; capacity := 4 |} in
  let d' := DYNAMIC_ARRAY_RESIZE (fun _ => true) 8 d 2 in
  DynArray.consistent 8 d'
  /\ size d' = 2
  /\ capacity d' = Z.max (capacity d) 2
  /\ elements d' = resize (Z.to_nat 2) None (array d)
  /\ (2 <= size d -> elements d' = take (Z.to_nat 2) (elements d)).
Proof.
  apply (resize_elements (fun _ => true) 8 ltac:(lia)
           {| array := [Some 10; Some 20; Some 30; None];
              size := 3; capacity := 4 |} 2).
  - unfold DynArray.consistent. cbn. lia.
  - lia.
  - lia.
  - reflexivity.
Defined.

Lemma push_outside_block_witness :
  DYNAMIC_ARRAY_PUSH (fun _ => true) 8
    {| array := [Some 10; Some 20]; size := 2; capacity := 2 |} 30 0 = None.
Proof.
  apply (push_outside_block (fun _ => true) 8 ltac:(lia)
           {| array := [Some 10; Some 20]; size := 2; capacity := 2 |} 30 0).
  - unfold DynArray.consistent. cbn. lia.
  - reflexivity.
  - by left.
Defined.

End DynamicArrayWitnesses.

Section EmptyFunction.

(** X24. A function with no opcode: [opcodes_size - 1] wraps around as a
    size_t and converts to the int -1, so the label pass does not run; for
    any content of the uninitialised memory and any number of variables
    the analysis completes with no opcode record and every variable
    blank. *)
Theorem empty_function_analysis (fn : Function) (raw : nat -> OpcodeInfo) :
  opcodes fn = [] ->
  analyse_function fn raw
  = Some {| infos := [];
            variable_infos := replicate (variables_size fn) initial_variable |}.
Proof.
  intros Hops. unfold analyse_function, opcodes_size. rewrite Hops.
  reflexivity.
Qed.

Lemma empty_function_analysis_witness :
  analyse_function (empty_function 2) raw_zero
  = Some {| infos := [];
            variable_infos :=
              replicate (variables_size (empty_function 2)) initial_variable |}.
Proof.
  apply (empty_function_analysis (empty_function 2) raw_zero). reflexivity.
Defined.

End EmptyFunction.
